(** * blakearchive/sfmscripts: text reconstruction and fragment correlation

    A shallow embedding of [blake_superfast.py] and [blake_xml.py], and the
    properties of the fragment locator, the title parser, the match
    correlator, the matrix exclusion index and the markup text extractor. *)

From Stdlib Require Import ZArith NArith Lia Ascii String.
From stdpp Require Import base option list gmap sorting.

Set Default Proof Using "Type".
Local Open Scope Z_scope.

(** ** The Python values the scripts compute with *)

Module Py.

(** A Python [str] is a sequence of Unicode code points. *)
Abbreviation str := (list N).

(** [py "abc"] is the Python literal ['abc'] (one code point per character). *)
Fixpoint py (s : string) : str :=
  match s with
  | EmptyString => []
  | String c s' => N_of_ascii c :: py s'
  end.

Definition NL : N := 10%N.   (* '\n' *)
Definition SP : N := 32%N.   (* ' '  *)
Definition DOT : N := 46%N.  (* '.'  *)
Definition COMMA : N := 44%N. (* ',' *)

(** The exceptions that the modelled code can raise. *)
Inductive exn : Type :=
  | AttributeError (attr : string)
  | ValueError (msg : string)
  | TypeError (msg : string)
  | IndexError (msg : string)
  | HTTPError (status : Z).

(** The outcome of a call: a value, or a raised exception. *)
Inductive result (A : Type) : Type :=
  | Return (a : A)
  | Raise (e : exn).
Arguments Return {A} a.
Arguments Raise {A} e.

(** Sequencing: an exception raised by the first call propagates. *)
#[global] Instance result_bind : MBind result := λ A B k r,
  match r with
  | Return a => k a
  | Raise e => Raise e
  end.
#[global] Instance result_ret : MRet result := λ A a, Return a.

(** *** Slicing: [s[lo:hi]]

    CPython clamps each bound ([PySlice_AdjustIndices], step 1): a negative
    bound counts from the end and is clamped at [0], a bound past the end is
    clamped at [len(s)]; the slice is empty when the adjusted bounds cross. *)
Definition adjust_index (len i : Z) : Z :=
  if i <? 0 then (if i + len <? 0 then 0 else i + len)
  else (if len <=? i then len else i).

Definition slice {A} (s : list A) (lo hi : Z) : list A :=
  let len := Z.of_nat (length s) in
  let lo' := adjust_index len lo in
  let hi' := adjust_index len hi in
  take (Z.to_nat (hi' - lo')) (drop (Z.to_nat lo') s).

(** *** [s.split(sep)] for a one-character separator, and [sep.join(l)] *)

(** [split_on sep cur s]: [cur] is the segment read so far, reversed. *)
Fixpoint split_on (sep : N) (cur : str) (s : str) : list str :=
  match s with
  | [] => [rev cur]
  | c :: s' =>
      if N.eqb c sep then rev cur :: split_on sep [] s'
      else split_on sep (c :: cur) s'
  end.

Definition split (sep : N) (s : str) : list str := split_on sep [] s.

Fixpoint join (sep : str) (l : list str) : str :=
  match l with
  | [] => []
  | [x] => x
  | x :: l' => x ++ sep ++ join sep l'
  end.

(** [l[:-1]] *)
Definition all_but_last {A} (l : list A) : list A :=
  slice l 0 (-1).

(** [l[i]] for a non-negative literal index. *)
Definition index {A} (l : list A) (i : nat) : result A :=
  match l !! i with
  | Some a => Return a
  | None => Raise (IndexError "list index out of range")
  end.

(** *** Whitespace: [str.isspace], [\s] in a [str] pattern, [str.strip]

    All three use CPython's [Py_UNICODE_ISSPACE]. *)
Definition isspace (c : N) : bool :=
  ((9 <=? c) && (c <=? 13) || (28 <=? c) && (c <=? 32) || (c =? 133) ||
   (c =? 160) || (c =? 5760) || (8192 <=? c) && (c <=? 8202) ||
   (c =? 8232) || (c =? 8233) || (c =? 8239) || (c =? 8287) ||
   (c =? 12288))%N.

Definition nonws (c : N) : Prop := isspace c = false.

Fixpoint lstrip (s : str) : str :=
  match s with
  | [] => []
  | c :: s' => if isspace c then lstrip s' else s
  end.

Definition rstrip (s : str) : str := rev (lstrip (rev s)).

Definition strip (s : str) : str := rstrip (lstrip s).

(** [re.sub(r'\s+', ' ', s)]: scanning from the left, each match of [\s+]
    is greedy, so it is a maximal run of whitespace, and is replaced by one
    space. [in_run] tells that the previous character belonged to the match
    being replaced. *)
Fixpoint sub_ws_from (in_run : bool) (s : str) : str :=
  match s with
  | [] => []
  | c :: s' =>
      if isspace c
      then (if in_run then sub_ws_from true s' else SP :: sub_ws_from true s')
      else c :: sub_ws_from false s'
  end.

Definition re_sub_ws (s : str) : str := sub_ws_from false s.

(** *** [int(x)]

    For a [str] argument CPython strips whitespace, reads an optional sign
    and then decimal digits, where single underscores may separate digits.
    Digits are the ASCII digits here; the other Unicode decimal digits, which
    CPython accepts as well, do not occur in the service's records. *)
Definition is_digit (c : N) : Prop := (48 ≤ c ∧ c ≤ 57)%N.

Definition digit_val (c : N) : option Z :=
  if ((48 <=? c) && (c <=? 57))%N then Some (Z.of_N (c - 48)) else None.

Fixpoint parse_digits (acc : Z) (after_digit : bool) (s : str) : option Z :=
  match s with
  | [] => if after_digit then Some acc else None
  | c :: s' =>
      match digit_val c with
      | Some d => parse_digits (10 * acc + d) true s'
      | None =>
          if (c =? 95)%N && after_digit then parse_digits acc false s'
          else None
      end
  end.

Definition parse_int (s : str) : option Z :=
  match strip s with
  | [] => None
  | c :: ds =>
      if (c =? 45)%N then Z.opp <$> parse_digits 0 false ds   (* '-' *)
      else if (c =? 43)%N then parse_digits 0 false ds        (* '+' *)
      else parse_digits 0 false (c :: ds)
  end.

(** A JSON number, or the same number as text. *)
Inductive jnum : Type :=
  | JInt (z : Z)
  | JText (s : str).

Definition int (v : jnum) : result Z :=
  match v with
  | JInt z => Return z
  | JText s =>
      match parse_int s with
      | Some z => Return z
      | None => Raise (ValueError "invalid literal for int() with base 10")
      end
  end.

(** [str(n)] for an integer: the decimal numeral, used to state what text
    [int] reads back. [fuel] bounds the number of digits. *)
Fixpoint digits_of (fuel : nat) (n : N) (acc : str) : str :=
  match fuel with
  | O => acc
  | S fuel' =>
      let acc' := (48 + n mod 10)%N :: acc in
      if (n <? 10)%N then acc' else digits_of fuel' (n / 10) acc'
  end.

Definition str_of_N (n : N) : str := digits_of (S (N.to_nat (N.size n))) n [].

Definition str_of_Z (z : Z) : str :=
  match z with
  | Z0 => str_of_N 0
  | Zpos p => str_of_N (Npos p)
  | Zneg p => 45%N :: str_of_N (Npos p)
  end.

End Py.

Import Py.

(** ** blake_superfast.py *)

Module Superfast.

(** A fragment descriptor of the service: a JSON list
    [[start in primary, start in matching doc, length, hash]]. *)
Abbreviation fragment_list := (list jnum).

(** A row of [documents.rows] in a document record. *)
Record Row : Type := mkRow {
  row_doctype : Z;
  row_docid : Z;
  row_fragments : list fragment_list
}.

(** The document record the service returns ([title], [text], [doctype],
    [docid], [documents.rows]). *)
Record DocJson : Type := mkDocJson {
  j_title : str;
  j_text : str;
  j_doctype : Z;
  j_docid : Z;
  j_rows : list Row
}.

(** [SuperfastAPI.get(['document', doctype, docid])]: the remote lookup,
    which returns the record or raises ([raise_for_status]). *)
Record SuperfastAPI : Type := mkApi {
  get_document : Z → Z → result DocJson
}.

(** A [BlakeDoc]: the attributes absorbed from the record, and the ones
    [parse_title] sets. *)
Record BlakeDoc : Type := mkBlakeDoc {
  title : str;
  text : str;
  doctype : Z;
  docid : Z;
  documents_rows : list Row;
  desc_id : str;
  work : option str;
  copy : option str;
  form : option str;
  page : option str
}.

(** [SuperfastDoc.fragment]: [self.text[begin:begin+length]]. *)
Definition fragment (self : BlakeDoc) (begin length : Z) : str :=
  slice (text self) begin (begin + length).

(** [a, b, c, d, e = l]: raises [ValueError] unless [l] has five items. *)
Definition unpack5 {A} (l : list A) : result (A * A * A * A * A) :=
  match l with
  | [a; b; c; d; e] => Return (a, b, c, d, e)
  | _ :: _ :: _ :: _ :: _ :: _ :: _ =>
      Raise (ValueError "too many values to unpack (expected 5)")
  | _ => Raise (ValueError "not enough values to unpack (expected 5)")
  end.

(** [BlakeDoc.parse_title]: the values of [desc_id], [work], [copy], [form]
    and [page] it sets. [None] is Python's [None]. *)
Definition parse_title (title : str)
  : str * (option str * option str * option str * option str) :=
  let desc_id := join [DOT] (all_but_last (split DOT title)) in
  match unpack5 (split DOT title) with
  | Return (w, c, f, p, _) => (desc_id, (Some w, Some c, Some f, Some p))
  | Raise (ValueError _) => (desc_id, (None, None, None, None))
  | Raise _ => (desc_id, (None, None, None, None))
  end.

(** [SuperfastDoc.__init__] followed by [BlakeDoc.__init__]: the record
    comes from [dct] when one is given, from the service otherwise. *)
Definition BlakeDoc_of_json (j : DocJson) : BlakeDoc :=
  let '(d, (w, c, f, p)) := parse_title (j_title j) in
  {| title := j_title j; text := j_text j; doctype := j_doctype j;
     docid := j_docid j; documents_rows := j_rows j;
     desc_id := d; work := w; copy := c; form := f; page := p |}.

Definition BlakeDoc_init (api : SuperfastAPI) (doctype docid : Z)
    (dct : option DocJson) : result BlakeDoc :=
  match dct with
  | Some j => Return (BlakeDoc_of_json j)
  | None => j ← get_document api doctype docid; Return (BlakeDoc_of_json j)
  end.

(** A [SuperfastDocmatch]. The attribute [data] exists only when the match
    was built from a row. *)
Record SuperfastDocmatch : Type := mkMatch {
  primary_doc : BlakeDoc;
  matching_doc : BlakeDoc;
  data : option Row
}.

(** [SuperfastDocmatch.__init__]. A document object is truthy, and so is the
    dict of a row (it has keys). *)
Definition SuperfastDocmatch_init (api : SuperfastAPI) (primary_doc : BlakeDoc)
    (row_dct : option Row) (match_doc : option BlakeDoc)
  : result SuperfastDocmatch :=
  match match_doc with
  | Some d =>
      Return {| primary_doc := primary_doc; matching_doc := d; data := None |}
  | None =>
      match row_dct with
      | Some row =>
          d ← BlakeDoc_init api (row_doctype row) (row_docid row) None;
          Return {| primary_doc := primary_doc; matching_doc := d;
                    data := Some row |}
      | None => Raise (ValueError "row_dct or match_doc must be supplied")
      end
  end.

(** The class attribute [SuperfastDocmatch.exclusions], shared by all
    matches. The class body does not define it: the outer [option] is [None]
    until it is assigned; the value assigned is [None] or a dict. *)
Abbreviation matrices_t := (gmap str (list str)).
Abbreviation exclusions_attr := (option (option matrices_t)).

(** What [excluded] returns: [True], or [None] when it falls off its end. *)
Inductive value : Type :=
  | VBool (b : bool)
  | VNone.

(** [d.get(key, [])] *)
Definition get_or_empty (d : matrices_t) (key : str) : list str :=
  default [] (d !! key).

(** [not v] for the value of the attribute: [None] and the empty dict are
    falsy. *)
Definition falsy (v : option matrices_t) : bool :=
  match v with
  | None => true
  | Some d => bool_decide (d = ∅)
  end.

(** [SuperfastDocmatch.excluded] *)
Definition excluded (exclusions : exclusions_attr) (self : SuperfastDocmatch)
  : result value :=
  match exclusions with
  | None => Raise (AttributeError "exclusions")
  | Some v =>
      if falsy v then Raise (ValueError "no matrix values are present")
      else
        match v with
        | None => Raise (AttributeError "get")
        | Some d =>
            if bool_decide (desc_id (matching_doc self) ∈
                              get_or_empty d (desc_id (primary_doc self)))
               || bool_decide (desc_id (primary_doc self) ∈
                              get_or_empty d (desc_id (matching_doc self)))
            then Return (VBool true)
            else Return VNone
        end
  end.

(** A [MatchFragment]. *)
Record MatchFragment : Type := mkFragment {
  frag_doc : BlakeDoc;
  frag_lst : fragment_list;
  frag_begin : Z;
  frag_length : Z;
  frag_text : str
}.

(** [MatchFragment.__init__] *)
Definition MatchFragment_init (doc : BlakeDoc) (fragment_list : fragment_list)
  : result MatchFragment :=
  b ← index fragment_list 1;
  begin ← int b;
  l ← index fragment_list 2;
  length ← int l;
  Return {| frag_doc := doc; frag_lst := fragment_list; frag_begin := begin;
            frag_length := length; frag_text := fragment doc begin length |}.

(** The generator that [fragments] returns: the document and the part of the
    stored list not consumed yet. *)
Record generator : Type := mkGen {
  gen_doc : BlakeDoc;
  gen_rest : list fragment_list
}.

(** [SuperfastDocmatch.fragments]: [self.data['fragments']] is evaluated at
    the call, the fragments are built one by one as the generator is
    advanced. *)
Definition fragments (self : SuperfastDocmatch) : result generator :=
  match data self with
  | None => Raise (AttributeError "data")
  | Some row =>
      Return {| gen_doc := matching_doc self; gen_rest := row_fragments row |}
  end.

(** [next(g)]: [None] is [StopIteration]; a generator whose body raised is
    finished. *)
Definition next (g : generator) : option (result MatchFragment * generator) :=
  match gen_rest g with
  | [] => None
  | fl :: rest =>
      match MatchFragment_init (gen_doc g) fl with
      | Return f => Some (Return f, {| gen_doc := gen_doc g; gen_rest := rest |})
      | Raise e => Some (Raise e, {| gen_doc := gen_doc g; gen_rest := [] |})
      end
  end.

(** [list(g)]: advance the generator until it stops or raises. *)
Fixpoint drain (doc : BlakeDoc) (rest : list fragment_list)
  : result (list MatchFragment) :=
  match rest with
  | [] => Return []
  | fl :: rest' =>
      f ← MatchFragment_init doc fl;
      fs ← drain doc rest';
      Return (f :: fs)
  end.

Definition to_list (g : generator) : result (list MatchFragment) :=
  drain (gen_doc g) (gen_rest g).

(** [MatrixRelations.load_relations] on the rows of the relation table, each
    a pair of the columns [desc_id] and [same_matrix_ids]. *)
Definition load_row (matrices : matrices_t) (row : str * str) : matrices_t :=
  if bool_decide (row.2 = []) then matrices
  else
    let same_matrix_ids := split COMMA row.2 in
    match matrices !! row.1 with
    | Some l => <[row.1 := l ++ same_matrix_ids]> matrices
    | None => <[row.1 := same_matrix_ids]> matrices
    end.

Definition load_relations (rows : list (str * str)) : matrices_t :=
  foldl load_row ∅ rows.

(** [x in c] where [c] is what [dict.get] returned: a list, or [None]. *)
Definition contains (x : str) (c : option (list str)) : result bool :=
  match c with
  | Some l => Return (bool_decide (x ∈ l))
  | None => Raise (TypeError "argument of type 'NoneType' is not iterable")
  end.

(** [MatrixRelations.same_matrix] *)
Definition same_matrix (matrices : matrices_t) (doc otherdoc : BlakeDoc)
  : result bool :=
  match contains (desc_id doc) (matrices !! desc_id otherdoc) with
  | Return true => Return true
  | Return false => Return false
  | Raise (TypeError _) => Return false
  | Raise e => Raise e
  end.

(** The counterpart start and the length of a descriptor, as integers: the
    items at index 1 and 2, read by [int]. *)
Definition offsets (fl : fragment_list) : option (Z * Z) :=
  match fl !! 1%nat, fl !! 2%nat with
  | Some b, Some l =>
      match int b, int l with
      | Return b', Return l' => Some (b', l')
      | _, _ => None
      end
  | _, _ => None
  end.

(** The fragment that a descriptor with offsets [(b, l)] stands for. *)
Definition fragment_of (doc : BlakeDoc) (fl : fragment_list) (b l : Z)
  : MatchFragment :=
  {| frag_doc := doc; frag_lst := fl; frag_begin := b; frag_length := l;
     frag_text := fragment doc b l |}.

(** Either document lists the other in its entry of the index. *)
Definition listed_either_way (d : matrices_t) (self : SuperfastDocmatch) : Prop :=
  (∃ l, d !! desc_id (primary_doc self) = Some l ∧
        desc_id (matching_doc self) ∈ l) ∨
  (∃ l, d !! desc_id (matching_doc self) = Some l ∧
        desc_id (primary_doc self) ∈ l).

(** Documents and records of the examples. *)
Definition doc_titled (t : string) (body : string) : BlakeDoc :=
  BlakeDoc_of_json
    {| j_title := py t; j_text := py body; j_doctype := 1; j_docid := 89;
       j_rows := [] |}.

Definition doc_a : BlakeDoc := doc_titled "a.txt" "".
Definition doc_b : BlakeDoc := doc_titled "b.txt" "".
Definition doc_c : BlakeDoc := doc_titled "c.txt" "".

Definition doc001 : BlakeDoc :=
  doc_titled "vda.h.illbk.07.txt" "Wave shadows of discontent! and in what".

Definition json_g : DocJson :=
  {| j_title := py "vda.g.illbk.07.txt";
     j_text := py "Wave shadows of discontent! and in what";
     j_doctype := 1; j_docid := 199; j_rows := [] |}.

(** A service that knows one document, [(1, 199)]. *)
Definition api0 : SuperfastAPI :=
  {| get_document := λ doctype docid,
       if (doctype =? 1) && (docid =? 199) then Return json_g
       else Raise (HTTPError 404) |}.

Definition row_g : Row :=
  {| row_doctype := 1; row_docid := 199;
     row_fragments :=
       [[JInt 0; JInt 5; JInt 7; JInt 4200547186];
        [JInt 9; JText (py "16"); JText (py "10"); JInt 2671570340]] |}.

Definition match_g : SuperfastDocmatch :=
  {| primary_doc := doc001; matching_doc := BlakeDoc_of_json json_g;
     data := Some row_g |}.

End Superfast.

(** ** blake_xml.py *)

Module BlakeXml.

(** An lxml element: its tag, the text before its first child, its children
    and its tail, the text between its end tag and the next tag. lxml keeps
    the tail in the element it follows. *)
#[warning="-register-all"]
Inductive Element : Type :=
  | Elem (tag : str) (text : option str) (children : list Element)
         (tail : option str).

Definition tag (e : Element) : str := let 'Elem t _ _ _ := e in t.
Definition text (e : Element) : option str := let 'Elem _ x _ _ := e in x.
Definition children (e : Element) : list Element :=
  let 'Elem _ _ cs _ := e in cs.
Definition tail (e : Element) : option str := let 'Elem _ _ _ tl := e in tl.

Definition has_tag (name : string) (e : Element) : bool :=
  bool_decide (tag e = py name).

(** What [itertext] yields for a text or a tail: nothing when it is [None]
    or empty. *)
Definition chunk (t : option str) : list str :=
  match t with
  | Some (c :: s) => [c :: s]
  | _ => []
  end.

(** *** The parsed tree and its changes in place

    [text] changes the tree it reads: it unlinks elements and assigns to
    [.text]. An element is identified by its position in the tree as parsed,
    the indices of the children on the way from the object's node. The state
    of the tree is the set of the elements unlinked from their parent so
    far, and the set of the elements whose text was set to [' ']. *)
Abbreviation path := (list nat).

Record tree_state : Type := mkState {
  removed : gset path;
  space_text : gset path
}.

Definition parsed : tree_state := {| removed := ∅; space_text := ∅ |}.

Section over_children.
Context {A : Type} (st : tree_state) (p : path) (f : path → Element → list A).

(** Collect [f] over the children of the element at [p] that are still
    linked; [cs] are the children as parsed from index [i] on. *)
Fixpoint over_children (i : nat) (cs : list Element) : list A :=
  match cs with
  | [] => []
  | c :: cs' =>
      (if decide (p ++ [i] ∈ removed st) then [] else f (p ++ [i]) c)
      ++ over_children (S i) cs'
  end.

End over_children.

(** The descendants of the element [e] at [p], in document order. *)
Fixpoint iterdescendants (st : tree_state) (p : path) (e : Element)
  : list (path * Element) :=
  match e with
  | Elem _ _ cs _ =>
      over_children st p (λ q c, (q, c) :: iterdescendants st q c) 0%nat cs
  end.

(** [e.findall('.//' + name)] *)
Definition findall_descendants (st : tree_state) (name : string)
    (p : path) (e : Element) : list (path * Element) :=
  filter (λ n, has_tag name n.2) (iterdescendants st p e).

(** [e.findall(name)] *)
Definition findall_children (st : tree_state) (name : string)
    (p : path) (e : Element) : list (path * Element) :=
  filter (λ n, has_tag name n.2)
         (over_children st p (λ q c, [(q, c)]) 0%nat (children e)).

(** [xml.xpath('phystext//l')]: the [l] elements below a [phystext] child
    of the object, in document order. *)
Definition xpath_phystext_l (st : tree_state) (xml : Element)
  : list (path * Element) :=
  over_children st []
    (λ q c, if has_tag "phystext" c then findall_descendants st "l" q c
            else [])
    0%nat (children xml).

(** [note.getparent().remove(note)]: the element goes, with its tail. *)
Definition remove (st : tree_state) (note : path * Element) : tree_state :=
  {| removed := {[note.1]} ∪ removed st; space_text := space_text st |}.

(** [space.text = ' '] *)
Definition set_text_space (st : tree_state) (space : path * Element)
  : tree_state :=
  {| removed := removed st; space_text := {[space.1]} ∪ space_text st |}.

(** [e.itertext()]: the text of [e], then for each child its own
    [itertext()] and its tail; the tail of [e] itself is not included. *)
Fixpoint itertext (st : tree_state) (p : path) (e : Element) : list str :=
  match e with
  | Elem _ x cs _ =>
      chunk (if decide (p ∈ space_text st) then Some [SP] else x)
      ++ over_children st p (λ q c, itertext st q c ++ chunk (tail c)) 0%nat cs
  end.

(** One turn of the loop over the lines, up to the test [text == '']: the
    state of the tree after it, and [text]. *)
Definition line_turn (st : tree_state) (line : path * Element)
  : tree_state * str :=
  let st := foldl remove st (findall_descendants st "note" line.1 line.2) in
  let st := foldl set_text_space st (findall_children st "space" line.1 line.2) in
  (st, concat (itertext st line.1 line.2)).

(** The whole turn, on the state of the tree and [transcription]. *)
Definition text_turn (acc : tree_state * str) (line : path * Element)
  : tree_state * str :=
  let '(st, text) := line_turn acc.1 line in
  if bool_decide (text = []) then (st, acc.2)
  else
    let text := re_sub_ws text in
    let text := strip text in
    (st, acc.2 ++ text ++ [NL]).

(** [XMLObject.text], on the object's node as parsed. The lines are selected
    once, before the loop. *)
Definition XMLObject_text (xml : Element) : str :=
  rstrip (foldl text_turn (parsed, []) (xpath_phystext_l parsed xml)).2.

(** *** The lines as values

    What a turn does to a line, on the line's subtree as parsed. *)

(** The element at a position below [e]. *)
Fixpoint subtree (e : Element) (q : path) : option Element :=
  match q with
  | [] => Some e
  | i :: q' =>
      match children e !! i with
      | Some c => subtree c q'
      | None => None
      end
  end.

(** The line without the [note] elements below it, and without their
    tails. *)
Fixpoint remove_notes (line : Element) : Element :=
  match line with
  | Elem t x cs tl =>
      Elem t x
        (flat_map (λ c, if has_tag "note" c then [] else [remove_notes c]) cs)
        tl
  end.

Definition set_space_text (c : Element) : Element :=
  if has_tag "space" c then Elem (tag c) (Some [SP]) (children c) (tail c)
  else c.

(** The line with the text of its [space] children set to [' ']. *)
Definition fill_spaces (line : Element) : Element :=
  Elem (tag line) (text line) (map set_space_text (children line)) (tail line).

(** The texts and tails inside an element, in document order. *)
Fixpoint texts_of (e : Element) : list str :=
  match e with
  | Elem _ x cs _ => chunk x ++ flat_map (λ c, texts_of c ++ chunk (tail c)) cs
  end.

Definition line_text (line : Element) : str :=
  concat (texts_of (fill_spaces (remove_notes line))).

Definition text_step (transcription : str) (line : Element) : str :=
  let text := line_text line in
  if bool_decide (text = []) then transcription
  else transcription ++ strip (re_sub_ws text) ++ [NL].

(** The lines selected in the object as parsed. *)
Definition lines_of (xml : Element) : list Element :=
  (xpath_phystext_l parsed xml).*2.

(** The words of a text: its maximal runs of characters that are not
    whitespace, in order. [cur] is the word being read, reversed. *)
Fixpoint words_from (cur : str) (s : str) : list str :=
  match s with
  | [] => match cur with [] => [] | _ => [rev cur] end
  | c :: s' =>
      if isspace c
      then match cur with
           | [] => words_from [] s'
           | _ => rev cur :: words_from [] s'
           end
      else words_from (c :: cur) s'
  end.

Definition words (s : str) : list str := words_from [] s.

(** No element of the tree, the root apart, is a [note]. *)
Fixpoint note_free (e : Element) : bool :=
  match e with
  | Elem _ _ cs _ =>
      forallb (λ c, negb (has_tag "note" c) && note_free c) cs
  end.

(** The texts of the lines that the loop does not skip. *)
Definition kept_texts (xml : Element) : list str :=
  filter (λ t, t ≠ []) (line_text <$> lines_of xml).

(** Below [p], what is unlinked is a note, and no note is still linked. *)
Definition notes_unlinked (st : tree_state) (p : path) (e : Element) : Prop :=
  (∀ q c, q ≠ [] → subtree e q = Some c → p ++ q ∈ removed st →
          has_tag "note" c = true)
  ∧ (∀ x, x ∈ iterdescendants st p e → has_tag "note" x.2 = false).

(** Whatever is unlinked is a note of the tree [tree] as parsed. *)
Definition removed_notes (tree : Element) (st : tree_state) : Prop :=
  ∀ n, n ∈ removed st →
       ∃ c, subtree tree n = Some c ∧ has_tag "note" c = true.

(** In a list of selected elements, none comes after an element below it
    (or after itself). *)
Definition before (x y : path * Element) : Prop := ¬ y.1 `prefix_of` x.1.

(** Builders for the markup of the examples. *)
Definition txt (s : string) : option str := Some (py s).
Definition l_ (x : option str) (cs : list Element) (tl : option str) : Element :=
  Elem (py "l") x cs tl.
Definition note_ (x : option str) (tl : option str) : Element :=
  Elem (py "note") x [] tl.
Definition space_ (tl : option str) : Element :=
  Elem (py "space") None [] tl.
Definition desc_ (lines : list Element) : Element :=
  Elem (py "desc") None [Elem (py "phystext") None lines None] None.

Definition line_of (s : str) : Element := Elem (py "l") (Some s) [] None.
Definition line_jehovah : Element :=
  l_ (txt "Jehovah") [space_ (txt "What")] None.
Definition line_note_only : Element :=
  l_ None [note_ (txt "In Copy O, the etched number is obscured.") None] None.
Definition line_blank_note : Element :=
  l_ (txt " ") [note_ (txt "In Copy O, the etched number is obscured.") None]
     None.
Definition line_note_inside : Element :=
  l_ (txt "Jehovah") [note_ (txt "etched") (txt " What Vengeance")] None.

End BlakeXml.

(** ** The rest of blake_superfast.py and blake_xml.py *)

Module SuperfastMore.
Import Superfast.

(** The rows of the relation table that [load_relations] reads for the
    descriptor id [k]: the ones of [k] whose [same_matrix_ids] is not empty,
    in the order of the table. *)
Definition rows_for (k : str) (rows : list (str * str)) : list (str * str) :=
  filter (λ r, r.1 = k ∧ r.2 ≠ []) rows.

(** The ids these rows list, in order and with repetitions. *)
Definition listed_ids (k : str) (rows : list (str * str)) : list str :=
  concat ((λ r, split COMMA r.2) <$> rows_for k rows).

(** [s.replace(old, new)] for a one-character [old]: every occurrence is
    replaced. *)
Definition replace_char (old : N) (new : str) (s : str) : str :=
  flat_map (λ c, if N.eqb c old then new else [c]) s.

(** [MatchFragment.text_cleaned]: [self.text.replace('\n', '<br>')]. *)
Definition text_cleaned (self : MatchFragment) : str :=
  replace_char NL (py "<br>") (frag_text self).

(** Advancing a generator [n] times: the outcomes of the calls of [next]
    ([None] is [StopIteration]) and the generator left. *)
Fixpoint advance (n : nat) (g : generator)
  : list (option (result MatchFragment)) * generator :=
  match n with
  | O => ([], g)
  | S n' =>
      match next g with
      | None => let '(os, g') := advance n' g in (None :: os, g')
      | Some (o, g1) => let '(os, g') := advance n' g1 in (Some o :: os, g')
      end
  end.

End SuperfastMore.

(** *** Documents as attribute dicts

    [SuperfastDoc.__init__] makes the record the instance's [__dict__], and
    [BlakeDoc] adds its attributes to it; [orig_json] reads the record
    back. Here the record keeps all its fields, with any values. *)

Module DocDict.
Import Superfast.

(** A JSON value ([JNull] is [None]; the numbers are the integers). *)
#[warning="-register-all"]
Inductive json : Type :=
  | JNull
  | JBool (b : bool)
  | JNumber (z : Z)
  | JString (s : str)
  | JArray (l : list json)
  | JObject (fields : list (str * json)).

(** A dict with [str] keys, in insertion order. *)
Abbreviation pydict := (list (str * json)).

Definition keys (d : pydict) : list str := d.*1.

(** [d.get(k)] *)
Fixpoint dict_get (d : pydict) (k : str) : option json :=
  match d with
  | [] => None
  | (k', v) :: d' => if decide (k' = k) then Some v else dict_get d' k
  end.

(** [d[k] = v]: the value is replaced where the key is, or the item is
    added at the end. *)
Fixpoint dict_set (d : pydict) (k : str) (v : json) : pydict :=
  match d with
  | [] => [(k, v)]
  | (k', v') :: d' =>
      if decide (k' = k) then (k, v) :: d' else (k', v') :: dict_set d' k v
  end.

(** What reading the attributes can raise. *)
Inductive attr_exn : Type :=
  | NoAttribute (name : str)      (* AttributeError *)
  | NoKey (key : json)            (* KeyError *)
  | NotIterable                   (* TypeError *)
  | Unhashable.                   (* TypeError *)

(** [self.name], on the instance's [__dict__]. *)
Definition getattr (d : pydict) (name : string) : attr_exn + json :=
  match dict_get d (py name) with
  | Some v => inr v
  | None => inl (NoAttribute (py name))
  end.

(** [self.json_keys = list(self.__dict__.keys()).copy()] *)
Definition set_json_keys (d : pydict) : pydict :=
  dict_set d (py "json_keys") (JArray (JString <$> keys d)).

Definition json_of_option (o : option str) : json :=
  match o with
  | Some s => JString s
  | None => JNull
  end.

(** [BlakeDoc.parse_title] on the attributes: only a [str] has [split]. *)
Definition parse_title_attrs (d : pydict) : attr_exn + pydict :=
  match getattr d "title" with
  | inl e => inl e
  | inr (JString title) =>
      let '(desc_id, (w, c, f, p)) := parse_title title in
      let d := dict_set d (py "desc_id") (JString desc_id) in
      let d := dict_set d (py "work") (json_of_option w) in
      let d := dict_set d (py "copy") (json_of_option c) in
      let d := dict_set d (py "form") (json_of_option f) in
      let d := dict_set d (py "page") (json_of_option p) in
      inr d
  | inr _ => inl (NoAttribute (py "split"))
  end.

(** The attributes of a [BlakeDoc] whose [__dict__] was set to the record
    [dct]: [SuperfastDoc.__init__], then [parse_title]. *)
Definition BlakeDoc_attrs (dct : pydict) : attr_exn + pydict :=
  parse_title_attrs (set_json_keys dct).

(** [for key in v]: the items of a list, the characters of a [str], the
    keys of a dict. *)
Definition iter (v : json) : attr_exn + list json :=
  match v with
  | JArray l => inr l
  | JString s => inr ((λ c, JString [c]) <$> s)
  | JObject fields => inr (JString <$> fields.*1)
  | _ => inl NotIterable
  end.

(** [{key: self.__dict__[key] for key in ks}], [acc] being the dict built so
    far. The keys of [__dict__] are [str]s. *)
Fixpoint items_of (d : pydict) (ks : list json) (acc : pydict)
  : attr_exn + pydict :=
  match ks with
  | [] => inr acc
  | JString key :: ks' =>
      match dict_get d key with
      | Some v => items_of d ks' (dict_set acc key v)
      | None => inl (NoKey (JString key))
      end
  | JArray _ :: _ | JObject _ :: _ => inl Unhashable
  | key :: _ => inl (NoKey key)
  end.

(** [SuperfastDoc.orig_json] *)
Definition orig_json (d : pydict) : attr_exn + pydict :=
  match getattr d "json_keys" with
  | inl e => inl e
  | inr ks =>
      match iter ks with
      | inl e => inl e
      | inr l => items_of d l []
      end
  end.

(** Several assignments in a row. *)
Definition set_all (d : pydict) (kvs : pydict) : pydict :=
  foldl (λ d kv, dict_set d kv.1 kv.2) d kvs.

(** The attributes after [parse_title], as assignments in a row. *)
Definition title_attrs (t : str) : pydict :=
  [(py "desc_id", JString (parse_title t).1);
   (py "work", json_of_option (parse_title t).2.1.1.1);
   (py "copy", json_of_option (parse_title t).2.1.1.2);
   (py "form", json_of_option (parse_title t).2.1.2);
   (py "page", json_of_option (parse_title t).2.2)].

(** The names that a [BlakeDoc] sets besides the fields of its record. *)
Definition derived_names : list str :=
  [py "json_keys"; py "desc_id"; py "work"; py "copy"; py "form"; py "page"].

(** The record of the repository's test document, with two more fields. *)
Definition record001 : pydict :=
  [(py "doctype", JNumber 1); (py "docid", JNumber 89);
   (py "title", JString (py "vda.h.illbk.07.txt"));
   (py "text", JString (py "Wave shadows of discontent! and in what"));
   (py "characters", JNumber 1498);
   (py "documents", JObject [(py "rows", JArray [])])].

End DocDict.

(** *** The service: urls, listing of the documents *)

Module Service.
Import Superfast.

(** [str(x)] for a url element or a port. *)
Definition str_of (v : jnum) : str :=
  match v with
  | JInt z => str_of_Z z
  | JText s => s
  end.

Definition SLASH : N := 47%N.

(** A page of the listing: the [(doctype, docid)] of its rows, and
    [cursors.next]. *)
Record Page : Type := mkPage {
  page_rows : list (Z * Z);
  page_next : str
}.

(** A [SuperfastAPI] object: the address and the port it was made with, and
    what the service answers to a url ([requests.get], [raise_for_status],
    [json.loads]), a document record or a page of the listing. *)
Record Connection : Type := mkConnection {
  addr : str;
  port : jnum;
  fetch_document : str → result DocJson;
  fetch_listing : str → result Page
}.

(** [SuperfastAPI.__init__]: [base_url]. *)
Definition base_url (c : Connection) : str :=
  py "http://" ++ addr c ++ py ":" ++ str_of (port c) ++ py "/".

(** The items of a list for [str.join]: a [TypeError] unless all are
    [str]. *)
Fixpoint str_items (lst : list jnum) : result (list str) :=
  match lst with
  | [] => Return []
  | JText s :: lst' => ss ← str_items lst'; Return (s :: ss)
  | JInt _ :: _ =>
      Raise (TypeError "sequence item: expected str instance, int found")
  end.

(** [SuperfastAPI.get], the url: the elements joined by ['/'], converted by
    [str] when the first attempt raises [TypeError]. *)
Definition url (c : Connection) (lst : list jnum) : result str :=
  match str_items lst with
  | Return ss => Return (base_url c ++ join [SLASH] ss)
  | Raise (TypeError _) =>
      Return (base_url c ++ join [SLASH] (str_of <$> lst))
  | Raise e => Raise e
  end.

(** [SuperfastDoc.get_json]: [api.get(['document', doctype, docid])]. *)
Definition get_json (c : Connection) (doctype docid : Z) : result DocJson :=
  u ← url c [JText (py "document"); JInt doctype; JInt docid];
  fetch_document c u.

(** The lookups of a connection. *)
Definition api_of (c : Connection) : SuperfastAPI :=
  {| get_document := get_json c |}.

(** [BlakeSuperfast.doc_factory] *)
Definition doc_factory (c : Connection) (row : Z * Z) : result BlakeDoc :=
  BlakeDoc_init (api_of c) row.1 row.2 None.

(** The first error, or all the values. *)
Fixpoint collect {A B} (f : A → result B) (l : list A) : result (list B) :=
  match l with
  | [] => Return []
  | a :: l' => b ← f a; bs ← collect f l'; Return (b :: bs)
  end.

(** The query string of a page of the listing. [next_cursor] is [False]
    before the first page, which counts as the empty string does. *)
Definition paginate (perpage next_cursor : str) : str :=
  match next_cursor with
  | [] => py "?limit=" ++ perpage
  | _ => py "?limit=" ++ perpage ++ py "&cursor=" ++ next_cursor
  end.

Definition get_page (c : Connection) (perpage next_cursor : str)
  : result Page :=
  u ← url c [JText (py "document"); JText (paginate perpage next_cursor)];
  fetch_listing c u.

(** [SuperfastAPI.documents]: what [list(api.documents(perpage))] returns,
    from the page after [next_cursor] on. The loop goes on as long as the
    service names a next page; [None] tells that it has not ended within
    [fuel] pages. *)
Fixpoint documents_from (fuel : nat) (c : Connection)
    (perpage next_cursor : str) : option (result (list BlakeDoc)) :=
  match fuel with
  | O => None
  | S fuel' =>
      match get_page c perpage next_cursor with
      | Raise e => Some (Raise e)
      | Return page =>
          match collect (doc_factory c) (page_rows page) with
          | Raise e => Some (Raise e)
          | Return docs =>
              match page_next page with
              | [] => Some (Return docs)
              | next_cursor =>
                  match documents_from fuel' c perpage next_cursor with
                  | None => None
                  | Some (Raise e) => Some (Raise e)
                  | Some (Return rest) => Some (Return (docs ++ rest))
                  end
              end
          end
      end
  end.

Definition documents (fuel : nat) (c : Connection) (perpage : jnum)
  : option (result (list BlakeDoc)) :=
  documents_from fuel c (str_of perpage) [].

(** The pages that the service serves in a row from the page after
    [next_cursor] on, up to the one that names no next page. *)
Inductive pages_from (c : Connection) (perpage : str)
  : str → list Page → Prop :=
  | pages_last next_cursor page :
      get_page c perpage next_cursor = Return page →
      page_next page = [] →
      pages_from c perpage next_cursor [page]
  | pages_more next_cursor page pages :
      get_page c perpage next_cursor = Return page →
      page_next page ≠ [] →
      pages_from c perpage (page_next page) pages →
      pages_from c perpage next_cursor (page :: pages).

(** A service with two pages of two and one documents. *)
Definition doc_json (doctype docid : Z) : DocJson :=
  {| j_title := py "vda.h.illbk." ++ str_of_Z docid ++ py ".txt";
     j_text := []; j_doctype := doctype; j_docid := docid; j_rows := [] |}.

Definition service0 : Connection :=
  {| addr := py "example.com"; port := JInt 8080;
     fetch_document := λ u,
       if bool_decide (u = py "http://example.com:8080/document/1/1")
       then Return (doc_json 1 1)
       else if bool_decide (u = py "http://example.com:8080/document/1/2")
       then Return (doc_json 1 2)
       else if bool_decide (u = py "http://example.com:8080/document/1/3")
       then Return (doc_json 1 3)
       else Raise (HTTPError 404);
     fetch_listing := λ u,
       if bool_decide (u = py "http://example.com:8080/document/?limit=2")
       then Return {| page_rows := [(1, 1); (1, 2)]; page_next := py "c3" |}
       else if bool_decide
                 (u = py "http://example.com:8080/document/?limit=2&cursor=c3")
       then Return {| page_rows := [(1, 3)]; page_next := [] |}
       else Raise (HTTPError 404) |}.

End Service.

(** *** The export of the fragments *)

Module FragmentExport.
Import Superfast SuperfastMore.

Abbreviation csv_row := (list str).

Definition header : csv_row :=
  [py "primary_desc_id"; py "match_desc_id"; py "fragment"].

(** What a loop has done when it ends: the rows it wrote, and the exception
    that ended it, if one did. *)
Abbreviation written := (list csv_row * option exn)%type.

(** The row written for a fragment. *)
Definition row_of (primary_doc : BlakeDoc) (fragment : MatchFragment)
  : csv_row :=
  [desc_id primary_doc; desc_id (frag_doc fragment); text_cleaned fragment].

(** [for fragment in match.fragments(): csvwriter.writerow(...)], from the
    generator of the match: each fragment is built when the loop asks for
    it, so the rows of the fragments before a failing one are written. *)
Fixpoint write_fragments (primary_doc doc : BlakeDoc)
    (rest : list fragment_list) : written :=
  match rest with
  | [] => ([], None)
  | fl :: rest' =>
      match MatchFragment_init doc fl with
      | Raise e => ([], Some e)
      | Return fragment =>
          let '(rows, o) := write_fragments primary_doc doc rest' in
          (row_of primary_doc fragment :: rows, o)
      end
  end.

(** The truth value of what [excluded] returns. *)
Definition truthy (v : value) : bool :=
  match v with
  | VBool b => b
  | VNone => false
  end.

(** [matrix_csv_path and match.excluded()]: [excluded] is called only when
    a path was given. *)
Definition skipped (exclusions : exclusions_attr) (use_matrix : bool)
    (m : SuperfastDocmatch) : result bool :=
  if use_matrix then v ← excluded exclusions m; Return (truthy v)
  else Return false.

(** [for match in primary_doc.matches(): ...]. [matches] builds each match
    from its row when the loop asks for it, looking the matching document
    up through the module's [API]. *)
Fixpoint write_matches (API : SuperfastAPI) (exclusions : exclusions_attr)
    (use_matrix : bool) (primary_doc : BlakeDoc) (rows : list Row)
  : written :=
  match rows with
  | [] => ([], None)
  | row :: rows' =>
      match SuperfastDocmatch_init API primary_doc (Some row) None with
      | Raise e => ([], Some e)
      | Return m =>
          match skipped exclusions use_matrix m with
          | Raise e => ([], Some e)
          | Return true => write_matches API exclusions use_matrix
                             primary_doc rows'
          | Return false =>
              match fragments m with
              | Raise e => ([], Some e)
              | Return g =>
                  match write_fragments primary_doc (gen_doc g) (gen_rest g)
                  with
                  | (w, Some e) => (w, Some e)
                  | (w, None) =>
                      let '(w', o) := write_matches API exclusions use_matrix
                                        primary_doc rows' in
                      (w ++ w', o)
                  end
              end
          end
      end
  end.

(** [for primary_doc in iterator: ...]. [stop] is the exception that ends
    the iterator after its documents, if one does (a lookup of [documents]
    that fails). *)
Fixpoint write_docs (API : SuperfastAPI) (exclusions : exclusions_attr)
    (use_matrix : bool) (docs : list BlakeDoc) (stop : option exn)
  : written :=
  match docs with
  | [] => ([], stop)
  | primary_doc :: docs' =>
      match write_matches API exclusions use_matrix primary_doc
              (documents_rows primary_doc) with
      | (w, Some e) => (w, Some e)
      | (w, None) =>
          let '(w', o) := write_docs API exclusions use_matrix docs' stop in
          (w ++ w', o)
      end
  end.

(** What [export_fragments] does: nothing when the relation table cannot be
    read ([FileNotFoundError], raised before the output file is opened), or
    the rows written to the output file and the exception that ended the
    export, if one did. *)
Inductive outcome : Type :=
  | NotOpened
  | Wrote (rows : list csv_row) (e : option exn).

(** [iterator or self.documents()]: a list with no document is falsy. *)
Definition documents_of (self_documents : list BlakeDoc * option exn)
    (iterator : option (list BlakeDoc)) : list BlakeDoc * option exn :=
  match iterator with
  | Some (d :: ds) => (d :: ds, None)
  | Some [] => self_documents
  | None => self_documents
  end.

(** [BlakeSuperfast.export_fragments]. [self_documents] is what
    [self.documents()] yields (and the exception that ends it, if one
    does); [matrix_csv] is the relation table: [None] without a path,
    [Some None] when the file of the path does not exist, the rows of the
    file otherwise. The result is the class attribute
    [SuperfastDocmatch.exclusions] afterwards, and the outcome. The output
    file itself can be opened for writing. *)
Definition export_fragments (API : SuperfastAPI)
    (exclusions : exclusions_attr)
    (self_documents : list BlakeDoc * option exn)
    (iterator : option (list BlakeDoc))
    (matrix_csv : option (option (list (str * str))))
  : exclusions_attr * outcome :=
  let iterator := documents_of self_documents iterator in
  match matrix_csv with
  | Some None => (exclusions, NotOpened)
  | Some (Some table) =>
      let exclusions := Some (Some (load_relations table)) in
      let '(rows, o) := write_docs API exclusions true iterator.1 iterator.2 in
      (exclusions, Wrote (header :: rows) o)
  | None =>
      let '(rows, o) := write_docs API exclusions false iterator.1 iterator.2 in
      (exclusions, Wrote (header :: rows) o)
  end.

(** Either document lists the other in its entry of the index. *)
Definition listed (d : matrices_t) (a b : BlakeDoc) : bool :=
  bool_decide (desc_id b ∈ get_or_empty d (desc_id a))
  || bool_decide (desc_id a ∈ get_or_empty d (desc_id b)).

(** The matches that an export with the relation table [matrix_csv] leaves
    out. *)
Definition left_out (matrix_csv : option (list (str * str)))
    (a b : BlakeDoc) : bool :=
  match matrix_csv with
  | Some table => listed (load_relations table) a b
  | None => false
  end.

(** The row of a fragment descriptor with offsets [pos]. *)
Definition fragment_row (primary_doc doc : BlakeDoc) (pos : Z * Z)
  : csv_row :=
  [desc_id primary_doc; desc_id doc;
   replace_char NL (py "<br>") (fragment doc pos.1 pos.2)].

(** The rows of a match, with [counterpart] for the documents that the
    rows of the record name and [pos] for the offsets of the descriptors:
    none when the match is left out, one for each fragment descriptor
    otherwise. *)
Definition match_rows (matrix_csv : option (list (str * str)))
    (counterpart : Row → BlakeDoc) (pos : fragment_list → Z * Z)
    (primary_doc : BlakeDoc) (row : Row) : list csv_row :=
  if left_out matrix_csv primary_doc (counterpart row) then []
  else (λ fl, fragment_row primary_doc (counterpart row) (pos fl))
         <$> row_fragments row.

(** The rows of all matches of all documents. *)
Definition export_rows (matrix_csv : option (list (str * str)))
    (counterpart : Row → BlakeDoc) (pos : fragment_list → Z * Z)
    (docs : list BlakeDoc) : list csv_row :=
  flat_map (λ primary_doc,
              flat_map (match_rows matrix_csv counterpart pos primary_doc)
                (documents_rows primary_doc)) docs.

(** The class attribute after an export. *)
Definition exclusions_after (exclusions : exclusions_attr)
    (matrix_csv : option (list (str * str))) : exclusions_attr :=
  match matrix_csv with
  | Some table => Some (Some (load_relations table))
  | None => exclusions
  end.

(** A row of the output comes from a fragment descriptor of a match of one
    of the documents, a match that the relation table does not leave out. *)
Definition row_from (API : SuperfastAPI)
    (matrix_csv : option (list (str * str))) (docs : list BlakeDoc)
    (r : csv_row) : Prop :=
  ∃ primary_doc row doc fl pos,
    primary_doc ∈ docs
    ∧ row ∈ documents_rows primary_doc
    ∧ BlakeDoc_init API (row_doctype row) (row_docid row) None = Return doc
    ∧ left_out matrix_csv primary_doc doc = false
    ∧ fl ∈ row_fragments row
    ∧ offsets fl = Some pos
    ∧ r = fragment_row primary_doc doc pos.

(** A document with two matches, and a service for their lookups. *)
Definition json_b : DocJson :=
  {| j_title := py "vda.b.illbk.07.txt";
     j_text := py "of discontent!" ++ [NL] ++ py "and in what";
     j_doctype := 1; j_docid := 200; j_rows := [] |}.

Definition api1 : SuperfastAPI :=
  {| get_document := λ doctype docid,
       if (doctype =? 1) && (docid =? 199) then Return json_g
       else if (doctype =? 1) && (docid =? 200) then Return json_b
       else Raise (HTTPError 404) |}.

Definition row_b : Row :=
  {| row_doctype := 1; row_docid := 200;
     row_fragments := [[JInt 15; JInt 0; JInt 26; JInt 1]] |}.

Definition doc_h : BlakeDoc :=
  BlakeDoc_of_json
    {| j_title := py "vda.h.illbk.07.txt";
       j_text := py "Wave shadows of discontent! and in what";
       j_doctype := 1; j_docid := 89; j_rows := [row_g; row_b] |}.

Definition table_g : list (str * str) :=
  [(py "vda.g.illbk.07", py "vda.h.illbk.07,vda.a.illbk.07");
   (py "vda.c.illbk.07", [])].

Definition positions (fl : fragment_list) : Z * Z :=
  default (0, 0) (offsets fl).

Definition counterpart1 (row : Row) : BlakeDoc :=
  BlakeDoc_of_json (if row_docid row =? 199 then json_g else json_b).

End FragmentExport.

(** *** The text of an object, again; the file of an object *)

Module BlakeXmlMore.
Import BlakeXml.

(** [XMLObject.text] on the tree in any state: the state it leaves, and the
    text. The lines are selected in the tree as it is at the call. *)
Definition text_from (st : tree_state) (xml : Element) : tree_state * str :=
  let r := foldl text_turn (st, []) (xpath_phystext_l st xml) in
  (r.1, rstrip r.2).

(** [n] lies below [p] in the tree. *)
Definition below (p n : path) : Prop := ∃ q, q ≠ [] ∧ n = p ++ q.

(** No selected line lies below another one. *)
Definition lines_apart (xml : Element) : Prop :=
  ∀ l1 l2,
    l1 ∈ xpath_phystext_l parsed xml → l2 ∈ xpath_phystext_l parsed xml →
    l1.1 `prefix_of` l2.1 → l1.1 = l2.1.

(** An [XMLObject]: the node of the object and the value of its attribute
    [id]. *)
Record XMLObject : Type := mkObject {
  xml : Element;
  desc_id : str
}.

Definition SLASH : N := 47%N.

(** [os.path.join(a, b)] of [posixpath]. *)
Definition os_path_join (a b : str) : str :=
  if bool_decide (head b = Some SLASH) then b
  else if bool_decide (a = []) || bool_decide (last a = Some SLASH)
       then a ++ b
       else a ++ [SLASH] ++ b.

(** [os.path.basename(p)]: what follows the last slash. *)
Definition basename (p : str) : str := default [] (last (split SLASH p)).

(** [XMLObject.write_text]: the path of the file and what is written to it.
    [os.path.join] raises [TypeError] for [None], the default of [path]. The
    file itself can be opened for writing. *)
Definition write_text (self : XMLObject) (path : option str)
  : result (str * str) :=
  let filename := desc_id self ++ py ".txt" in
  match path with
  | None =>
      Raise (TypeError
               "expected str, bytes or os.PathLike object, not NoneType")
  | Some path =>
      Return (os_path_join path filename, XMLObject_text (xml self))
  end.

(** A line in a line, the inner one with a [space]. *)
Definition line_nested : Element :=
  l_ (txt "a") [l_ (txt "b") [space_ (txt "c")] None] None.

(** An object whose lines are not below a [phystext] child. *)
Definition desc_elsewhere : Element :=
  Elem (py "desc") None
    [line_jehovah;
     Elem (py "objinfo") None [Elem (py "phystext") None [line_jehovah] None]
       None]
    None.

Definition object_h : XMLObject :=
  {| xml := desc_ [line_jehovah; line_note_inside];
     desc_id := py "vda.h.illbk.07" |}.

End BlakeXmlMore.

(** *** From the markup to the export *)

Module Pipeline.
Import Superfast.

(** The document of an object whose text in the service is the text that
    [write_text] wrote to the object's file. *)
Definition doc_of_object (o : BlakeXmlMore.XMLObject) : BlakeDoc :=
  BlakeDoc_of_json
    {| j_title := BlakeXmlMore.desc_id o ++ py ".txt";
       j_text := BlakeXml.XMLObject_text (BlakeXmlMore.xml o);
       j_doctype := 1; j_docid := 89; j_rows := [] |}.

End Pipeline.

(** ** Facts about the Python operations *)

Module PyFacts.

Lemma elem_of_rev {A} (x : A) (l : list A) : x ∈ rev l ↔ x ∈ l.
Proof. rewrite !list_elem_of_In. symmetry. apply in_rev. Qed.

(** *** Slices *)

Lemma slice_nonneg {A} (s : list A) (lo hi : Z) :
  0 ≤ lo → lo ≤ hi →
  slice s lo hi = take (Z.to_nat (hi - lo)) (drop (Z.to_nat lo) s).
Proof.
  intros Hlo Hhi. unfold slice, adjust_index.
  set (len := Z.of_nat (length s)).
  assert (Hlen : len = Z.of_nat (length s)) by done.
  destruct (Z.ltb_spec lo 0); [lia|].
  destruct (Z.ltb_spec hi 0); [lia|].
  destruct (Z.leb_spec len lo), (Z.leb_spec len hi); try lia.
  - rewrite !drop_ge by lia. by rewrite !take_nil.
  - rewrite (take_ge _ (Z.to_nat (hi - lo))); [|rewrite length_drop; lia].
    rewrite take_ge; [done|rewrite length_drop; lia].
  - done.
Qed.

Lemma slice_past_end {A} (s : list A) (lo hi : Z) :
  Z.of_nat (length s) ≤ lo → slice s lo hi = [].
Proof.
  intros Hlo. unfold slice, adjust_index.
  destruct (Z.ltb_spec lo 0); [lia|].
  destruct (Z.leb_spec (Z.of_nat (length s)) lo); [|lia].
  rewrite drop_ge by lia. apply take_nil.
Qed.

Lemma slice_crossed {A} (s : list A) (lo hi : Z) :
  0 ≤ lo → hi ≤ lo → 0 ≤ hi → slice s lo hi = [].
Proof.
  intros Hlo Hhi H0. unfold slice, adjust_index.
  destruct (Z.ltb_spec lo 0); [lia|].
  destruct (Z.ltb_spec hi 0); [lia|].
  destruct (Z.leb_spec (Z.of_nat (length s)) lo),
    (Z.leb_spec (Z.of_nat (length s)) hi);
    replace (Z.to_nat _) with 0%nat at 1 by lia; done.
Qed.

Lemma slice_length_le {A} (s : list A) (lo hi : Z) :
  (length (slice s lo hi) ≤ length s)%nat.
Proof.
  unfold slice. rewrite length_take, length_drop. lia.
Qed.

Lemma all_but_last_snoc {A} (l : list A) (x : A) :
  all_but_last (l ++ [x]) = l.
Proof.
  unfold all_but_last, slice, adjust_index.
  rewrite length_app. simpl.
  destruct (Z.ltb_spec 0 0); [lia|].
  destruct (Z.leb_spec (Z.of_nat (length l + 1)) 0); [lia|].
  destruct (Z.ltb_spec (-1) 0); [|lia].
  destruct (Z.ltb_spec (-1 + Z.of_nat (length l + 1)) 0); [lia|].
  replace (Z.to_nat (_ - _)) with (length l) by lia.
  change (Z.to_nat 0) with 0%nat. rewrite drop_0.
  by rewrite take_app_length.
Qed.

Lemma all_but_last_nil {A} : all_but_last (@nil A) = [].
Proof. done. Qed.

(** *** [split] and [join] *)

Lemma split_on_nonempty sep cur s : split_on sep cur s ≠ [].
Proof.
  revert cur. induction s as [|c s IH]; intros cur; simpl; [done|].
  destruct (N.eqb c sep); [done|apply IH].
Qed.

Lemma join_cons sep x l :
  l ≠ [] → join sep (x :: l) = x ++ sep ++ join sep l.
Proof. by destruct l. Qed.

Lemma join_snoc sep l x :
  l ≠ [] → join sep (l ++ [x]) = join sep l ++ sep ++ x.
Proof.
  induction l as [|y l IH]; [done|]. intros _.
  destruct l as [|z l]; [done|].
  change ((y :: z :: l) ++ [x]) with (y :: ((z :: l) ++ [x])).
  rewrite join_cons by done. rewrite IH by done.
  rewrite (join_cons _ y) by done. by rewrite <- !app_assoc.
Qed.

(** Joining the segments with the separator gives the string back. *)
Lemma join_split_on sep cur s :
  join [sep] (split_on sep cur s) = rev cur ++ s.
Proof.
  revert cur. induction s as [|c s IH]; intros cur; simpl.
  - by rewrite app_nil_r.
  - destruct (N.eqb_spec c sep) as [->|Hne].
    + rewrite join_cons by apply split_on_nonempty.
      by rewrite IH.
    + rewrite IH. simpl. by rewrite <- app_assoc.
Qed.

Lemma join_split sep s : join [sep] (split sep s) = s.
Proof. apply join_split_on. Qed.

(** No segment contains the separator. *)
Lemma split_on_no_sep sep cur s :
  sep ∉ cur → Forall (λ seg, sep ∉ seg) (split_on sep cur s).
Proof.
  revert cur. induction s as [|c s IH]; intros cur Hcur; simpl.
  - constructor; [|done]. by rewrite elem_of_rev.
  - destruct (N.eqb_spec c sep) as [->|Hne].
    + constructor; [by rewrite elem_of_rev|]. apply IH. apply not_elem_of_nil.
    + apply IH. rewrite not_elem_of_cons. split; [congruence|done].
Qed.

Lemma split_no_sep sep s : Forall (λ seg, sep ∉ seg) (split sep s).
Proof. apply split_on_no_sep, not_elem_of_nil. Qed.

(** There is one segment more than there are separators. *)
Lemma split_on_length sep cur s :
  length (split_on sep cur s) = S (length (List.filter (N.eqb sep) s)).
Proof.
  revert cur. induction s as [|c s IH]; intros cur; simpl; [done|].
  rewrite (N.eqb_sym sep c).
  destruct (N.eqb c sep); simpl; by rewrite IH.
Qed.

Lemma split_snoc sep s :
  ∃ segs lst, split sep s = segs ++ [lst].
Proof.
  destruct (split sep s) as [|x l] eqn:E using rev_ind.
  - by apply split_on_nonempty in E.
  - eauto.
Qed.

(** *** Stripping whitespace *)

Lemma lstrip_head s :
  lstrip s = [] ∨ ∃ c r, lstrip s = c :: r ∧ nonws c.
Proof.
  induction s as [|c s IH]; simpl; [by left|].
  destruct (isspace c) eqn:E; [done|]. right. by exists c, s.
Qed.

Lemma lstrip_nonws c s : nonws c → lstrip (c :: s) = c :: s.
Proof. unfold nonws. simpl. by intros ->. Qed.

Lemma lstrip_app s t :
  Exists nonws s → lstrip (s ++ t) = lstrip s ++ t.
Proof.
  induction s as [|c s IH]; intros H; [by apply Exists_nil in H|].
  simpl. destruct (isspace c) eqn:E; [|done].
  apply IH. apply Exists_cons in H as [H|H]; [|done].
  unfold nonws in H. congruence.
Qed.

Lemma lstrip_all_nonws s : Forall nonws s → lstrip s = s.
Proof. destruct 1 as [|c s Hc _]; [done|by apply lstrip_nonws]. Qed.

Lemma rstrip_app s t :
  Exists nonws t → rstrip (s ++ t) = s ++ rstrip t.
Proof.
  intros H. unfold rstrip. rewrite rev_app_distr.
  rewrite lstrip_app.
  - by rewrite rev_app_distr, rev_involutive.
  - apply Exists_exists in H as (c & Hc & Hn). apply Exists_exists.
    exists c. by rewrite elem_of_rev.
Qed.

Lemma rstrip_snoc_ws s c : isspace c = true → rstrip (s ++ [c]) = rstrip s.
Proof.
  intros H. unfold rstrip. rewrite rev_app_distr. simpl. by rewrite H.
Qed.

Lemma rstrip_snoc_nonws s c : nonws c → rstrip (s ++ [c]) = s ++ [c].
Proof.
  intros H. unfold rstrip. rewrite rev_app_distr. simpl.
  rewrite H. simpl. by rewrite rev_involutive.
Qed.

Lemma rstrip_all_nonws s : Forall nonws s → rstrip s = s.
Proof.
  intros H. unfold rstrip. rewrite lstrip_all_nonws.
  - apply rev_involutive.
  - apply Forall_forall. intros c Hc. rewrite elem_of_rev in Hc.
    by eapply Forall_forall in H.
Qed.

(** A right-stripped string is empty or ends with a character that is not
    whitespace. *)
Lemma rstrip_last s :
  rstrip s = [] ∨ ∃ r c, rstrip s = r ++ [c] ∧ nonws c.
Proof.
  unfold rstrip. destruct (lstrip_head (rev s)) as [->|(c & r & -> & Hc)].
  - by left.
  - right. exists (rev r), c. by simpl.
Qed.

Lemma strip_all_nonws s : Forall nonws s → strip s = s.
Proof.
  intros H. unfold strip. rewrite lstrip_all_nonws by done.
  by apply rstrip_all_nonws.
Qed.

(** *** Reading integers back from their numerals *)

Lemma is_digit_nonws c : is_digit c → nonws c.
Proof.
  intros [H1 H2]. unfold nonws, isspace.
  rewrite (proj2 (N.leb_gt c 13)), (proj2 (N.leb_gt c 32)),
    (proj2 (N.leb_gt 8192 c)) by lia.
  rewrite !(proj2 (N.eqb_neq c _)) by lia.
  by rewrite !andb_false_r.
Qed.

Lemma digit_val_digit (d : N) :
  (d < 10)%N → digit_val (48 + d) = Some (Z.of_N d).
Proof.
  intros H. unfold digit_val.
  destruct (N.leb_spec 48 (48 + d)); [|lia].
  destruct (N.leb_spec (48 + d) 57); [|lia].
  simpl. f_equal. lia.
Qed.

Lemma digits_of_digits fuel n acc :
  Forall is_digit acc → Forall is_digit (digits_of fuel n acc).
Proof.
  revert n acc. induction fuel as [|fuel IH]; intros n acc Hacc; [done|].
  cbn [digits_of].
  assert (Hd : is_digit (48 + n mod 10)).
  { assert (n mod 10 < 10)%N by (apply N.mod_lt; lia).
    unfold is_digit. generalize dependent (n mod 10)%N. intros; lia. }
  destruct (n <? 10)%N; [by constructor|].
  apply IH. by constructor.
Qed.

(** Reading the digits of [n] continues the number read so far. *)
Lemma parse_digits_digits_of fuel n acc a b :
  (0 < fuel)%nat → (n < 2 ^ N.of_nat fuel)%N →
  ∃ k : Z, 0 ≤ k ∧
    parse_digits a b (digits_of fuel n acc)
    = parse_digits (a * 10 ^ k + Z.of_N n) true acc.
Proof.
  revert n acc a b. induction fuel as [|fuel IH]; intros n acc a b Hf Hn; [lia|].
  cbn [digits_of].
  assert (Hm : (n mod 10 < 10)%N) by (apply N.mod_lt; lia).
  destruct (N.ltb_spec n 10) as [Hlt|Hge].
  - exists 1. split; [lia|]. cbn [parse_digits].
    rewrite digit_val_digit by done.
    rewrite N.mod_small by done. f_equal. lia.
  - assert (Hdiv : (n = 10 * (n / 10) + n mod 10)%N) by (apply N.div_mod; lia).
    revert Hm Hdiv. generalize (n mod 10)%N (n / 10)%N. intros d q Hm Hdiv.
    assert (Hq : (1 ≤ q)%N) by lia.
    assert (Hq2 : (q < 2 ^ N.of_nat fuel)%N).
    { rewrite Nat2N.inj_succ, N.pow_succ_r' in Hn. lia. }
    destruct fuel as [|fuel']; [simpl in Hq2; lia|].
    destruct (IH q ((48 + d)%N :: acc) a b) as (k & Hk & ->); [lia|done|].
    exists (k + 1). split; [lia|]. cbn [parse_digits].
    rewrite digit_val_digit by done. f_equal.
    rewrite Z.pow_add_r by lia. lia.
Qed.

Lemma parse_digits_str_of_N n :
  parse_digits 0 false (str_of_N n) = Some (Z.of_N n).
Proof.
  unfold str_of_N.
  destruct (parse_digits_digits_of (S (N.to_nat (N.size n))) n [] 0 false)
    as (k & _ & ->); [lia| |done].
  rewrite Nat2N.inj_succ, N2Nat.id, N.pow_succ_r'.
  pose proof (N.size_gt n). lia.
Qed.

Lemma str_of_N_digits n : Forall is_digit (str_of_N n).
Proof. apply digits_of_digits. constructor. Qed.

Lemma str_of_N_cons n : ∃ c ds, str_of_N n = c :: ds ∧ is_digit c.
Proof.
  pose proof (str_of_N_digits n) as H.
  pose proof (parse_digits_str_of_N n) as Hp.
  destruct (str_of_N n) as [|c ds]; [done|].
  exists c, ds. split; [done|]. by apply Forall_cons in H as [? _].
Qed.

(** [int] reads the decimal numeral of [z] as [z]. *)
Lemma int_str_of_Z z : int (JText (str_of_Z z)) = Return z.
Proof.
  unfold int, parse_int.
  assert (Hpos : ∀ n, (let t := strip (str_of_N n) in
     match t with
     | [] => None
     | c :: ds =>
         if (c =? 45)%N then Z.opp <$> parse_digits 0 false ds
         else if (c =? 43)%N then parse_digits 0 false ds
         else parse_digits 0 false (c :: ds)
     end) = Some (Z.of_N n)).
  { intros n. cbv zeta.
    rewrite strip_all_nonws
      by (eapply Forall_impl; [apply str_of_N_digits|apply is_digit_nonws]).
    pose proof (parse_digits_str_of_N n) as Hp.
    destruct (str_of_N_cons n) as (c & ds & E & [H1 H2]). rewrite E in *.
    destruct (N.eqb_spec c 45); [lia|]. destruct (N.eqb_spec c 43); [lia|].
    done. }
  destruct z as [|p|p]; unfold str_of_Z.
  - specialize (Hpos 0%N). cbv zeta in Hpos. by rewrite Hpos.
  - specialize (Hpos (Npos p)). cbv zeta in Hpos. by rewrite Hpos.
  - rewrite strip_all_nonws.
    + rewrite N.eqb_refl. rewrite parse_digits_str_of_N. done.
    + constructor; [done|].
      eapply Forall_impl; [apply str_of_N_digits|apply is_digit_nonws].
Qed.

End PyFacts.

(** ** Properties of blake_superfast.py *)

Module SuperfastSpec.
Import Superfast PyFacts.

(** *** The fragment locator *)

(** C2: [fragment(begin, length)] is exactly the slice
    [text[begin : begin+length]] and never fails. For offsets that are not
    negative the slice is the [length] characters that follow the first
    [begin] ones, cut off at the end of the text; inside the text it has
    [length] characters, the ones at [begin], [begin+1], ...; it is empty
    when [begin] is at or past the end, or when [length] is not positive
    and [begin+length] not negative. *)
Theorem fragment_is_slice (doc : BlakeDoc) (start len : Z) :
  fragment doc start len = slice (text doc) start (start + len)
  ∧ (0 ≤ start → 0 ≤ len →
       fragment doc start len
       = take (Z.to_nat len) (drop (Z.to_nat start) (text doc)))
  ∧ (0 ≤ start → 0 ≤ len → start + len ≤ Z.of_nat (length (text doc)) →
       length (fragment doc start len) = Z.to_nat len
       ∧ ∀ i, (i < Z.to_nat len)%nat →
           fragment doc start len !! i = text doc !! (Z.to_nat start + i)%nat)
  ∧ (Z.of_nat (length (text doc)) ≤ start → fragment doc start len = [])
  ∧ (0 ≤ start + len → len ≤ 0 → fragment doc start len = []).
Proof.
  unfold fragment. split; [done|].
  assert (Hnn : 0 ≤ start → 0 ≤ len →
     slice (text doc) start (start + len)
     = take (Z.to_nat len) (drop (Z.to_nat start) (text doc))).
  { intros Hs Hl. rewrite slice_nonneg by lia. do 2 f_equal. lia. }
  split; [done|]. split; [|split].
  - intros Hs Hl Hin. rewrite Hnn by done. split.
    + rewrite length_take, length_drop. lia.
    + intros i Hi. rewrite lookup_take_lt by done. by rewrite lookup_drop.
  - apply slice_past_end.
  - intros Hs Hl. apply slice_crossed; lia.
Qed.

Lemma fragment_is_slice_witness : fragment doc001 5 7 = py "shadows".
Proof.
  destruct (fragment_is_slice doc001 5 7) as (_ & H & _).
  rewrite H; [reflexivity|lia|lia].
Defined.

(** *** Titles *)

Lemma desc_id_of_json j : desc_id (BlakeDoc_of_json j) = (parse_title (j_title j)).1.
Proof. unfold BlakeDoc_of_json. by destruct (parse_title _) as [? [[[? ?] ?] ?]]. Qed.

Lemma components_of_json j :
  (work (BlakeDoc_of_json j), copy (BlakeDoc_of_json j),
   form (BlakeDoc_of_json j), page (BlakeDoc_of_json j))
  = (parse_title (j_title j)).2.
Proof. unfold BlakeDoc_of_json. by destruct (parse_title _) as [? [[[? ?] ?] ?]]. Qed.

Lemma title_of_json j : title (BlakeDoc_of_json j) = j_title j.
Proof. unfold BlakeDoc_of_json. by destruct (parse_title _) as [? [[[? ?] ?] ?]]. Qed.

(** C6: the title is its dot-delimited segments joined by dots; [desc_id] is
    the title without its last segment (and without the dot before it);
    with exactly five segments [work], [copy], [form] and [page] are the
    first four, with any other number all four are [None]. *)
Theorem parse_title_segments (j : DocJson) :
  let d := BlakeDoc_of_json j in
  ∃ segs lst,
    split DOT (title d) = segs ++ [lst]
    ∧ Forall (λ seg, DOT ∉ seg) (segs ++ [lst])
    ∧ title d = join [DOT] (segs ++ [lst])
    ∧ desc_id d = join [DOT] segs
    ∧ (segs ≠ [] → title d = desc_id d ++ [DOT] ++ lst)
    ∧ (length (segs ++ [lst]) = 5%nat →
         ∃ w c f p, segs = [w; c; f; p]
           ∧ (work d, copy d, form d, page d) = (Some w, Some c, Some f, Some p))
    ∧ (length (segs ++ [lst]) ≠ 5%nat →
         (work d, copy d, form d, page d) = (None, None, None, None)).
Proof.
  cbv zeta. rewrite title_of_json, desc_id_of_json, components_of_json.
  set (t := j_title j).
  destruct (split_snoc DOT t) as (segs & lst & E).
  exists segs, lst. split; [done|].
  split; [rewrite <- E; apply split_no_sep|].
  split; [by rewrite <- E, join_split|].
  assert (Hd : (parse_title t).1 = join [DOT] segs).
  { unfold parse_title. rewrite E, all_but_last_snoc.
    by destruct (unpack5 _) as [[[[[? ?] ?] ?] ?]|[]]. }
  split; [done|]. split; [|split].
  - intros Hne. rewrite Hd, <- join_snoc by done. by rewrite <- E, join_split.
  - intros Hlen. unfold parse_title. rewrite E.
    rewrite length_app in Hlen.
    destruct segs as [|w [|c [|f [|p [|? ?]]]]]; simpl in Hlen; try lia.
    by exists w, c, f, p.
  - intros Hlen. unfold parse_title. rewrite E.
    rewrite length_app in Hlen.
    destruct segs as [|w [|c [|f [|p [|q qs]]]]]; simpl in Hlen; try lia;
      try done.
    by destruct qs.
Qed.

Lemma parse_title_segments_witness :
  desc_id doc001 = py "vda.h.illbk.07"
  ∧ (work doc001, copy doc001, form doc001, page doc001)
    = (Some (py "vda"), Some (py "h"), Some (py "illbk"), Some (py "07")).
Proof.
  destruct (parse_title_segments
              {| j_title := py "vda.h.illbk.07.txt";
                 j_text := py "Wave shadows of discontent! and in what";
                 j_doctype := 1; j_docid := 89; j_rows := [] |})
    as (segs & lst & E & _ & _ & Hd & _ & H5 & _).
  assert (Es : segs = [py "vda"; py "h"; py "illbk"; py "07"]).
  { change ([py "vda"; py "h"; py "illbk"; py "07"] ++ [py "txt"]
            = segs ++ [lst]) in E.
    by apply app_inj_tail in E as [<- _]. }
  split.
  - unfold doc001, doc_titled. rewrite Hd, Es. reflexivity.
  - destruct H5 as (w & c & f & p & E4 & Hc).
    + rewrite Es. reflexivity.
    + unfold doc001, doc_titled. rewrite Hc. rewrite Es in E4. by simplify_eq.
Defined.

(** *** The matrix exclusion index *)

(** [same_matrix] never raises, and answers [True] exactly when the first
    document is listed in the entry of the second one. *)
Lemma same_matrix_iff (matrices : matrices_t) (doc otherdoc : BlakeDoc) :
  ∃ b, same_matrix matrices doc otherdoc = Return b
       ∧ (b = true ↔ ∃ l, matrices !! desc_id otherdoc = Some l
                          ∧ desc_id doc ∈ l).
Proof.
  unfold same_matrix, contains.
  destruct (matrices !! desc_id otherdoc) as [l|].
  - destruct (bool_decide (desc_id doc ∈ l)) eqn:E.
    + exists true. split; [done|]. split; [|done]. intros _.
      exists l. split; [done|]. by apply bool_decide_eq_true in E.
    + exists false. split; [done|]. split; [done|].
      intros (l' & [= <-] & Hin). by apply bool_decide_eq_false in E.
  - exists false. split; [done|]. split; [done|]. by intros (? & ? & _).
Qed.

Lemma same_matrix_absent (matrices : matrices_t) (doc otherdoc : BlakeDoc) :
  matrices !! desc_id otherdoc = None →
  same_matrix matrices doc otherdoc = Return false.
Proof. intros H. unfold same_matrix. by rewrite H. Qed.

(** C1, on the relation table with the one row [a: b,c]: the index has the
    entry of [a] only, and [same_matrix] looks into the entry of its second
    argument only. So it answers [True] for [(b, a)] and [(c, a)], and
    [False] for [(a, b)], where the two-way check of [excluded] finds the
    pair. *)
Theorem same_matrix_one_direction :
  let matrices := load_relations [(py "a", py "b,c")] in
  matrices = {[ py "a" := [py "b"; py "c"] ]}
  ∧ same_matrix matrices doc_b doc_a = Return true
  ∧ same_matrix matrices doc_a doc_b = Return false
  ∧ same_matrix matrices doc_b doc_c = Return false
  ∧ excluded (Some (Some matrices))
      {| primary_doc := doc_a; matching_doc := doc_b; data := None |}
    = Return (VBool true).
Proof.
  cbv zeta. split; [|split; [|split; [|split]]]; vm_compute; reflexivity.
Qed.

(** *** Exclusion of a match *)

Lemma elem_of_get_or_empty (d : matrices_t) (k x : str) :
  x ∈ get_or_empty d k ↔ ∃ l, d !! k = Some l ∧ x ∈ l.
Proof.
  unfold get_or_empty. destruct (d !! k) as [l|]; simpl.
  - split; [by exists l|]. by intros (? & [= <-] & ?).
  - split; [by intros ?%not_elem_of_nil|]. by intros (? & ? & _).
Qed.

(** C3, amended: with an index attached that has at least one entry,
    [excluded] raises nothing and its result is [True] exactly when one of
    the two documents is listed in the entry of the other; an index attached
    without any entry makes it raise the [ValueError] of a missing index. *)
Theorem excluded_with_index (d : matrices_t) (self : SuperfastDocmatch) :
  (d ≠ ∅ →
     ∃ v, excluded (Some (Some d)) self = Return v
          ∧ (v = VBool true ↔ listed_either_way d self))
  ∧ (d = ∅ →
     excluded (Some (Some d)) self
     = Raise (ValueError "no matrix values are present")).
Proof.
  unfold excluded, falsy. split; intros Hd.
  - rewrite bool_decide_eq_false_2 by done.
    match goal with |- context [bool_decide ?P || bool_decide ?Q] =>
      destruct (decide P) as [HP|HP], (decide Q) as [HQ|HQ];
      rewrite ?(bool_decide_eq_true_2 P), ?(bool_decide_eq_false_2 P),
        ?(bool_decide_eq_true_2 Q), ?(bool_decide_eq_false_2 Q) by done
    end; simpl; eexists; (split; [done|]); unfold listed_either_way;
      rewrite <- !elem_of_get_or_empty; split; intros H; try done; tauto.
  - by rewrite bool_decide_eq_true_2.
Qed.

Lemma excluded_with_index_witness :
  ∃ v, excluded (Some (Some {[ py "a" := [py "b"; py "c"] ]}))
         {| primary_doc := doc_b; matching_doc := doc_a; data := None |}
       = Return v
     ∧ (v = VBool true ↔
        listed_either_way {[ py "a" := [py "b"; py "c"] ]}
          {| primary_doc := doc_b; matching_doc := doc_a; data := None |}).
Proof.
  apply (excluded_with_index {[ py "a" := [py "b"; py "c"] ]}).
  apply insert_non_empty.
Defined.

(** An index attached without any entry: [excluded] raises instead of
    answering [False]. *)
Lemma excluded_empty_index_raises :
  excluded (Some (Some ∅))
    {| primary_doc := doc_a; matching_doc := doc_b; data := None |}
  = Raise (ValueError "no matrix values are present")
  ∧ excluded (Some (Some ∅))
      {| primary_doc := doc_a; matching_doc := doc_b; data := None |}
    ≠ Return (VBool false).
Proof. split; [reflexivity|discriminate]. Qed.

(** C4: without an index, [excluded] raises and returns nothing: an
    [AttributeError] while the class attribute was never assigned, the
    [ValueError] of its guard when the attribute holds [None]. *)
Theorem excluded_without_index (self : SuperfastDocmatch) :
  excluded None self = Raise (AttributeError "exclusions")
  ∧ excluded (Some None) self
    = Raise (ValueError "no matrix values are present")
  ∧ (∀ v, excluded None self ≠ Return v)
  ∧ (∀ v, excluded (Some None) self ≠ Return v).
Proof. repeat split; done. Qed.

(** *** Construction of a match *)

(** C5: with neither a row nor a document [__init__] raises the
    [ValueError]; with a document only it succeeds; with a row only it looks
    the counterpart up and succeeds when the lookup does (an error of the
    lookup is the only one it can end with). *)
Theorem match_construction (api : SuperfastAPI) (primary : BlakeDoc) :
  SuperfastDocmatch_init api primary None None
  = Raise (ValueError "row_dct or match_doc must be supplied")
  ∧ (∀ d, SuperfastDocmatch_init api primary None (Some d)
          = Return {| primary_doc := primary; matching_doc := d;
                      data := None |})
  ∧ (∀ row j,
       get_document api (row_doctype row) (row_docid row) = Return j →
       SuperfastDocmatch_init api primary (Some row) None
       = Return {| primary_doc := primary;
                   matching_doc := BlakeDoc_of_json j; data := Some row |})
  ∧ (∀ row e,
       get_document api (row_doctype row) (row_docid row) = Raise e →
       SuperfastDocmatch_init api primary (Some row) None = Raise e).
Proof.
  split; [done|]. split; [done|].
  split; intros row j Hj; unfold SuperfastDocmatch_init, BlakeDoc_init;
    by rewrite Hj.
Qed.

Lemma match_construction_witness :
  SuperfastDocmatch_init api0 doc001 (Some row_g) None
  = Return {| primary_doc := doc001; matching_doc := BlakeDoc_of_json json_g;
              data := Some row_g |}.
Proof.
  destruct (match_construction api0 doc001) as (_ & _ & H & _).
  apply H. reflexivity.
Defined.

(** C10: with both a row and a document [__init__] succeeds, the counterpart
    is the document given, no lookup takes place and the row is not kept:
    [fragments] finds no [data] attribute. *)
Theorem match_both_supplied (api : SuperfastAPI) (primary : BlakeDoc)
    (row : Row) (d : BlakeDoc) :
  ∃ m, SuperfastDocmatch_init api primary (Some row) (Some d) = Return m
       ∧ primary_doc m = primary
       ∧ matching_doc m = d
       ∧ data m = None
       ∧ fragments m = Raise (AttributeError "data")
       ∧ SuperfastDocmatch_init api primary None (Some d) = Return m.
Proof. eexists. by repeat split. Qed.

(** *** The fragments of a match *)

Lemma MatchFragment_init_offsets doc fl b l :
  offsets fl = Some (b, l) →
  MatchFragment_init doc fl = Return (fragment_of doc fl b l).
Proof.
  unfold offsets, MatchFragment_init, index. intros H.
  destruct (fl !! 1%nat) as [x|]; [|done].
  destruct (fl !! 2%nat) as [y|]; [|done]. simpl.
  destruct (int x) as [b'|]; [|done]. simpl.
  destruct (int y) as [l'|]; [|done]. simpl. by simplify_eq.
Qed.

Lemma MatchFragment_init_inv doc fl f :
  MatchFragment_init doc fl = Return f →
  offsets fl = Some (frag_begin f, frag_length f)
  ∧ f = fragment_of doc fl (frag_begin f) (frag_length f).
Proof.
  unfold offsets, MatchFragment_init, index. intros H.
  destruct (fl !! 1%nat) as [x|]; [|done]. simpl in H.
  destruct (int x) as [b'|]; [|done]. simpl in H.
  destruct (fl !! 2%nat) as [y|]; [|done]. simpl in H.
  destruct (int y) as [l'|]; [|done]. simpl in H. by simplify_eq.
Qed.

(** Advancing the generator one step at a time gives what [list] collects. *)
Lemma to_list_next (g : generator) :
  to_list g
  = match next g with
    | None => Return []
    | Some (Return f, g') => fs ← to_list g'; Return (f :: fs)
    | Some (Raise e, _) => Raise e
    end.
Proof.
  unfold to_list, next. destruct (gen_rest g) as [|fl rest]; [done|].
  simpl. by destruct (MatchFragment_init (gen_doc g) fl).
Qed.

Lemma drain_offsets doc rest :
  Forall (λ fl, is_Some (offsets fl)) rest →
  ∃ fs, drain doc rest = Return fs
    ∧ length fs = length rest
    ∧ ∀ i fl, rest !! i = Some fl →
        ∃ b l, offsets fl = Some (b, l)
               ∧ fs !! i = Some (fragment_of doc fl b l).
Proof.
  induction 1 as [|fl rest [[b l] Hfl] _ (fs & Hfs & Hlen & Hnth)].
  - exists []. by repeat split.
  - exists (fragment_of doc fl b l :: fs). simpl.
    rewrite (MatchFragment_init_offsets _ _ _ _ Hfl), Hfs. simpl.
    split; [done|]. split; [by rewrite Hlen|].
    intros [|i] fl' Hi; simpl in Hi.
    + simplify_eq. by exists b, l.
    + by apply Hnth.
Qed.

(** C9: a match built from a row has the generator over the row's stored
    descriptor list and the counterpart; collecting it gives one fragment
    per descriptor, in the order of the list; each one has the integer read
    from item 1 as its start, the integer read from item 2 as its length and
    the counterpart's text at these offsets; offsets given as decimal text
    and as integers make the same fragment. [fragments] reads the stored
    list and leaves the match as it is, so every call starts over. *)
Theorem fragments_of_record (api : SuperfastAPI) (primary : BlakeDoc)
    (row : Row) (m : SuperfastDocmatch) :
  SuperfastDocmatch_init api primary (Some row) None = Return m →
  ∃ g, fragments m = Return g
    ∧ gen_doc g = matching_doc m
    ∧ gen_rest g = row_fragments row
    ∧ (Forall (λ fl, is_Some (offsets fl)) (row_fragments row) →
       ∃ fs, to_list g = Return fs
         ∧ length fs = length (row_fragments row)
         ∧ ∀ i fl, row_fragments row !! i = Some fl →
             ∃ b l, offsets fl = Some (b, l)
                    ∧ fs !! i = Some (fragment_of (matching_doc m) fl b l))
    ∧ (∀ doc p h b l,
         MatchFragment_init doc [p; JText (str_of_Z b); JText (str_of_Z l); h]
         = Return (fragment_of doc
                     [p; JText (str_of_Z b); JText (str_of_Z l); h] b l)
         ∧ MatchFragment_init doc [p; JInt b; JInt l; h]
           = Return (fragment_of doc [p; JInt b; JInt l; h] b l)).
Proof.
  unfold SuperfastDocmatch_init. intros Hm.
  destruct (BlakeDoc_init _ _ _ _) as [d|e]; [|done]. simpl in Hm.
  injection Hm as <-. eexists. split; [reflexivity|].
  cbn [gen_doc gen_rest matching_doc]. do 2 (split; [done|]). split.
  - apply drain_offsets.
  - intros doc p h b l. split; apply MatchFragment_init_offsets.
    + unfold offsets. cbn -[int]. by rewrite !int_str_of_Z.
    + done.
Qed.

Lemma fragments_of_record_witness :
  ∃ g fs, fragments match_g = Return g ∧ to_list g = Return fs
          ∧ length fs = 2%nat.
Proof.
  destruct (fragments_of_record api0 doc001 row_g match_g)
    as (g & Hg & _ & _ & Hl & _); [reflexivity|].
  destruct Hl as (fs & Hfs & Hlen & _).
  - repeat constructor; vm_compute; eauto.
  - by exists g, fs.
Defined.

(** The repository's tests [test_begin], [test_length], [test_begin_str],
    [test_length_str] and [test_short_title], on the model. *)
Example test_begin_length :
  MatchFragment_init doc001 [JInt 30; JInt 28; JInt 370; JInt 4200547186]
  = Return (fragment_of doc001
              [JInt 30; JInt 28; JInt 370; JInt 4200547186] 28 370)
  ∧ MatchFragment_init doc001
      [JInt 30; JText (py "28"); JText (py "370"); JInt 4200547186]
    = Return (fragment_of doc001
                [JInt 30; JText (py "28"); JText (py "370"); JInt 4200547186]
                28 370).
Proof. split; reflexivity. Qed.

Example test_short_title :
  parse_title (py "but518.wc.01.txt")
  = (py "but518.wc.01", (None, None, None, None)).
Proof. reflexivity. Qed.

Example fragments_of_match_g :
  (fragments match_g ≫= to_list)
  = Return [fragment_of (matching_doc match_g)
              [JInt 0; JInt 5; JInt 7; JInt 4200547186] 5 7;
            fragment_of (matching_doc match_g)
              [JInt 9; JText (py "16"); JText (py "10"); JInt 2671570340]
              16 10]
  ∧ fragment (matching_doc match_g) 5 7 = py "shadows"
  ∧ fragment (matching_doc match_g) 16 10 = py "discontent".
Proof. repeat split. Qed.

End SuperfastSpec.

(** ** The tree changed in place, and the lines as values *)

Module BlakeXmlFacts.
Import BlakeXml PyFacts.

Lemma Element_ind' (P : Element → Prop) :
  (∀ t x cs tl, Forall P cs → P (Elem t x cs tl)) → ∀ e, P e.
Proof.
  intros H. fix IH 1. intros [t x cs tl]. apply H.
  induction cs as [|c cs IHcs]; constructor; [apply IH|apply IHcs].
Qed.

(** *** The children that are still linked *)

Lemma elem_of_over_children {A} st p (f : path → Element → list A) i cs x :
  x ∈ over_children st p f i cs ↔
  ∃ k c, cs !! k = Some c ∧ (p ++ [(i + k)%nat] ∉ removed st)
         ∧ x ∈ f (p ++ [(i + k)%nat]) c.
Proof.
  revert i. induction cs as [|c cs IH]; intros i; cbn [over_children].
  - split; [by intros ?%not_elem_of_nil|]. by intros (k & c & ? & _).
  - rewrite elem_of_app, IH. split.
    + intros [H|(k & c' & Hk & Hr & Hx)].
      * destruct (decide _) as [|Hr]; [by apply not_elem_of_nil in H|].
        exists 0%nat, c. by rewrite Nat.add_0_r.
      * exists (S k), c'. by replace (i + S k)%nat with (S i + k)%nat by lia.
    + intros ([|k] & c' & Hk & Hr & Hx); simpl in Hk.
      * left. simplify_eq. rewrite Nat.add_0_r in *. by rewrite decide_False.
      * right. exists k, c'.
        by replace (S i + k)%nat with (i + S k)%nat by lia.
Qed.

Lemma over_children_flat_map {A} st p (f : path → Element → list A)
    (g : Element → list A) i cs :
  (∀ k c, cs !! k = Some c →
     (if decide (p ++ [i + k]%nat ∈ removed st) then []
      else f (p ++ [i + k]%nat) c) = g c) →
  over_children st p f i cs = flat_map g cs.
Proof.
  revert i. induction cs as [|c cs IH]; intros i H; [done|].
  cbn [over_children flat_map]. f_equal.
  - specialize (H 0%nat c eq_refl). by rewrite Nat.add_0_r in H.
  - apply IH. intros k c' Hk. specialize (H (S k) c' Hk).
    by replace (i + S k)%nat with (S i + k)%nat in H by lia.
Qed.

(** *** Positions *)

Lemma subtree_app e q1 q2 :
  subtree e (q1 ++ q2) = (subtree e q1 ≫= λ c, subtree c q2).
Proof.
  revert e. induction q1 as [|i q1 IH]; intros e; [done|]. simpl.
  destruct (children e !! i); [apply IH|done].
Qed.

Lemma subtree_snoc e q i c :
  subtree e q = Some c → subtree e (q ++ [i]) = children c !! i.
Proof.
  intros H. rewrite subtree_app, H. simpl. by destruct (children c !! i).
Qed.

Lemma elem_of_iterdescendants st p e n c :
  (n, c) ∈ iterdescendants st p e →
  ∃ q, q ≠ [] ∧ n = p ++ q ∧ subtree e q = Some c ∧ n ∉ removed st.
Proof.
  revert p n c. induction e as [t x cs tl IH] using Element_ind'.
  intros p n c. cbn [iterdescendants]. rewrite elem_of_over_children.
  intros (k & ck & Hk & Hr & Hx). simpl in Hr, Hx.
  apply elem_of_cons in Hx as [Hx|Hx].
  - simplify_eq. exists [k]. repeat split; [done| |done].
    simpl. by rewrite Hk.
  - rewrite Forall_forall in IH.
    destruct (IH ck (list_elem_of_lookup_2 _ _ _ Hk) _ _ _ Hx)
      as (q & Hq & -> & Hs & Hn).
    exists (k :: q). repeat split; [done|by rewrite <- app_assoc| |done].
    simpl. by rewrite Hk.
Qed.

Lemma iterdescendants_child st p e k c :
  children e !! k = Some c → p ++ [k] ∉ removed st →
  (p ++ [k], c) ∈ iterdescendants st p e
  ∧ ∀ x, x ∈ iterdescendants st (p ++ [k]) c → x ∈ iterdescendants st p e.
Proof.
  destruct e as [t x cs tl]. cbn [children iterdescendants]. intros Hk Hr.
  split; [|intros y Hy]; apply elem_of_over_children; exists k, c; simpl;
    (split; [done|]); (split; [done|]).
  - apply list_elem_of_here.
  - by apply list_elem_of_further.
Qed.

Lemma iterdescendants_mono st st' p e x :
  removed st ⊆ removed st' →
  x ∈ iterdescendants st' p e → x ∈ iterdescendants st p e.
Proof.
  intros Hsub. revert p x. induction e as [t y cs tl IH] using Element_ind'.
  intros p x. cbn [iterdescendants]. rewrite !elem_of_over_children.
  intros (k & c & Hk & Hr & Hx). exists k, c. split; [done|].
  split; [intros Hin; apply Hr; by apply Hsub|]. simpl in *.
  apply elem_of_cons in Hx. destruct Hx as [->|Hx]; [apply list_elem_of_here|].
  apply list_elem_of_further. rewrite Forall_forall in IH.
  by apply (IH c (list_elem_of_lookup_2 _ _ _ Hk)).
Qed.

(** *** Document order *)

Lemma StronglySorted_filter {A} (R : relation A) (P : A → Prop)
    `{∀ x, Decision (P x)} l :
  StronglySorted R l → StronglySorted R (filter P l).
Proof.
  induction 1 as [|x l Hl IH Hx]; [constructor|].
  rewrite filter_cons. destruct (decide (P x)); [|done].
  constructor; [done|]. rewrite Forall_forall in Hx |- *.
  intros y Hy. apply Hx. by apply list_elem_of_filter in Hy as [_ ?].
Qed.

Lemma snoc_prefix_neq (p q1 q2 : path) i j :
  i ≠ j → p ++ [i] `prefix_of` q1 → p ++ [j] `prefix_of` q2 →
  ¬ q2 `prefix_of` q1.
Proof.
  intros Hij [k1 ->] [k2 ->] [k3 H].
  rewrite <- !app_assoc in H. apply app_inv_head in H. simpl in H.
  by simplify_eq.
Qed.

Lemma over_children_sorted st p (f : path → Element → list (path * Element))
    i cs :
  (∀ q c, c ∈ cs → StronglySorted before (f q c)) →
  (∀ q c x, c ∈ cs → x ∈ f q c → q `prefix_of` x.1) →
  StronglySorted before (over_children st p f i cs)
  ∧ ∀ x, x ∈ over_children st p f i cs →
         ∃ j, (i ≤ j)%nat ∧ p ++ [j] `prefix_of` x.1.
Proof.
  intros Hs Hp. split.
  - revert i. induction cs as [|c cs IH]; intros i; [constructor|].
    cbn [over_children]. apply StronglySorted_app. split; [|split].
    + intros x y Hx Hy.
      destruct (decide _); [by apply not_elem_of_nil in Hx|].
      apply elem_of_over_children in Hy as (k & c' & Hk & _ & Hy).
      apply (snoc_prefix_neq p _ _ i (S i + k)); [lia| |].
      * apply (Hp _ c); [apply list_elem_of_here|done].
      * apply (Hp _ c'); [|done].
        apply list_elem_of_further. by eapply list_elem_of_lookup_2.
    + destruct (decide _); [constructor|]. apply Hs, list_elem_of_here.
    + apply IH.
      * intros q c' Hc'. apply Hs. by apply list_elem_of_further.
      * intros q c' x Hc'. apply Hp. by apply list_elem_of_further.
  - intros x (k & c & Hk & _ & Hx)%elem_of_over_children.
    exists (i + k)%nat. split; [lia|].
    apply (Hp _ c); [by eapply list_elem_of_lookup_2|done].
Qed.

Lemma iterdescendants_prefix st p e x :
  x ∈ iterdescendants st p e → p `prefix_of` x.1 ∧ x.1 ≠ p.
Proof.
  destruct x as [n c]. intros (q & Hq & -> & _)%elem_of_iterdescendants.
  split; [by exists q|]. simpl. intros H.
  rewrite <- (app_nil_r p) in H at 2. by apply app_inv_head in H.
Qed.

Lemma iterdescendants_sorted st p e :
  StronglySorted before (iterdescendants st p e).
Proof.
  revert p. induction e as [t x cs tl IH] using Element_ind'. intros p.
  cbn [iterdescendants]. rewrite Forall_forall in IH.
  apply over_children_sorted.
  - intros q c Hc. constructor; [by apply IH|].
    apply Forall_forall. intros y Hy. unfold before. simpl.
    apply iterdescendants_prefix in Hy as [[k ->] Hne]. intros [k' H].
    rewrite <- app_assoc in H. rewrite <- (app_nil_r q) in H at 1.
    apply app_inv_head in H. symmetry in H. apply app_eq_nil in H as [-> _].
    by rewrite app_nil_r in Hne.
  - intros q c y Hc [->|Hy]%elem_of_cons; [done|].
    by apply iterdescendants_prefix in Hy as [? _].
Qed.

Lemma xpath_sorted st xml :
  StronglySorted before (xpath_phystext_l st xml).
Proof.
  unfold xpath_phystext_l. apply over_children_sorted.
  - intros q c _. destruct (has_tag "phystext" c); [|constructor].
    apply StronglySorted_filter, iterdescendants_sorted.
  - intros q c y _ Hy. destruct (has_tag "phystext" c);
      [|by apply not_elem_of_nil in Hy].
    apply list_elem_of_filter in Hy as [_ Hy].
    by apply iterdescendants_prefix in Hy as [? _].
Qed.

(** *** The state of the tree after the two inner loops *)

Lemma foldl_remove st notes :
  (∀ n, n ∈ removed (foldl remove st notes) ↔
        n ∈ removed st ∨ ∃ c, (n, c) ∈ notes)
  ∧ space_text (foldl remove st notes) = space_text st.
Proof.
  revert st. induction notes as [|[m c] notes IH]; intros st.
  - simpl. split; [|done]. intros n. split; [by left|].
    by intros [?|[? ?%not_elem_of_nil]].
  - cbn [foldl]. destruct (IH (remove st (m, c))) as [IH1 ->].
    split; [|done]. intros n. rewrite IH1. cbn [remove removed fst].
    rewrite elem_of_union, elem_of_singleton. split.
    + intros [[->|Hn]|[c' Hc']].
      * right. exists c. apply list_elem_of_here.
      * by left.
      * right. exists c'. by apply list_elem_of_further.
    + intros [Hn|[c' [Hc'|Hc']%elem_of_cons]].
      * left. by right.
      * left. left. by simplify_eq.
      * right. by exists c'.
Qed.

Lemma foldl_set_text_space st spaces :
  removed (foldl set_text_space st spaces) = removed st
  ∧ ∀ n, n ∈ space_text (foldl set_text_space st spaces) ↔
         n ∈ space_text st ∨ ∃ c, (n, c) ∈ spaces.
Proof.
  revert st. induction spaces as [|[m c] spaces IH]; intros st.
  - simpl. split; [done|]. intros n. split; [by left|].
    by intros [?|[? ?%not_elem_of_nil]].
  - cbn [foldl]. destruct (IH (set_text_space st (m, c))) as [-> IH1].
    split; [done|]. intros n. rewrite IH1.
    cbn [set_text_space space_text fst].
    rewrite elem_of_union, elem_of_singleton. split.
    + intros [[->|Hn]|[c' Hc']].
      * right. exists c. apply list_elem_of_here.
      * by left.
      * right. exists c'. by apply list_elem_of_further.
    + intros [Hn|[c' [Hc'|Hc']%elem_of_cons]].
      * left. by right.
      * left. left. by simplify_eq.
      * right. by exists c'.
Qed.

(** *** Reading the texts of a tree with elements unlinked *)

Lemma tail_remove_notes e : tail (remove_notes e) = tail e.
Proof. by destruct e. Qed.

Lemma tag_remove_notes e : tag (remove_notes e) = tag e.
Proof. by destruct e. Qed.

Lemma has_tag_remove_notes name e :
  has_tag name (remove_notes e) = has_tag name e.
Proof. unfold has_tag. by rewrite tag_remove_notes. Qed.

Lemma flat_map_pruned {B} (g : Element → list B) (h : Element → Element) cs :
  flat_map g (flat_map (λ c, if has_tag "note" c then [] else [h c]) cs)
  = flat_map (λ c, if has_tag "note" c then [] else g (h c)) cs.
Proof.
  induction cs as [|c cs IH]; [done|]. cbn [flat_map].
  rewrite flat_map_app, IH. destruct (has_tag "note" c); [done|].
  simpl. by rewrite app_nil_r.
Qed.

Lemma notes_unlinked_child st p e k c :
  notes_unlinked st p e → children e !! k = Some c → p ++ [k] ∉ removed st →
  notes_unlinked st (p ++ [k]) c.
Proof.
  intros [HA HB] Hk Hr. split.
  - intros q c' Hq Hs Hin. apply (HA (k :: q) c'); [done| |].
    + simpl. by rewrite Hk.
    + by rewrite <- app_assoc in Hin.
  - intros x Hx. apply HB.
    by apply (proj2 (iterdescendants_child st p e k c Hk Hr)).
Qed.

Lemma notes_unlinked_case st p e k c :
  notes_unlinked st p e → children e !! k = Some c →
  (p ++ [k] ∈ removed st ∧ has_tag "note" c = true)
  ∨ ((p ++ [k] ∉ removed st) ∧ has_tag "note" c = false).
Proof.
  intros [HA HB] Hk. destruct (decide (p ++ [k] ∈ removed st)) as [Hr|Hr].
  - left. split; [done|]. apply (HA [k] c); [done| |done].
    simpl. by rewrite Hk.
  - right. split; [done|].
    apply (HB (p ++ [k], c)).
    apply (proj1 (iterdescendants_child st p e k c Hk Hr)).
Qed.

(** The children's part of [itertext], where no text was set. *)
Lemma itertext_children_pruned st p e :
  notes_unlinked st p e →
  (∀ q, q ≠ [] → p ++ q ∉ space_text st) →
  over_children st p (λ q c, itertext st q c ++ chunk (tail c)) 0%nat
    (children e)
  = flat_map (λ c, texts_of c ++ chunk (tail c)) (children (remove_notes e)).
Proof.
  revert p. induction e as [t x cs tl IH] using Element_ind'.
  intros p Hn HC. cbn [children remove_notes]. rewrite flat_map_pruned.
  apply over_children_flat_map. intros k c Hk. cbn [Nat.add].
  destruct (notes_unlinked_case st p _ k c Hn Hk) as [[Hr ->]|[Hr ->]].
  - by rewrite decide_True.
  - rewrite decide_False by done. rewrite tail_remove_notes. f_equal.
    rewrite Forall_forall in IH.
    specialize (IH c (list_elem_of_lookup_2 _ _ _ Hk) (p ++ [k])).
    destruct c as [t' x' cs' tl']. cbn [itertext remove_notes texts_of].
    rewrite decide_False.
    + f_equal. apply IH.
      * by apply (notes_unlinked_child st p (Elem t x cs tl) k).
      * intros q Hq. rewrite <- app_assoc. by apply HC.
    + rewrite <- (app_nil_r (p ++ [k])), <- app_assoc. by apply HC.
Qed.

(** [itertext] on a line after its two inner loops. *)
Lemma itertext_line st p e :
  notes_unlinked st p e →
  p ∉ space_text st →
  (∀ k c, children e !! k = Some c → p ++ [k] ∉ removed st →
          (p ++ [k] ∈ space_text st ↔ has_tag "space" c = true)) →
  (∀ k q, q ≠ [] → p ++ k :: q ∉ space_text st) →
  itertext st p e = texts_of (fill_spaces (remove_notes e)).
Proof.
  intros Hn Hp Hsp Hdeep. destruct e as [t x cs tl].
  cbn [itertext remove_notes fill_spaces texts_of tag text children tail].
  rewrite decide_False by done. f_equal.
  rewrite flat_map_concat_map, map_map, <- flat_map_concat_map.
  rewrite flat_map_pruned.
  apply over_children_flat_map. intros k c Hk. cbn [Nat.add].
  destruct (notes_unlinked_case st p _ k c Hn Hk) as [[Hr ->]|[Hr ->]].
  - by rewrite decide_True.
  - rewrite decide_False by done.
    pose proof (notes_unlinked_child st p _ k c Hn Hk Hr) as Hc.
    assert (Hch :
      over_children st (p ++ [k])
        (λ q c0, itertext st q c0 ++ chunk (tail c0)) 0%nat (children c)
      = flat_map (λ c0, texts_of c0 ++ chunk (tail c0))
                 (children (remove_notes c))).
    { apply itertext_children_pruned; [done|].
      intros q Hq. rewrite <- app_assoc. by apply Hdeep. }
    specialize (Hsp k c Hk Hr). unfold set_space_text.
    rewrite has_tag_remove_notes.
    destruct (has_tag "space" c) eqn:Es.
    + destruct c as [t' x' cs' tl']. cbn [itertext].
      rewrite decide_True by (by apply Hsp).
      cbn [texts_of tag tail children remove_notes] in *. by rewrite Hch.
    + destruct c as [t' x' cs' tl']. cbn [itertext].
      rewrite decide_False by (intros ?%Hsp; done).
      cbn [texts_of tag tail children remove_notes] in *. by rewrite Hch.
Qed.

(** *** One turn, and the loop *)

Lemma elem_of_findall_children st name p e x :
  x ∈ findall_children st name p e ↔
  ∃ k, x.1 = p ++ [k] ∧ children e !! k = Some x.2
       ∧ (p ++ [k] ∉ removed st) ∧ has_tag name x.2 = true.
Proof.
  unfold findall_children.
  rewrite list_elem_of_filter, elem_of_over_children. split.
  - intros (Ht & k & c & Hk & Hr & ->%list_elem_of_singleton). simpl in *.
    exists k. repeat split; try done. by destruct (has_tag name c).
  - intros (k & Hx & Hk & Hr & Ht). split; [by rewrite Ht|].
    exists k, x.2. repeat split; try done.
    apply list_elem_of_singleton. destruct x; simpl in *. by subst.
Qed.

Lemma elem_of_findall_descendants st name p e x :
  x ∈ findall_descendants st name p e ↔
  has_tag name x.2 = true ∧ x ∈ iterdescendants st p e.
Proof.
  unfold findall_descendants. rewrite list_elem_of_filter.
  by rewrite Is_true_true.
Qed.

Lemma line_turn_spec tree st p e :
  removed_notes tree st →
  (∀ x, x ∈ space_text st → ¬ p `prefix_of` x) →
  subtree tree p = Some e →
  (line_turn st (p, e)).2 = line_text e
  ∧ removed_notes tree (line_turn st (p, e)).1
  ∧ ∀ x, x ∈ space_text (line_turn st (p, e)).1 →
         x ∈ space_text st
         ∨ ∃ k c, x = p ++ [k] ∧ children e !! k = Some c
                  ∧ has_tag "space" c = true.
Proof.
  intros Hrem Hsp HT. unfold line_turn. cbn [fst snd].
  set (notes := findall_descendants st "note" p e).
  set (st1 := foldl remove st notes).
  set (spaces := findall_children st1 "space" p e).
  set (st2 := foldl set_text_space st1 spaces).
  destruct (foldl_remove st notes) as [R1 S1]. fold st1 in R1, S1.
  destruct (foldl_set_text_space st1 spaces) as [R2 S2]. fold st2 in R2, S2.
  assert (Hnotes : ∀ n, n ∈ removed st2 ↔
            n ∈ removed st ∨ ∃ c, (n, c) ∈ notes).
  { intros n. by rewrite R2, R1. }
  assert (Hspaces : ∀ x, x ∈ space_text st2 ↔
            x ∈ space_text st ∨ ∃ c, (x, c) ∈ spaces).
  { intros n. by rewrite S2, S1. }
  assert (Hsub : ∀ q, subtree tree (p ++ q) = subtree e q).
  { intros q. by rewrite subtree_app, HT. }
  assert (Hrem2 : removed_notes tree st2).
  { intros n [Hin|[c Hin]]%Hnotes; [by apply Hrem|].
    apply elem_of_findall_descendants in Hin as [Ht Hin]. simpl in Ht.
    apply elem_of_iterdescendants in Hin as (q & _ & -> & Hq & _).
    exists c. by rewrite Hsub. }
  assert (Hun : notes_unlinked st2 p e).
  { split.
    - intros q c Hq Hs Hin. destruct (Hrem2 _ Hin) as (c' & Hc' & Ht).
      rewrite Hsub, Hs in Hc'. by simplify_eq.
    - intros x Hx. destruct (has_tag "note" x.2) eqn:Ht; [exfalso|done].
      pose proof Hx as Hx2. destruct x as [n c].
      apply elem_of_iterdescendants in Hx2 as (_ & _ & _ & _ & Hlive).
      apply Hlive, Hnotes. right. exists c.
      apply elem_of_findall_descendants. split; [done|].
      apply (iterdescendants_mono st st2); [|done].
      intros m Hm. apply Hnotes. by left. }
  split; [|split; [done|]].
  - unfold line_text. f_equal. apply itertext_line; [done| | |].
    + intros [Hin|[c Hin]]%Hspaces.
      * by apply (Hsp p).
      * apply elem_of_findall_children in Hin as (k & Hk & _). simpl in Hk.
        rewrite <- (app_nil_r p) in Hk at 1. by apply app_inv_head in Hk.
    + intros k c Hk Hr. rewrite Hspaces. split.
      * intros [Hin|[c' Hin]].
        -- exfalso. apply (Hsp _ Hin). by exists [k].
        -- apply elem_of_findall_children in Hin as (k' & Hk' & Hc' & _ & Ht).
           simpl in *. apply app_inv_head in Hk'. by simplify_eq.
      * intros Ht. right. exists c. apply elem_of_findall_children.
        exists k. simpl. by rewrite <- R2.
    + intros k q Hq [Hin|[c Hin]]%Hspaces.
      * apply (Hsp _ Hin). by exists (k :: q).
      * apply elem_of_findall_children in Hin as (k' & Hk' & _). simpl in Hk'.
        apply app_inv_head in Hk'. by simplify_eq.
  - intros x [Hin|[c Hin]]%Hspaces; [by left|right].
    apply elem_of_findall_children in Hin as (k & Hk & Hc & _ & Ht).
    simpl in *. by exists k, c.
Qed.

Lemma prefix_snoc_inv (l1 l2 : path) k :
  l1 `prefix_of` l2 ++ [k] → l1 = l2 ++ [k] ∨ l1 `prefix_of` l2.
Proof.
  intros [q H]. destruct q as [|j q _] using rev_ind.
  - left. by rewrite app_nil_r in H.
  - right. rewrite app_assoc in H. apply app_inj_tail in H as [-> _].
    by exists q.
Qed.

(** The loop over the lines selected in [tree], from any state that the turns
    of earlier lines can have left. *)
Lemma text_loop tree lines :
  ∀ st acc,
    removed_notes tree st →
    (∀ x, x ∈ space_text st →
       (∃ c, subtree tree x = Some c ∧ has_tag "space" c = true)
       ∧ ∀ l, l ∈ lines → ¬ l.1 `prefix_of` x) →
    StronglySorted before lines →
    Forall (λ l, subtree tree l.1 = Some l.2 ∧ has_tag "l" l.2 = true) lines →
    (foldl text_turn (st, acc) lines).2 = foldl text_step acc lines.*2.
Proof.
  induction lines as [|[p e] lines IH]; intros st acc Hrem Hsp Hsort Hl;
    [done|].
  apply StronglySorted_cons in Hsort as [Hbefore Hsort].
  apply Forall_cons in Hl as [[HT Htag] Hl]. simpl in HT, Htag.
  destruct (line_turn_spec tree st p e) as (Htext & Hrem' & Hsp'); [done| |done|].
  { intros x Hx. destruct (Hsp x Hx) as [_ Hno].
    apply (Hno (p, e)), list_elem_of_here. }
  cbn [foldl fmap list_fmap]. unfold text_turn at 2. cbn [fst snd].
  destruct (line_turn st (p, e)) as [st' text]. simpl in Htext, Hrem', Hsp'.
  subst text. unfold text_step at 2. cbv zeta.
  assert (Hinv : ∀ x, x ∈ space_text st' →
     (∃ c, subtree tree x = Some c ∧ has_tag "space" c = true)
     ∧ ∀ l, l ∈ lines → ¬ l.1 `prefix_of` x).
  { intros x [Hx|(k & c & -> & Hk & Ht)]%Hsp'.
    - destruct (Hsp x Hx) as [Hc Hno]. split; [done|].
      intros l Hin. by apply Hno, list_elem_of_further.
    - split; [exists c; by rewrite (subtree_snoc _ _ _ _ HT)|].
      intros l Hin [Heq|Hpre]%prefix_snoc_inv.
      + rewrite Forall_forall in Hl. destruct (Hl l Hin) as [Hs Hlt].
        rewrite Heq, (subtree_snoc _ _ _ _ HT), Hk in Hs. simplify_eq.
        unfold has_tag in Ht, Hlt.
        apply bool_decide_eq_true in Ht, Hlt. by rewrite Ht in Hlt.
      + rewrite Forall_forall in Hbefore. by apply (Hbefore l Hin). }
  destruct (bool_decide (line_text e = [])); by apply IH.
Qed.

Lemma xpath_lines st xml :
  Forall (λ l, subtree xml l.1 = Some l.2 ∧ has_tag "l" l.2 = true)
         (xpath_phystext_l st xml).
Proof.
  apply Forall_forall. intros [n c].
  unfold xpath_phystext_l. rewrite elem_of_over_children.
  intros (k & ck & Hk & _ & Hx).
  destruct (has_tag "phystext" ck); [|by apply not_elem_of_nil in Hx].
  apply elem_of_findall_descendants in Hx as [Ht Hx].
  apply elem_of_iterdescendants in Hx as (q & _ & -> & Hq & _).
  split; [|done]. simpl. by rewrite Hk.
Qed.

(** [text] is the loop over the selected lines taken as values. *)
Theorem XMLObject_text_lines (xml : Element) :
  XMLObject_text xml = rstrip (foldl text_step [] (lines_of xml)).
Proof.
  unfold XMLObject_text, lines_of. f_equal.
  apply (text_loop xml).
  - by intros n ?%not_elem_of_empty.
  - by intros n ?%not_elem_of_empty.
  - apply xpath_sorted.
  - apply xpath_lines.
Qed.

End BlakeXmlFacts.

(** ** Properties of blake_xml.py *)

Module BlakeXmlSpec.
Import BlakeXml PyFacts BlakeXmlFacts.

(** *** Cleaning a line: [re.sub] then [strip] *)

Lemma lstrip_sub_ws b s :
  lstrip (sub_ws_from b s)
  = match lstrip s with
    | [] => []
    | c :: r => c :: sub_ws_from false r
    end.
Proof.
  revert b. induction s as [|c s IH]; intros b; [done|]. simpl.
  destruct (isspace c) eqn:E.
  - destruct b; simpl; [apply IH|]. by rewrite IH.
  - simpl. by rewrite E.
Qed.

Lemma words_from_lstrip s : words_from [] s = words_from [] (lstrip s).
Proof.
  induction s as [|c s IH]; [done|]. simpl.
  destruct (isspace c) eqn:E; [done|]. simpl. by rewrite E.
Qed.

Lemma words_from_nonempty c cur s : words_from (c :: cur) s ≠ [].
Proof.
  revert c cur. induction s as [|d s IH]; intros c cur; simpl; [done|].
  destruct (isspace d); [done|apply IH].
Qed.

(** The two states of the scan: after a character of a word ([cur] is that
    word so far), and inside a run of whitespace that follows a word. *)
Lemma rstrip_sub_ws_words s :
  (∀ c cur, nonws c →
     rstrip (rev (c :: cur) ++ sub_ws_from false s)
     = join [SP] (words_from (c :: cur) s))
  ∧ (∀ c cur, nonws c →
     rstrip (rev (c :: cur) ++ SP :: sub_ws_from true s)
     = rev (c :: cur) ++
       match words_from [] s with
       | [] => []
       | ws => SP :: join [SP] ws
       end).
Proof.
  induction s as [|d s [IH1 IH2]]; split; intros c cur Hc.
  - cbn [sub_ws_from words_from]. rewrite app_nil_r.
    cbn [rev]. by rewrite rstrip_snoc_nonws.
  - cbn [sub_ws_from words_from]. rewrite app_nil_r.
    change (rev (c :: cur) ++ [SP]) with ((rev cur ++ [c]) ++ [SP]).
    rewrite rstrip_snoc_ws by done. by rewrite rstrip_snoc_nonws.
  - cbn [sub_ws_from words_from]. destruct (isspace d) eqn:E.
    + rewrite IH2 by done.
      destruct (words_from [] s) as [|w ws] eqn:Ew; [by rewrite app_nil_r|].
      symmetry. by apply join_cons.
    + change (rev (c :: cur) ++ d :: sub_ws_from false s)
        with (rev (c :: cur) ++ [d] ++ sub_ws_from false s).
      rewrite app_assoc. change (rev (c :: cur) ++ [d]) with (rev (d :: c :: cur)).
      by apply IH1.
  - cbn [sub_ws_from words_from]. destruct (isspace d) eqn:E.
    + by apply IH2.
    + pose proof (IH1 d [] E) as H1. cbn [rev app] in H1.
      pose proof (words_from_nonempty d [] s) as Hne.
      destruct (words_from [d] s) as [|w ws] eqn:Ew; [done|].
      rewrite <- H1.
      change (rev (c :: cur) ++ SP :: d :: sub_ws_from false s)
        with (rev (c :: cur) ++ [SP] ++ (d :: sub_ws_from false s)).
      rewrite app_assoc, rstrip_app.
      * by rewrite <- app_assoc.
      * by apply Exists_cons_hd.
Qed.

(** A cleaned line is its words, separated by single spaces. *)
Lemma clean_words s : strip (re_sub_ws s) = join [SP] (words s).
Proof.
  unfold strip, re_sub_ws, words. rewrite lstrip_sub_ws, words_from_lstrip.
  destruct (lstrip_head s) as [->|(c & r & -> & Hc)]; [done|].
  cbn [words_from]. rewrite Hc.
  destruct (rstrip_sub_ws_words r) as [H _]. by apply (H c []).
Qed.

(** The words are not empty, contain no whitespace, and together are the
    characters of the text that are not whitespace. *)
Lemma words_from_spec cur s :
  Forall nonws cur →
  Forall (λ w, w ≠ [] ∧ Forall nonws w) (words_from cur s)
  ∧ concat (words_from cur s)
    = rev cur ++ List.filter (λ c, negb (isspace c)) s.
Proof.
  revert cur. induction s as [|c s IH]; intros cur Hcur.
  - cbn [words_from List.filter]. rewrite app_nil_r.
    destruct cur as [|d cur]; [by split|]. split; [|simpl; by rewrite app_nil_r].
    constructor; [|done]. split.
    + simpl. by destruct (rev cur).
    + apply Forall_forall. intros x Hx. rewrite elem_of_rev in Hx.
      by eapply Forall_forall in Hcur.
  - cbn [words_from List.filter]. destruct (isspace c) eqn:E; cbn [negb].
    + destruct (IH [] (Forall_nil_2 _)) as [IHa IHb].
      destruct cur as [|d cur]; [by split|]. split.
      * constructor; [|done]. split.
        -- simpl. by destruct (rev cur).
        -- apply Forall_forall. intros x Hx. rewrite elem_of_rev in Hx.
           by eapply Forall_forall in Hcur.
      * simpl. rewrite IHb. done.
    + destruct (IH (c :: cur)) as [IHa IHb]; [by constructor|].
      split; [done|]. rewrite IHb. simpl. by rewrite <- app_assoc.
Qed.

Lemma words_all_space s : Forall (λ c, isspace c = true) s → words s = [].
Proof.
  unfold words. induction 1 as [|c s Hc _ IH]; [done|].
  simpl. by rewrite Hc.
Qed.

(** *** The loop over the lines *)

Lemma foldl_text_step acc lines :
  foldl text_step acc lines
  = acc ++ concat ((λ t, strip (re_sub_ws t) ++ [NL]) <$>
                   filter (λ t, t ≠ []) (line_text <$> lines)).
Proof.
  revert acc. induction lines as [|l lines IH]; intros acc.
  - simpl. by rewrite app_nil_r.
  - cbn [foldl]. rewrite IH. unfold text_step.
    rewrite fmap_cons, filter_cons.
    destruct (decide (line_text l = [])) as [E|E].
    + rewrite bool_decide_eq_true_2 by done.
      by destruct (decide (line_text l ≠ [])).
    + rewrite bool_decide_eq_false_2 by done.
      destruct (decide (line_text l ≠ [])); [|done].
      rewrite fmap_cons. cbn [concat]. by rewrite <- !app_assoc.
Qed.

(** A line with empty text leaves the transcription as it is. *)
Lemma text_turn_empty st acc line :
  (line_turn st line).2 = [] →
  (text_turn (st, acc) line).2 = acc.
Proof.
  intros H. unfold text_turn. cbn [fst snd].
  destruct (line_turn st line) as [st' text]. simpl in H. by subst.
Qed.

(** Any other line adds its words, separated by single spaces, and a
    newline. *)
Lemma text_turn_kept st acc line :
  (line_turn st line).2 ≠ [] →
  (text_turn (st, acc) line).2
  = acc ++ join [SP] (words (line_turn st line).2) ++ [NL].
Proof.
  intros H. unfold text_turn. cbn [fst snd].
  destruct (line_turn st line) as [st' text]. simpl in *.
  rewrite bool_decide_eq_false_2 by done. simpl. by rewrite clean_words.
Qed.

(** C7, amended: [text] is the kept lines, each one reduced to its words
    separated by single spaces and followed by a newline, with the trailing
    whitespace of the whole removed. A line is skipped exactly when its text
    is empty. The words of a line are its maximal runs of characters that
    are not whitespace. The result is empty or ends with a character that is
    not whitespace. A line of whitespace only is kept, as an empty line: of
    an object with such a line and the line [Jehovah<space/>What], the text
    is [Jehovah What] when the whitespace line comes last, and a newline
    followed by [Jehovah What] when it comes first; with a line of empty
    text instead, the text is [Jehovah What]. *)
Theorem text_of_lines (xml : Element) :
  XMLObject_text xml
  = rstrip (concat ((λ t, join [SP] (words t) ++ [NL]) <$> kept_texts xml))
  ∧ (∀ st acc line, (line_turn st line).2 = [] →
       (text_turn (st, acc) line).2 = acc)
  ∧ (∀ st acc line, (line_turn st line).2 ≠ [] →
       (text_turn (st, acc) line).2
       = acc ++ join [SP] (words (line_turn st line).2) ++ [NL])
  ∧ (∀ t, strip (re_sub_ws t) = join [SP] (words t)
          ∧ Forall (λ w, w ≠ [] ∧ Forall nonws w) (words t)
          ∧ concat (words t) = List.filter (λ c, negb (isspace c)) t)
  ∧ (XMLObject_text xml = [] ∨
     ∃ r c, XMLObject_text xml = r ++ [c] ∧ nonws c)
  ∧ XMLObject_text (desc_ [line_note_only; line_jehovah]) = py "Jehovah What"
  ∧ XMLObject_text (desc_ [line_jehovah; line_note_only]) = py "Jehovah What"
  ∧ (∀ ws, ws ≠ [] → Forall (λ c, isspace c = true) ws →
       XMLObject_text (desc_ [line_jehovah; line_of ws]) = py "Jehovah What"
       ∧ XMLObject_text (desc_ [line_of ws; line_jehovah])
         = NL :: py "Jehovah What").
Proof.
  split; [|split; [|split; [|split; [|split; [|split; [|split]]]]]].
  - rewrite XMLObject_text_lines. unfold kept_texts.
    rewrite foldl_text_step. cbn [app].
    f_equal. f_equal. apply list_fmap_ext. intros _ t _.
    by rewrite clean_words.
  - apply text_turn_empty.
  - apply text_turn_kept.
  - intros t. split; [apply clean_words|].
    destruct (words_from_spec [] t) as [H1 H2]; [done|]. by split.
  - apply rstrip_last.
  - vm_compute. reflexivity.
  - vm_compute. reflexivity.
  - intros ws Hne Hws.
    assert (Et : line_text (line_of ws) = ws).
    { destruct ws as [|c ws]; [done|]. unfold line_text. simpl.
      by rewrite app_nil_r. }
    assert (Ej : line_text line_jehovah = py "Jehovah What") by reflexivity.
    rewrite !XMLObject_text_lines.
    change (lines_of (desc_ [line_jehovah; line_of ws]))
      with [line_jehovah; line_of ws].
    change (lines_of (desc_ [line_of ws; line_jehovah]))
      with [line_of ws; line_jehovah].
    rewrite !foldl_text_step. cbn [fmap list_fmap].
    rewrite Et, Ej, !filter_cons, filter_nil.
    rewrite !decide_True by done. cbn [fmap list_fmap concat app].
    rewrite !clean_words, (words_all_space ws) by done.
    split; reflexivity.
Qed.

Lemma text_of_lines_witness :
  XMLObject_text (desc_ [line_jehovah; line_of (py "  ")]) = py "Jehovah What"
  ∧ XMLObject_text (desc_ [line_of (py "  "); line_jehovah])
    = NL :: py "Jehovah What".
Proof.
  destruct (text_of_lines (desc_ [])) as (_ & _ & _ & _ & _ & _ & _ & H).
  apply (H (py "  ")); [done|]. repeat constructor.
Defined.

(** An object with a line that is whitespace only once its note is removed,
    [<l> <note>...</note></l>], and the line [Jehovah<space/>What], in this
    order: the text starts with a newline. *)
Lemma text_whitespace_line_first :
  XMLObject_text (desc_ [line_blank_note; line_jehovah])
  = NL :: py "Jehovah What"
  ∧ XMLObject_text (desc_ [line_blank_note; line_jehovah])
    ≠ py "Jehovah What".
Proof. split; [vm_compute; reflexivity|]. vm_compute. discriminate. Qed.

(** *** Notes and spaces *)

(** After its turn, a line has no note left at any depth. *)
Lemma note_free_remove_notes e : note_free (remove_notes e) = true.
Proof.
  induction e as [t x cs tl IH] using Element_ind'.
  cbn [remove_notes note_free].
  induction IH as [|c cs Hc _ IHcs]; [done|].
  cbn [flat_map]. destruct (has_tag "note" c) eqn:E; [done|].
  cbn [app forallb]. by rewrite has_tag_remove_notes, E, Hc, IHcs.
Qed.

Lemma remove_notes_note_free e : note_free e = true → remove_notes e = e.
Proof.
  induction e as [t x cs tl IH] using Element_ind'.
  cbn [remove_notes note_free]. intros Hnf. f_equal.
  induction IH as [|c cs Hc _ IHcs]; [done|].
  cbn [forallb] in Hnf. apply andb_prop in Hnf as [Hn Hnf].
  apply andb_prop in Hn as [Hn1 Hn2]. apply negb_true_iff in Hn1.
  cbn [flat_map]. rewrite Hn1. cbn [app]. by rewrite Hc, IHcs.
Qed.

(** A line whose notes were unlinked already, in the turn of a line around
    it, has the same text. *)
Lemma line_text_remove_notes line :
  line_text (remove_notes line) = line_text line.
Proof.
  unfold line_text.
  by rewrite (remove_notes_note_free (remove_notes line))
    by apply note_free_remove_notes.
Qed.

(** In a line whose children are empty [space] elements, each of them
    yields one space, between the text of the line and the tails. *)
Lemma line_text_spaces x tails tl :
  line_text (Elem (py "l") x (space_ <$> tails) tl)
  = concat (chunk x ++ flat_map (λ t, [SP] :: chunk t) tails).
Proof.
  unfold line_text. f_equal.
  assert (E : remove_notes (Elem (py "l") x (space_ <$> tails) tl)
              = Elem (py "l") x (space_ <$> tails) tl).
  { apply remove_notes_note_free. cbn [note_free].
    induction tails as [|t tails IH]; [done|]. by rewrite fmap_cons. }
  rewrite E. clear E.
  cbn [fill_spaces texts_of tag text children tail]. f_equal.
  induction tails as [|t tails IH]; [done|].
  rewrite fmap_cons. cbn [map flat_map]. rewrite IH.
  by change (set_space_text (space_ t))
    with (Elem (py "space") (Some [SP]) [] t).
Qed.

(** C8, on the line [<l>Jehovah<note>etched</note> What Vengeance</l>]: the
    turn of the line unlinks the note, the text after the note goes with it
    as its tail, and the text of the line and of the object is [Jehovah]. *)
Theorem note_tail_dropped :
  let line := ([0; 0]%nat, line_note_inside) in
  xpath_phystext_l parsed (desc_ [line_note_inside]) = [line]
  ∧ removed (line_turn parsed line).1 = {[ [0; 0; 0]%nat ]}
  ∧ (line_turn parsed line).2 = py "Jehovah"
  ∧ XMLObject_text (desc_ [line_note_inside]) = py "Jehovah"
  ∧ XMLObject_text (desc_ [line_note_inside]) ≠ py "Jehovah What Vengeance".
Proof.
  cbv zeta. split; [reflexivity|]. split; [vm_compute; reflexivity|].
  split; [vm_compute; reflexivity|]. split; [vm_compute; reflexivity|].
  vm_compute. discriminate.
Qed.

End BlakeXmlSpec.

(** ** Properties of the rest of blake_superfast.py *)

Module SuperfastMoreSpec.
Import Superfast SuperfastMore PyFacts SuperfastSpec.

(** *** The relation table and the index *)

Lemma rows_for_cons k r rows :
  rows_for k (r :: rows)
  = if decide (r.1 = k ∧ r.2 ≠ []) then r :: rows_for k rows
    else rows_for k rows.
Proof. unfold rows_for. by rewrite filter_cons. Qed.

Lemma foldl_load_row (m : matrices_t) rows k :
  foldl load_row m rows !! k
  = match rows_for k rows with
    | [] => m !! k
    | _ => Some (default [] (m !! k) ++ listed_ids k rows)
    end.
Proof.
  revert m. induction rows as [|r rows IH]; intros m; [done|].
  cbn [foldl]. rewrite IH. unfold listed_ids. rewrite rows_for_cons.
  unfold load_row.
  destruct (decide (r.2 = [])) as [E2|E2].
  - rewrite bool_decide_eq_true_2 by done.
    rewrite decide_False by (by intros [_ ?]). done.
  - rewrite bool_decide_eq_false_2 by done.
    destruct (decide (r.1 = k)) as [E1|E1].
    + rewrite decide_True by done. subst k.
      assert (Hm : ∀ v, (match m !! r.1 with
                        | Some l => <[r.1:=l ++ v]> m
                        | None => <[r.1:=v]> m
                        end) !! r.1 = Some (default [] (m !! r.1) ++ v)).
      { intros v. destruct (m !! r.1); by rewrite lookup_insert_eq. }
      rewrite Hm. rewrite fmap_cons. cbn [concat default].
      destruct (rows_for r.1 rows); simpl; [by rewrite app_nil_r|].
      by rewrite <- app_assoc.
    + rewrite decide_False by (by intros [? _]).
      assert (Hm : ∀ v, (match m !! r.1 with
                        | Some l => <[r.1:=l ++ v]> m
                        | None => <[r.1:=v]> m
                        end) !! k = m !! k).
      { intros v. destruct (m !! r.1); by rewrite lookup_insert_ne. }
      by rewrite Hm.
Qed.

Lemma listed_ids_nonempty k rows : rows_for k rows ≠ [] → listed_ids k rows ≠ [].
Proof.
  unfold listed_ids. destruct (rows_for k rows) as [|r rs]; [done|].
  intros _. rewrite fmap_cons. cbn [concat]. unfold split.
  pose proof (split_on_nonempty COMMA [] r.2).
  by destruct (split_on COMMA [] r.2).
Qed.

Lemma load_relations_lookup_aux (rows : list (str * str)) (k : str) :
  load_relations rows !! k
  = match rows_for k rows with
    | [] => None
    | _ => Some (listed_ids k rows)
    end.
Proof.
  unfold load_relations.
  rewrite foldl_load_row, lookup_empty. by destruct (rows_for k rows).
Qed.

(** X1: the index that [load_relations] builds has an entry for a
    descriptor id exactly when the table has a row of that id with a list
    that is not empty; the entry is then the ids of all these rows, in the
    order of the table and with their repetitions, and never the empty
    list. *)
Theorem load_relations_lookup (rows : list (str * str)) (k : str) :
  load_relations rows !! k
  = match rows_for k rows with
    | [] => None
    | _ => Some (listed_ids k rows)
    end
  ∧ (load_relations rows !! k = None ↔
     ∀ r, r ∈ rows → r.1 = k → r.2 = [])
  ∧ load_relations rows !! k ≠ Some [].
Proof.
  assert (E : load_relations rows !! k
              = match rows_for k rows with
                | [] => None
                | _ => Some (listed_ids k rows)
                end).
  { apply load_relations_lookup_aux. }
  split; [done|]. split.
  - rewrite E. split.
    + intros Hn r Hr Hk. destruct (decide (r.2 = [])) as [|Hne]; [done|].
      assert (Hin : r ∈ rows_for k rows)
        by (by apply list_elem_of_filter).
      destruct (rows_for k rows); [by apply not_elem_of_nil in Hin|done].
    + intros Hall. destruct (rows_for k rows) as [|r rs] eqn:Er; [done|].
      assert (Hin : r ∈ rows_for k rows) by (rewrite Er; apply list_elem_of_here).
      apply list_elem_of_filter in Hin as [[Hk Hne] Hin].
      by specialize (Hall r Hin Hk).
  - rewrite E. pose proof (listed_ids_nonempty k rows) as Hne.
    destruct (rows_for k rows); [done|]. intros [= H]. by apply Hne.
Qed.

Lemma elem_of_concat {A} (x : A) (ls : list (list A)) :
  x ∈ concat ls ↔ ∃ l, l ∈ ls ∧ x ∈ l.
Proof.
  induction ls as [|l ls IH]; cbn [concat].
  - split; [by intros ?%not_elem_of_nil|]. by intros (? & ?%not_elem_of_nil & _).
  - rewrite elem_of_app, IH. split.
    + intros [H|(l' & H1 & H2)]; [exists l|exists l'];
        (split; [|done]); [apply list_elem_of_here|by apply list_elem_of_further].
    + intros (l' & [->|H1]%elem_of_cons & H2); [by left|right; by exists l'].
Qed.

(** X2: on the index loaded from a relation table, [same_matrix(doc,
    otherdoc)] raises nothing, and answers [True] exactly when a row of
    [otherdoc]'s id lists [doc]'s id among its comma-separated ids (rows
    with an empty list are not read). *)
Theorem same_matrix_loaded (rows : list (str * str)) (doc otherdoc : BlakeDoc) :
  ∃ b, same_matrix (load_relations rows) doc otherdoc = Return b
       ∧ (b = true ↔
          ∃ r, r ∈ rows ∧ r.1 = desc_id otherdoc ∧ r.2 ≠ []
               ∧ desc_id doc ∈ split COMMA r.2).
Proof.
  destruct (same_matrix_iff (load_relations rows) doc otherdoc)
    as (b & Hb & Hiff).
  exists b. split; [done|]. rewrite Hiff.
  rewrite load_relations_lookup_aux. unfold listed_ids. split.
  - intros (l & Hl & Hin).
    destruct (rows_for (desc_id otherdoc) rows) as [|r0 rs] eqn:Er; [done|].
    apply (inj Some) in Hl. subst l.
    apply elem_of_concat in Hin as (l & Hl & Hin).
    apply list_elem_of_fmap in Hl as (r & -> & Hr).
    rewrite <- Er in Hr. apply list_elem_of_filter in Hr as [[H1 H2] Hr].
    by exists r.
  - intros (r & Hr & H1 & H2 & Hin).
    assert (Hrf : r ∈ rows_for (desc_id otherdoc) rows)
      by (by apply list_elem_of_filter).
    destruct (rows_for (desc_id otherdoc) rows) as [|r0 rs] eqn:Er;
      [by apply not_elem_of_nil in Hrf|].
    eexists. split; [done|]. apply elem_of_concat.
    exists (split COMMA r.2). split; [|done].
    apply list_elem_of_fmap. by exists r.
Qed.

(** *** Exclusion *)

(** X3: [excluded] does not depend on which of the two documents is the
    primary one: with the documents exchanged it returns, or raises, the
    same. *)
Theorem excluded_symmetric (exclusions : exclusions_attr) (a b : BlakeDoc)
    (d1 d2 : option Row) :
  excluded exclusions {| primary_doc := a; matching_doc := b; data := d1 |}
  = excluded exclusions {| primary_doc := b; matching_doc := a; data := d2 |}.
Proof.
  unfold excluded. destruct exclusions as [[d|]|]; [|done|done].
  destruct (falsy (Some d)); [done|]. cbn [primary_doc matching_doc].
  by rewrite orb_comm.
Qed.

(** X4: whatever dict is attached, [excluded] returns [True] exactly when
    [same_matrix] on that dict answers [True] for the two documents in one
    order or the other. *)
Theorem excluded_same_matrix (d : matrices_t) (self : SuperfastDocmatch) :
  excluded (Some (Some d)) self = Return (VBool true) ↔
  same_matrix d (primary_doc self) (matching_doc self) = Return true
  ∨ same_matrix d (matching_doc self) (primary_doc self) = Return true.
Proof.
  assert (Hs : ∀ x y, same_matrix d x y = Return true ↔
                      desc_id x ∈ get_or_empty d (desc_id y)).
  { intros x y. rewrite elem_of_get_or_empty.
    destruct (same_matrix_iff d x y) as (b & Hb & Hiff). rewrite Hb, <- Hiff.
    split; [by intros [= ->]|by intros ->]. }
  rewrite !Hs. unfold excluded, falsy.
  destruct (decide (d = ∅)) as [->|Hd].
  - rewrite bool_decide_eq_true_2 by done. unfold get_or_empty.
    rewrite !lookup_empty. simpl. split; [done|].
    by intros [?%not_elem_of_nil|?%not_elem_of_nil].
  - rewrite bool_decide_eq_false_2 by done.
    match goal with |- context [bool_decide ?P || bool_decide ?Q] =>
      destruct (decide P) as [HP|HP], (decide Q) as [HQ|HQ];
      rewrite ?(bool_decide_eq_true_2 P), ?(bool_decide_eq_false_2 P),
        ?(bool_decide_eq_true_2 Q), ?(bool_decide_eq_false_2 Q) by done
    end; simpl; split; try done; try tauto.
Qed.

(** *** Fragments *)

Lemma adjust_index_range len i :
  0 ≤ len → 0 ≤ adjust_index len i ≤ len.
Proof.
  intros H. unfold adjust_index.
  destruct (Z.ltb_spec i 0); [destruct (Z.ltb_spec (i + len) 0)|
                              destruct (Z.leb_spec len i)]; lia.
Qed.

Lemma adjust_index_diff len lo hi :
  0 ≤ len → lo ≤ hi →
  adjust_index len hi - adjust_index len lo ≤ hi - lo.
Proof.
  intros H Hle. unfold adjust_index.
  destruct (Z.ltb_spec lo 0); [destruct (Z.ltb_spec (lo + len) 0)|
                               destruct (Z.leb_spec len lo)];
  (destruct (Z.ltb_spec hi 0); [destruct (Z.ltb_spec (hi + len) 0)|
                                destruct (Z.leb_spec len hi)]); lia.
Qed.

(** X5: a fragment is never longer than the text, and for a length that is
    not negative never longer than that length, whatever the start. A
    negative length does not always give the empty string: when the stop
    [begin + length] is negative it counts from the end of the text, so from
    a start that is not negative the fragment is the one of length
    [length + len(text)]. *)
Theorem fragment_length_bound (doc : BlakeDoc) (begin len : Z) :
  (length (fragment doc begin len) ≤ length (text doc))%nat
  ∧ (0 ≤ len → (length (fragment doc begin len) ≤ Z.to_nat len)%nat)
  ∧ (0 ≤ begin → - Z.of_nat (length (text doc)) ≤ begin + len < 0 →
     fragment doc begin len
     = fragment doc begin (len + Z.of_nat (length (text doc)))).
Proof.
  unfold fragment, slice.
  pose proof (adjust_index_range (Z.of_nat (length (text doc))) begin).
  split; [|split].
  - rewrite length_take, length_drop. lia.
  - intros Hl. rewrite length_take, length_drop.
    pose proof (adjust_index_diff (Z.of_nat (length (text doc))) begin
                  (begin + len)). lia.
  - intros Hb Hs. do 2 f_equal. f_equal. unfold adjust_index.
    destruct (Z.ltb_spec (begin + len) 0); [|lia].
    destruct (Z.ltb_spec (begin + len + Z.of_nat (length (text doc))) 0);
      [lia|].
    destruct (Z.ltb_spec (begin + (len + Z.of_nat (length (text doc)))) 0);
      [lia|].
    destruct (Z.leb_spec (Z.of_nat (length (text doc)))
                (begin + (len + Z.of_nat (length (text doc))))); lia.
Qed.

Lemma fragment_length_bound_witness :
  (length (fragment doc001 5 7) ≤ 7)%nat
  ∧ fragment doc001 5 (-7) = fragment doc001 5 32.
Proof.
  destruct (fragment_length_bound doc001 5 7) as (_ & H1 & _).
  destruct (fragment_length_bound doc001 5 (-7)) as (_ & _ & H2).
  split; [apply H1; lia|]. apply H2; [lia|].
  split; [vm_compute; discriminate|lia].
Defined.

(** X6: for offsets that are not negative, the fragment of length [l1] at
    [begin] followed by the fragment of length [l2] at [begin + l1] is the
    fragment of length [l1 + l2] at [begin], also across the end of the
    text. *)
Theorem fragment_adjacent (doc : BlakeDoc) (begin l1 l2 : Z) :
  0 ≤ begin → 0 ≤ l1 → 0 ≤ l2 →
  fragment doc begin l1 ++ fragment doc (begin + l1) l2
  = fragment doc begin (l1 + l2).
Proof.
  intros Hb H1 H2. unfold fragment. rewrite !slice_nonneg by lia.
  replace (Z.to_nat (begin + l1)) with (Z.to_nat begin + Z.to_nat l1)%nat
    by lia.
  rewrite <- drop_drop.
  replace (Z.to_nat (begin + l1 - begin)) with (Z.to_nat l1) by lia.
  replace (Z.to_nat (begin + l1 + l2 - (begin + l1))) with (Z.to_nat l2)
    by lia.
  replace (Z.to_nat (begin + (l1 + l2) - begin))
    with (Z.to_nat l1 + Z.to_nat l2)%nat by lia.
  apply take_take_drop.
Qed.

Lemma fragment_adjacent_witness :
  fragment doc001 5 7 ++ fragment doc001 12 30 = fragment doc001 5 37.
Proof. apply (fragment_adjacent doc001 5 7 30); lia. Defined.

Lemma int_error v e :
  int v = Raise e → e = ValueError "invalid literal for int() with base 10".
Proof.
  destruct v as [z|t]; [done|]. simpl. destruct (parse_int t); [done|].
  by intros [= <-].
Qed.

(** X8: [MatchFragment] is built exactly when the descriptor has items 1
    and 2 and both read as integers. Otherwise the constructor raises, and
    only [IndexError] (an item is missing) or [ValueError] (an item is not a
    numeral): a descriptor with fewer than two items gives [IndexError],
    and an item 1 that is not a numeral gives [ValueError] before item 2 is
    looked at. *)
Theorem MatchFragment_init_outcome (doc : BlakeDoc) (fl : fragment_list) :
  (∀ f, MatchFragment_init doc fl = Return f ↔
        ∃ b l, offsets fl = Some (b, l) ∧ f = fragment_of doc fl b l)
  ∧ (∀ e, MatchFragment_init doc fl = Raise e →
          offsets fl = None
          ∧ (e = IndexError "list index out of range"
             ∨ e = ValueError "invalid literal for int() with base 10"))
  ∧ ((length fl ≤ 1)%nat →
     MatchFragment_init doc fl = Raise (IndexError "list index out of range"))
  ∧ (∀ b e, fl !! 1%nat = Some b → int b = Raise e →
            MatchFragment_init doc fl = Raise e).
Proof.
  split; [|split; [|split]].
  - intros f. split.
    + intros H. apply MatchFragment_init_inv in H as [H1 H2]. eauto.
    + intros (b & l & H & ->). by apply MatchFragment_init_offsets.
  - unfold MatchFragment_init, offsets, index. intros e.
    destruct (fl !! 1%nat) as [b|]; simpl; [|intros [= <-]; by eauto].
    destruct (int b) as [z|e1] eqn:Eb; simpl;
      [|intros [= <-]; apply int_error in Eb; subst;
        destruct (fl !! 2%nat); by eauto].
    destruct (fl !! 2%nat) as [l|]; simpl; [|intros [= <-]; by eauto].
    destruct (int l) as [z2|e2] eqn:El; simpl; [done|].
    intros [= <-]. apply int_error in El. subst. by eauto.
  - intros Hlen. unfold MatchFragment_init, index.
    rewrite (lookup_ge_None_2 fl 1) by lia. done.
  - intros b e Hb He. unfold MatchFragment_init, index.
    rewrite Hb. simpl. by rewrite He.
Qed.

Lemma MatchFragment_init_outcome_witness :
  MatchFragment_init doc001 [JInt 30]
  = Raise (IndexError "list index out of range")
  ∧ MatchFragment_init doc001 [JInt 30; JText (py "x")]
    = Raise (ValueError "invalid literal for int() with base 10").
Proof.
  split.
  - destruct (MatchFragment_init_outcome doc001 [JInt 30]) as (_ & _ & H & _).
    apply H. simpl. lia.
  - destruct (MatchFragment_init_outcome doc001 [JInt 30; JText (py "x")])
      as (_ & _ & _ & H).
    apply (H (JText (py "x"))); reflexivity.
Defined.

(** X9: when a descriptor of the stored list makes [MatchFragment] raise,
    the generator of [fragments] yields the fragments of the descriptors
    before it, then raises that error, and is exhausted afterwards: the
    descriptors after the bad one are never read, and [list] of the
    generator raises the same error. *)
Theorem generator_stops_at_error (doc : BlakeDoc)
    (good : list fragment_list) (bad : fragment_list)
    (more : list fragment_list) (e : exn) :
  Forall (λ fl, is_Some (offsets fl)) good →
  MatchFragment_init doc bad = Raise e →
  let g := {| gen_doc := doc; gen_rest := good ++ bad :: more |} in
  ∃ fs, drain doc good = Return fs
    ∧ length fs = length good
    ∧ advance (length good + 2) g
      = (((λ f, Some (Return f)) <$> fs) ++ [Some (Raise e); None],
         {| gen_doc := doc; gen_rest := [] |})
    ∧ to_list g = Raise e.
Proof.
  intros Hgood Hbad. cbv zeta. unfold to_list. cbn [gen_doc gen_rest].
  induction Hgood as [|fl good [[b l] Hfl] _ (fs & Hfs & Hlen & Hadv & Hl)].
  - exists []. cbn. unfold next. cbn [gen_rest gen_doc]. by rewrite Hbad.
  - exists (fragment_of doc fl b l :: fs).
    pose proof (MatchFragment_init_offsets doc fl b l Hfl) as Hinit.
    cbn [drain app length Nat.add advance].
    unfold next at 1. cbn [gen_rest gen_doc]. rewrite Hinit, Hfs, Hadv, Hl.
    by rewrite Hlen.
Qed.

Lemma generator_stops_at_error_witness :
  to_list {| gen_doc := doc001;
             gen_rest := [[JInt 0; JInt 5; JInt 7]; [JInt 0]; []] |}
  = Raise (IndexError "list index out of range").
Proof.
  destruct (generator_stops_at_error doc001 [[JInt 0; JInt 5; JInt 7]]
              [JInt 0] [[]] (IndexError "list index out of range"))
    as (fs & _ & _ & _ & H).
  - repeat constructor. vm_compute. eauto.
  - reflexivity.
  - exact H.
Defined.

(** *** The text written to the report *)

Lemma join_split_on_replace new cur s :
  join new (split_on NL cur s) = rev cur ++ replace_char NL new s.
Proof.
  revert cur. induction s as [|c s IH]; intros cur.
  - simpl. by rewrite app_nil_r.
  - cbn [split_on replace_char flat_map]. destruct (N.eqb_spec c NL) as [->|Hne].
    + rewrite join_cons by apply split_on_nonempty. by rewrite IH.
    + rewrite IH. cbn [rev]. by rewrite <- app_assoc.
Qed.

Lemma replace_char_absent old new s :
  old ∉ s → replace_char old new s = s.
Proof.
  induction s as [|c s IH]; [done|]. intros [Hc Hs]%not_elem_of_cons.
  cbn [replace_char flat_map]. destruct (N.eqb_spec c old); [congruence|].
  simpl. f_equal. by apply IH.
Qed.

Lemma replace_char_free old new s :
  old ∉ new → old ∉ replace_char old new s.
Proof.
  intros Hnew. induction s as [|c s IH]; [apply not_elem_of_nil|].
  cbn [replace_char flat_map]. rewrite elem_of_app.
  intros [H|H]; [|done].
  destruct (N.eqb_spec c old) as [->|Hne]; [done|].
  apply list_elem_of_singleton in H. congruence.
Qed.

(** X7: [text_cleaned] is ['<br>'.join(text.split('\n'))]; it contains no
    newline, and it is the text itself when the text has no newline. *)
Theorem text_cleaned_lines (self : MatchFragment) :
  text_cleaned self = join (py "<br>") (split NL (frag_text self))
  ∧ (NL ∉ text_cleaned self)
  ∧ (NL ∉ frag_text self → text_cleaned self = frag_text self).
Proof.
  unfold text_cleaned. split; [|split].
  - unfold split. by rewrite join_split_on_replace.
  - apply replace_char_free.
    intros H%list_elem_of_In. simpl in H. intuition discriminate.
  - apply replace_char_absent.
Qed.

Lemma text_cleaned_lines_witness :
  text_cleaned (fragment_of doc001 [] 5 7) = py "shadows".
Proof.
  destruct (text_cleaned_lines (fragment_of doc001 [] 5 7)) as (_ & _ & H).
  rewrite H; [reflexivity|].
  intros Hin%list_elem_of_In. vm_compute in Hin. intuition discriminate.
Defined.

End SuperfastMoreSpec.

(** ** Properties of the documents as attribute dicts *)

Module DocDictSpec.
Import Superfast DocDict.

Lemma dict_get_set d k v k' :
  dict_get (dict_set d k v) k'
  = if decide (k = k') then Some v else dict_get d k'.
Proof.
  induction d as [|[k0 v0] d IH]; simpl.
  - destruct (decide (k = k')); done.
  - destruct (decide (k0 = k)) as [->|Hne]; simpl.
    + destruct (decide (k = k')); done.
    + destruct (decide (k0 = k')) as [->|Hne'].
      * by rewrite decide_False by done.
      * apply IH.
Qed.

Lemma keys_dict_set d k v :
  keys (dict_set d k v) = if decide (k ∈ keys d) then keys d else keys d ++ [k].
Proof.
  unfold keys. induction d as [|[k0 v0] d IH]; cbn [dict_set].
  - rewrite decide_False; [done|apply not_elem_of_nil].
  - destruct (decide (k0 = k)) as [->|Hne]; rewrite !fmap_cons; cbn [fst].
    + rewrite decide_True; [done|apply list_elem_of_here].
    + rewrite IH. destruct (decide (k ∈ d.*1)) as [Hin|Hnin].
      * rewrite decide_True; [done|by apply list_elem_of_further].
      * rewrite decide_False; [done|].
        intros [?|?]%elem_of_cons; [congruence|done].
Qed.

Lemma dict_get_Some_keys d k v : dict_get d k = Some v → k ∈ keys d.
Proof.
  unfold keys. induction d as [|[k0 v0] d IH]; [done|]. simpl.
  destruct (decide (k0 = k)) as [->|Hne]; [intros _; apply list_elem_of_here|].
  intros H. by apply list_elem_of_further, IH.
Qed.

Lemma dict_get_keys d k : k ∈ keys d → is_Some (dict_get d k).
Proof.
  unfold keys. induction d as [|[k0 v0] d IH]; [by intros ?%not_elem_of_nil|].
  simpl. destruct (decide (k0 = k)) as [->|Hne]; [by eauto|].
  intros [?|?]%elem_of_cons; [congruence|by apply IH].
Qed.

Lemma dict_set_fresh d k v : k ∉ keys d → dict_set d k v = d ++ [(k, v)].
Proof.
  unfold keys. induction d as [|[k0 v0] d IH]; [done|].
  rewrite fmap_cons. cbn [fst dict_set]. intros [Hne Hd]%not_elem_of_cons.
  rewrite decide_False by done. by rewrite IH.
Qed.

Lemma dict_get_not_keys d k : k ∉ keys d → dict_get d k = None.
Proof.
  intros Hk. destruct (dict_get d k) eqn:E; [|done].
  by apply dict_get_Some_keys in E.
Qed.

Lemma filter_ext_in {A} (P Q : A → Prop) `{!∀ x, Decision (P x)}
    `{!∀ x, Decision (Q x)} (l : list A) :
  (∀ x, x ∈ l → P x ↔ Q x) → filter P l = filter Q l.
Proof.
  induction l as [|x l IH]; intros Hext; [done|]. rewrite !filter_cons.
  rewrite IH by (intros y Hy; by apply Hext, list_elem_of_further).
  pose proof (Hext x (list_elem_of_here _ _)) as Hx.
  destruct (decide (P x)) as [HP|HP], (decide (Q x)) as [HQ|HQ];
    try done; exfalso; tauto.
Qed.

Lemma keys_set_all d kvs :
  NoDup (keys kvs) →
  keys (set_all d kvs) = keys d ++ filter (λ k, k ∉ keys d) (keys kvs).
Proof.
  unfold set_all. revert d. induction kvs as [|[k v] kvs IH]; intros d Hnd.
  - simpl. by rewrite app_nil_r.
  - change (keys ((k, v) :: kvs)) with (k :: keys kvs) in *.
    apply NoDup_cons in Hnd as [Hk Hnd].
    cbn [foldl fst snd]. rewrite IH by done. rewrite keys_dict_set.
    rewrite filter_cons.
    destruct (decide (k ∈ keys d)) as [Hin|Hnin].
    + by rewrite decide_False by (by intros ?).
    + rewrite decide_True by done. rewrite <- app_assoc. cbn [app]. f_equal.
      f_equal. apply filter_ext_in. intros k' Hk'.
      rewrite elem_of_app, list_elem_of_singleton. split; [tauto|].
      intros Hn [?|Heq]; [done|]. subst k'. by apply Hk.
Qed.

Lemma dict_get_set_all d kvs k :
  (k ∉ keys kvs) → dict_get (set_all d kvs) k = dict_get d k.
Proof.
  unfold set_all. revert d. induction kvs as [|[k0 v0] kvs IH]; intros d Hk;
    [done|].
  change (keys ((k0, v0) :: kvs)) with (k0 :: keys kvs) in Hk.
  apply not_elem_of_cons in Hk as [Hne Hk].
  cbn [foldl fst snd]. rewrite IH by done. rewrite dict_get_set.
  by rewrite decide_False by done.
Qed.

Lemma set_all_keys_preserved d kvs k :
  k ∈ keys d → is_Some (dict_get (set_all d kvs) k).
Proof.
  unfold set_all. revert d. induction kvs as [|[k0 v0] kvs IH]; intros d Hk.
  - by apply dict_get_keys.
  - cbn [foldl fst snd]. apply IH. rewrite keys_dict_set.
    destruct (decide (k0 ∈ keys d)); [done|]. apply elem_of_app. by left.
Qed.

Lemma items_of_keys d ks acc :
  NoDup ks → (∀ k, k ∈ ks → k ∉ keys acc) →
  (∀ k, k ∈ ks → is_Some (dict_get d k)) →
  items_of d (JString <$> ks) acc
  = inr (acc ++ ((λ k, (k, default JNull (dict_get d k))) <$> ks)).
Proof.
  revert acc. induction ks as [|k ks IH]; intros acc Hnd Hacc Hd.
  - simpl. by rewrite app_nil_r.
  - apply NoDup_cons in Hnd as [Hk Hnd].
    rewrite !fmap_cons. cbn [items_of].
    destruct (Hd k (list_elem_of_here _ _)) as [v Hv]. rewrite Hv.
    rewrite dict_set_fresh by (apply Hacc, list_elem_of_here).
    rewrite IH; [by rewrite <- app_assoc|done| |].
    + intros k' Hk'. unfold keys. rewrite fmap_app, elem_of_app.
      intros [Hin|Hin%list_elem_of_singleton].
      * by apply (Hacc k' (list_elem_of_further _ _ _ Hk')).
      * simpl in Hin. by subst.
    + intros k' Hk'. by apply Hd, list_elem_of_further.
Qed.

Lemma items_same d g :
  NoDup (keys d) → (∀ k v, dict_get d k = Some v → g k = v) →
  (λ k, (k, g k)) <$> keys d = d.
Proof.
  unfold keys. induction d as [|[k v] d IH]; intros Hnd Hg; [done|].
  rewrite !fmap_cons in *. cbn [fst] in *.
  apply NoDup_cons in Hnd as [Hk Hnd]. f_equal.
  - f_equal. apply Hg. simpl. by rewrite decide_True.
  - apply IH; [done|]. intros k' v' Hv'. apply Hg. simpl.
    rewrite decide_False; [done|]. intros ->.
    by apply dict_get_Some_keys in Hv'.
Qed.

Lemma dict_get_items ks (g : str → json) k :
  dict_get ((λ k, (k, g k)) <$> ks) k = if decide (k ∈ ks) then Some (g k) else None.
Proof.
  induction ks as [|k0 ks IH]; [done|]. rewrite fmap_cons. cbn [dict_get].
  destruct (decide (k0 = k)) as [->|Hne].
  - rewrite decide_True; [done|apply list_elem_of_here].
  - rewrite IH. destruct (decide (k ∈ ks)) as [Hin|Hnin].
    + rewrite decide_True; [done|by apply list_elem_of_further].
    + rewrite decide_False; [done|].
      intros [?|?]%elem_of_cons; [congruence|done].
Qed.

Lemma BlakeDoc_attrs_title dct t :
  dict_get dct (py "title") = Some (JString t) →
  BlakeDoc_attrs dct
  = inr (set_all dct ((py "json_keys", JArray (JString <$> keys dct))
                      :: title_attrs t)).
Proof.
  intros Ht. unfold BlakeDoc_attrs, parse_title_attrs, getattr, set_json_keys.
  rewrite dict_get_set. rewrite decide_False by (by vm_compute).
  rewrite Ht. unfold title_attrs.
  by destruct (parse_title t) as [d [[[w c] f] p]].
Qed.

Lemma keys_items ks (g : str → json) : keys ((λ k, (k, g k)) <$> ks) = ks.
Proof.
  unfold keys. rewrite <- list_fmap_compose.
  induction ks as [|k ks IH]; [done|]. rewrite fmap_cons. by rewrite IH.
Qed.

Lemma keys_assignments dct t :
  keys ((py "json_keys", JArray (JString <$> keys dct)) :: title_attrs t)
  = derived_names.
Proof. reflexivity. Qed.





End DocDictSpec.

(** ** Properties of the urls and of the listing *)

Module ServiceSpec.
Import Superfast Service PyFacts.

Lemma url_any c lst :
  url c lst = Return (base_url c ++ join [SLASH] (str_of <$> lst)).
Proof.
  unfold url.
  assert (H : (∃ ss, str_items lst = Return ss ∧ ss = str_of <$> lst)
              ∨ ∃ msg, str_items lst = Raise (TypeError msg)).
  { induction lst as [|[z|s] lst IH]; [left; by exists []|right; by eexists|].
    destruct IH as [(ss & E & ->)|(msg & E)]; cbn [str_items]; rewrite E.
    - left. by eexists.
    - right. by exists msg. }
  by destruct H as [(ss & -> & ->)|(msg & ->)].
Qed.

Lemma str_of_Z_inj a b : str_of_Z a = str_of_Z b → a = b.
Proof.
  intros H. pose proof (int_str_of_Z a) as Ha. rewrite H, int_str_of_Z in Ha.
  congruence.
Qed.

Lemma str_of_Z_no_slash z : SLASH ∉ str_of_Z z.
Proof.
  assert (Hn : ∀ n, SLASH ∉ str_of_N n).
  { intros n Hin. pose proof (str_of_N_digits n) as Hd.
    rewrite Forall_forall in Hd. destruct (Hd _ Hin) as [H1 H2].
    unfold SLASH in *. lia. }
  destruct z as [|p|p]; cbn [str_of_Z]; [apply Hn|apply Hn|].
  intros [H|H]%elem_of_cons; [done|by apply Hn in H].
Qed.

Lemma app_sep_inj (sep : N) (s1 s2 t1 t2 : str) :
  sep ∉ s1 → sep ∉ s2 →
  s1 ++ sep :: t1 = s2 ++ sep :: t2 → s1 = s2 ∧ t1 = t2.
Proof.
  revert s2. induction s1 as [|a s1 IH]; intros [|b s2] H1 H2 E; simpl in E.
  - by simplify_eq.
  - simplify_eq. exfalso. apply H2, list_elem_of_here.
  - simplify_eq. exfalso. apply H1, list_elem_of_here.
  - apply not_elem_of_cons in H1 as [? H1].
    apply not_elem_of_cons in H2 as [? H2].
    injection E as -> E. destruct (IH s2 H1 H2 E) as [-> ->]. done.
Qed.

(** X12: the url that [get] builds is the base url followed by the elements
    joined by slashes, whether numbers are given as integers or as their
    decimal text. The url of a document lookup is
    [base_url + 'document/<doctype>/<docid>'], and two lookups have the
    same url only for the same doctype and the same docid. *)
Theorem document_url (c : Connection) (doctype docid : Z) :
  (∀ lst, url c lst = Return (base_url c ++ join [SLASH] (str_of <$> lst)))
  ∧ (∀ lst, url c lst = url c (JText <$> (str_of <$> lst)))
  ∧ url c [JText (py "document"); JInt doctype; JInt docid]
    = Return (base_url c ++ py "document/" ++ str_of_Z doctype
              ++ [SLASH] ++ str_of_Z docid)
  ∧ (∀ doctype' docid',
       url c [JText (py "document"); JInt doctype; JInt docid]
       = url c [JText (py "document"); JInt doctype'; JInt docid'] →
       doctype = doctype' ∧ docid = docid').
Proof.
  split; [apply url_any|]. split; [|split].
  - intros lst. rewrite !url_any.
    assert (E : str_of <$> (JText <$> (str_of <$> lst)) = str_of <$> lst).
    { induction lst as [|x lst IH]; [done|]. rewrite !fmap_cons. by f_equal. }
    by rewrite E.
  - rewrite url_any. cbn. by rewrite <- !app_assoc.
  - intros d' i'. rewrite !url_any. intros [= E]. apply app_inv_head in E.
    cbn in E. repeat (injection E as E).
    apply app_sep_inj in E as [E1 E2]; [|apply str_of_Z_no_slash..].
    split; by apply str_of_Z_inj.
Qed.

Lemma documents_from_pages c perpage next_cursor pages fuel :
  pages_from c perpage next_cursor pages →
  (length pages ≤ fuel)%nat →
  documents_from fuel c perpage next_cursor
  = Some (collect (doc_factory c) (concat (page_rows <$> pages))).
Proof.
  intros Hp. revert fuel.
  induction Hp as [cur page Hget Hnext|cur page pages Hget Hnext Hp IH];
    intros fuel Hfuel.
  - destruct fuel as [|fuel]; [simpl in Hfuel; lia|].
    cbn [documents_from]. rewrite Hget, Hnext. cbn. rewrite app_nil_r.
    by destruct (collect (doc_factory c) (page_rows page)).
  - destruct fuel as [|fuel]; [simpl in Hfuel; lia|].
    cbn [documents_from]. rewrite Hget.
    rewrite fmap_cons. cbn [concat].
    specialize (IH fuel ltac:(simpl in Hfuel; lia)).
    assert (Happ : ∀ l1 l2, collect (doc_factory c) (l1 ++ l2)
              = match collect (doc_factory c) l1 with
                | Raise e => Raise e
                | Return ds =>
                    match collect (doc_factory c) l2 with
                    | Raise e => Raise e
                    | Return rest => Return (ds ++ rest)
                    end
                end).
    { intros l1 l2. induction l1 as [|a l1 IHl]; cbn [collect app].
      - by destruct (collect (doc_factory c) l2).
      - destruct (doc_factory c a); [|done]. cbn. rewrite IHl.
        destruct (collect (doc_factory c) l1); [|done]. cbn.
        by destruct (collect (doc_factory c) l2). }
    rewrite Happ.
    destruct (collect (doc_factory c) (page_rows page)); [|done].
    destruct (page_next page) as [|ch cursor]; [done|].
    rewrite IH.
    by destruct (collect (doc_factory c) (concat (page_rows <$> pages))).
Qed.

(** X13: when the service answers the listing with a chain of pages that
    ends in a page naming no next page, [documents] ends after these pages
    (whatever fuel is left), asks for each page with the cursor that the
    page before it named, and returns the documents of all rows of all
    pages, in order, each one looked up by its doctype and docid; a lookup
    that fails is the error of the whole. *)
Theorem documents_all_pages (c : Connection) (perpage : jnum)
    (pages : list Page) (fuel : nat) :
  pages_from c (str_of perpage) [] pages →
  (length pages ≤ fuel)%nat →
  documents fuel c perpage
  = Some (collect (doc_factory c) (concat (page_rows <$> pages))).
Proof. apply documents_from_pages. Qed.

Lemma documents_all_pages_witness :
  documents 5 service0 (JInt 2)
  = Some (Return [BlakeDoc_of_json (doc_json 1 1);
                  BlakeDoc_of_json (doc_json 1 2);
                  BlakeDoc_of_json (doc_json 1 3)]).
Proof.
  rewrite (documents_all_pages service0 (JInt 2)
             [{| page_rows := [(1, 1); (1, 2)]; page_next := py "c3" |};
              {| page_rows := [(1, 3)]; page_next := [] |}]).
  - vm_compute. reflexivity.
  - apply pages_more; [vm_compute; reflexivity|discriminate|].
    apply pages_last; [vm_compute; reflexivity|reflexivity].
  - simpl. lia.
Defined.

End ServiceSpec.

(** ** Properties of the export *)

Module FragmentExportSpec.
Import Superfast SuperfastMore FragmentExport PyFacts SuperfastSpec
  SuperfastMoreSpec.

Lemma write_fragments_all p doc (pos : fragment_list → Z * Z) rest :
  (∀ fl, fl ∈ rest → offsets fl = Some (pos fl)) →
  write_fragments p doc rest
  = ((λ fl, fragment_row p doc (pos fl)) <$> rest, None).
Proof.
  induction rest as [|fl rest IH]; intros H; [done|].
  cbn [write_fragments].
  destruct (pos fl) as [b l] eqn:E.
  rewrite (MatchFragment_init_offsets doc fl b l)
    by (rewrite <- E; apply H, list_elem_of_here).
  rewrite IH by (intros; by apply H, list_elem_of_further).
  by rewrite fmap_cons, E.
Qed.

Lemma write_fragments_from p doc rest w o r :
  write_fragments p doc rest = (w, o) → r ∈ w →
  ∃ fl pos, fl ∈ rest ∧ offsets fl = Some pos ∧ r = fragment_row p doc pos.
Proof.
  revert w o. induction rest as [|fl rest IH]; intros w o H Hr.
  - injection H as <- <-. by apply not_elem_of_nil in Hr.
  - cbn [write_fragments] in H.
    destruct (MatchFragment_init doc fl) as [f|e] eqn:Ef.
    + destruct (write_fragments p doc rest) as [w' o'].
      injection H as <- <-.
      apply MatchFragment_init_inv in Ef as [Hoff Hf].
      apply elem_of_cons in Hr as [->|Hr].
      * exists fl, (frag_begin f, frag_length f).
        split; [apply list_elem_of_here|]. split; [done|].
        rewrite Hf. reflexivity.
      * destruct (IH w' o' eq_refl Hr) as (fl' & pos & ? & ? & ?).
        exists fl', pos. split; [by apply list_elem_of_further|done].
    + injection H as <- <-. by apply not_elem_of_nil in Hr.
Qed.

Lemma skipped_index d m :
  d ≠ ∅ →
  skipped (Some (Some d)) true m
  = Return (listed d (primary_doc m) (matching_doc m)).
Proof.
  intros Hd. unfold skipped, excluded, falsy, listed.
  rewrite bool_decide_eq_false_2 by done.
  by destruct (_ || _).
Qed.

Lemma skipped_no_relations m :
  skipped (Some (Some ∅)) true m
  = Raise (ValueError "no matrix values are present").
Proof.
  unfold skipped, excluded, falsy. by rewrite bool_decide_eq_true_2.
Qed.

Lemma skipped_inv exclusions matrix_csv m :
  skipped (exclusions_after exclusions matrix_csv)
    (bool_decide (is_Some matrix_csv)) m = Return false →
  left_out matrix_csv (primary_doc m) (matching_doc m) = false.
Proof.
  destruct matrix_csv as [table|]; [|done]. cbn [exclusions_after left_out].
  rewrite bool_decide_eq_true_2 by by eexists.
  destruct (decide (load_relations table = ∅)) as [->|Hne].
  - by rewrite skipped_no_relations.
  - rewrite skipped_index by done. congruence.
Qed.

Lemma init_from_row API p row doc :
  BlakeDoc_init API (row_doctype row) (row_docid row) None = Return doc →
  SuperfastDocmatch_init API p (Some row) None
  = Return {| primary_doc := p; matching_doc := doc; data := Some row |}.
Proof. intros H. unfold SuperfastDocmatch_init. by rewrite H. Qed.

Lemma init_from_row_inv API p row m :
  SuperfastDocmatch_init API p (Some row) None = Return m →
  BlakeDoc_init API (row_doctype row) (row_docid row) None
  = Return (matching_doc m)
  ∧ primary_doc m = p ∧ data m = Some row.
Proof.
  unfold SuperfastDocmatch_init.
  destruct (BlakeDoc_init API (row_doctype row) (row_docid row) None)
    as [d|e]; [|done].
  by intros [= <-].
Qed.

Lemma write_matches_all API exclusions use_matrix matrix_csv p
    (counterpart : Row → BlakeDoc) (pos : fragment_list → Z * Z) rows :
  (∀ m, skipped exclusions use_matrix m
        = Return (left_out matrix_csv (primary_doc m) (matching_doc m))) →
  (∀ row, row ∈ rows →
     BlakeDoc_init API (row_doctype row) (row_docid row) None
     = Return (counterpart row)) →
  (∀ row fl, row ∈ rows → fl ∈ row_fragments row →
             offsets fl = Some (pos fl)) →
  write_matches API exclusions use_matrix p rows
  = (flat_map (match_rows matrix_csv counterpart pos p) rows, None).
Proof.
  intros Hskip. induction rows as [|row rows IH]; intros Hl Ho; [done|].
  cbn [write_matches flat_map].
  rewrite (init_from_row _ _ _ (counterpart row))
    by apply Hl, list_elem_of_here.
  rewrite Hskip. cbn [primary_doc matching_doc]. unfold match_rows at 1.
  rewrite IH; cycle 1.
  { intros row' Hrow'. by apply Hl, list_elem_of_further. }
  { intros row' fl Hrow' Hfl. by apply (Ho row'); [apply list_elem_of_further|]. }
  destruct (left_out matrix_csv p (counterpart row)); [done|].
  cbn [fragments data gen_doc gen_rest matching_doc].
  rewrite (write_fragments_all _ _ pos); [done|].
  intros fl Hfl. by apply (Ho row); [apply list_elem_of_here|].
Qed.

Lemma write_matches_from API exclusions use_matrix p rows w o r :
  write_matches API exclusions use_matrix p rows = (w, o) → r ∈ w →
  ∃ row m fl pos,
    row ∈ rows
    ∧ SuperfastDocmatch_init API p (Some row) None = Return m
    ∧ skipped exclusions use_matrix m = Return false
    ∧ fl ∈ row_fragments row
    ∧ offsets fl = Some pos
    ∧ r = fragment_row p (matching_doc m) pos.
Proof.
  revert w o. induction rows as [|row rows IH]; intros w o H Hr.
  { injection H as <- <-. by apply not_elem_of_nil in Hr. }
  cbn [write_matches] in H.
  assert (Hrest : ∀ w' o', write_matches API exclusions use_matrix p rows
                           = (w', o') → r ∈ w' →
            ∃ row' m fl pos,
              row' ∈ row :: rows
              ∧ SuperfastDocmatch_init API p (Some row') None = Return m
              ∧ skipped exclusions use_matrix m = Return false
              ∧ fl ∈ row_fragments row'
              ∧ offsets fl = Some pos
              ∧ r = fragment_row p (matching_doc m) pos).
  { intros w' o' Hw Hr'.
    destruct (IH w' o' Hw Hr') as (row' & m & fl & pos & ? & ?).
    exists row', m, fl, pos. split; [by apply list_elem_of_further|done]. }
  destruct (SuperfastDocmatch_init API p (Some row) None) as [m|e] eqn:Em;
    [|injection H as <- <-; by apply not_elem_of_nil in Hr].
  destruct (skipped exclusions use_matrix m) as [[|]|e] eqn:Es;
    [by eapply Hrest| |injection H as <- <-; by apply not_elem_of_nil in Hr].
  pose proof (init_from_row_inv _ _ _ _ Em) as (_ & _ & Hdata).
  unfold fragments in H. rewrite Hdata in H. cbn [gen_doc gen_rest] in H.
  destruct (write_fragments p (matching_doc m) (row_fragments row))
    as [w1 o1] eqn:Ew.
  assert (Hfirst : r ∈ w1 →
            ∃ row' m' fl pos,
              row' ∈ row :: rows
              ∧ SuperfastDocmatch_init API p (Some row') None = Return m'
              ∧ skipped exclusions use_matrix m' = Return false
              ∧ fl ∈ row_fragments row'
              ∧ offsets fl = Some pos
              ∧ r = fragment_row p (matching_doc m') pos).
  { intros Hr1.
    destruct (write_fragments_from _ _ _ _ _ _ Ew Hr1) as (fl & pos & ? & ? & ?).
    exists row, m, fl, pos. split; [apply list_elem_of_here|done]. }
  destruct o1 as [e|].
  - injection H as <- <-. by apply Hfirst.
  - destruct (write_matches API exclusions use_matrix p rows) as [w' o'].
    injection H as <- <-.
    apply elem_of_app in Hr as [Hr|Hr]; [by apply Hfirst|by eapply Hrest].
Qed.

Lemma write_docs_all API exclusions use_matrix matrix_csv
    (counterpart : Row → BlakeDoc) (pos : fragment_list → Z * Z) docs stop :
  (∀ m, skipped exclusions use_matrix m
        = Return (left_out matrix_csv (primary_doc m) (matching_doc m))) →
  (∀ p row, p ∈ docs → row ∈ documents_rows p →
     BlakeDoc_init API (row_doctype row) (row_docid row) None
     = Return (counterpart row)) →
  (∀ p row fl, p ∈ docs → row ∈ documents_rows p →
               fl ∈ row_fragments row → offsets fl = Some (pos fl)) →
  write_docs API exclusions use_matrix docs stop
  = (export_rows matrix_csv counterpart pos docs, stop).
Proof.
  intros Hskip. induction docs as [|p docs IH]; intros Hl Ho.
  { unfold export_rows. simpl. by destruct stop. }
  cbn [write_docs].
  rewrite (write_matches_all _ _ _ matrix_csv _ counterpart pos); cycle 1.
  { done. }
  { intros row Hrow. by apply (Hl p); [apply list_elem_of_here|]. }
  { intros row fl Hrow Hfl. by apply (Ho p row); [apply list_elem_of_here|..]. }
  rewrite IH; cycle 1.
  { intros p' row Hp. by apply Hl, list_elem_of_further. }
  { intros p' row fl Hp. by apply Ho, list_elem_of_further. }
  reflexivity.
Qed.

Lemma write_docs_from API exclusions use_matrix docs stop w o r :
  write_docs API exclusions use_matrix docs stop = (w, o) → r ∈ w →
  ∃ p row m fl pos,
    p ∈ docs
    ∧ row ∈ documents_rows p
    ∧ SuperfastDocmatch_init API p (Some row) None = Return m
    ∧ skipped exclusions use_matrix m = Return false
    ∧ fl ∈ row_fragments row
    ∧ offsets fl = Some pos
    ∧ r = fragment_row p (matching_doc m) pos.
Proof.
  revert w o. induction docs as [|p docs IH]; intros w o H Hr.
  { injection H as <- <-. by apply not_elem_of_nil in Hr. }
  cbn [write_docs] in H.
  destruct (write_matches API exclusions use_matrix p (documents_rows p))
    as [w1 o1] eqn:Ew.
  assert (Hfirst : r ∈ w1 →
    ∃ p' row m fl pos,
      p' ∈ p :: docs
      ∧ row ∈ documents_rows p'
      ∧ SuperfastDocmatch_init API p' (Some row) None = Return m
      ∧ skipped exclusions use_matrix m = Return false
      ∧ fl ∈ row_fragments row
      ∧ offsets fl = Some pos
      ∧ r = fragment_row p' (matching_doc m) pos).
  { intros Hr1.
    destruct (write_matches_from _ _ _ _ _ _ _ _ Ew Hr1)
      as (row & m & fl & pos & ? & ?).
    exists p, row, m, fl, pos. split; [apply list_elem_of_here|done]. }
  destruct o1 as [e|].
  - injection H as <- <-. by apply Hfirst.
  - destruct (write_docs API exclusions use_matrix docs stop) as [w' o'] eqn:Ed.
    injection H as <- <-.
    apply elem_of_app in Hr as [Hr|Hr]; [by apply Hfirst|].
    destruct (IH w' o' eq_refl Hr) as (p' & row & m & fl & pos & ? & ?).
    exists p', row, m, fl, pos. split; [by apply list_elem_of_further|done].
Qed.

Lemma export_fragments_unfold API exclusions self_documents iterator
    matrix_csv :
  export_fragments API exclusions self_documents iterator (Some <$> matrix_csv)
  = let docs := documents_of self_documents iterator in
    let w := write_docs API (exclusions_after exclusions matrix_csv)
               (bool_decide (is_Some matrix_csv)) docs.1 docs.2 in
    (exclusions_after exclusions matrix_csv, Wrote (header :: w.1) w.2).
Proof.
  unfold export_fragments. destruct matrix_csv as [table|]; cbn.
  - by destruct (write_docs _ _ _ _ _).
  - by destruct (write_docs _ _ _ _ _).
Qed.

Lemma load_relations_no_ids table :
  Forall (λ r, r.2 = []) table → load_relations table = ∅.
Proof.
  intros H. unfold load_relations.
  assert (Hm : ∀ m : matrices_t, foldl load_row m table = m); [|apply Hm].
  induction H as [|r table Hr H IH]; intros m; [done|].
  cbn [foldl]. unfold load_row at 2.
  rewrite bool_decide_eq_true_2 by done. apply IH.
Qed.

(** X14: when the lookups of all matches succeed, all fragment descriptors
    have integer offsets, and the relation table (if one is given) has an
    entry, the export ends without an exception and writes the header
    followed by one row for each fragment descriptor, in the order of the
    documents, their matches and the descriptors; the matches that the
    relation table lists in either direction are left out, none is without
    a table. A table also replaces the class attribute. *)
Theorem export_fragments_rows (API : SuperfastAPI)
    (exclusions : exclusions_attr)
    (self_documents : list BlakeDoc * option exn)
    (iterator : option (list BlakeDoc))
    (matrix_csv : option (list (str * str)))
    (docs : list BlakeDoc)
    (counterpart : Row → BlakeDoc) (pos : fragment_list → Z * Z) :
  documents_of self_documents iterator = (docs, None) →
  (∀ table, matrix_csv = Some table → load_relations table ≠ ∅) →
  (∀ p row, p ∈ docs → row ∈ documents_rows p →
     BlakeDoc_init API (row_doctype row) (row_docid row) None
     = Return (counterpart row)) →
  (∀ p row fl, p ∈ docs → row ∈ documents_rows p →
               fl ∈ row_fragments row → offsets fl = Some (pos fl)) →
  export_fragments API exclusions self_documents iterator (Some <$> matrix_csv)
  = (exclusions_after exclusions matrix_csv,
     Wrote (header :: export_rows matrix_csv counterpart pos docs) None).
Proof.
  intros Hdocs Hne Hl Ho. rewrite export_fragments_unfold, Hdocs. cbn [fst snd].
  rewrite (write_docs_all _ _ _ matrix_csv counterpart pos); [done| |done|done].
  intros m. destruct matrix_csv as [table|]; [|done].
  rewrite bool_decide_eq_true_2 by by eexists.
  apply skipped_index. by apply Hne.
Qed.

Lemma export_fragments_rows_witness :
  export_fragments api1 None ([], None) (Some [doc_h]) (Some (Some table_g))
  = (Some (Some (load_relations table_g)),
     Wrote [header;
            [py "vda.h.illbk.07"; py "vda.b.illbk.07";
             py "of discontent!<br>and in what"]] None).
Proof.
  change (Some (Some table_g)) with (Some <$> Some table_g).
  rewrite (export_fragments_rows api1 None ([], None) (Some [doc_h])
             (Some table_g) [doc_h] counterpart1 positions).
  - vm_compute. reflexivity.
  - reflexivity.
  - intros table [= <-] H.
    apply (f_equal (λ m : matrices_t, m !! py "vda.g.illbk.07")) in H.
    vm_compute in H. discriminate.
  - intros p row Hp Hrow. apply list_elem_of_singleton in Hp. subst p.
    change (documents_rows doc_h) with [row_g; row_b] in Hrow.
    apply elem_of_cons in Hrow as [Hrow|Hrow];
      [|apply list_elem_of_singleton in Hrow]; subst row;
      vm_compute; reflexivity.
  - intros p row fl Hp Hrow Hfl. apply list_elem_of_singleton in Hp. subst p.
    change (documents_rows doc_h) with [row_g; row_b] in Hrow.
    apply elem_of_cons in Hrow as [Hrow|Hrow];
      [|apply list_elem_of_singleton in Hrow]; subst row.
    + cbn [row_g row_fragments] in Hfl.
      apply elem_of_cons in Hfl as [Hfl|Hfl];
        [|apply list_elem_of_singleton in Hfl]; subst fl;
        vm_compute; reflexivity.
    + cbn [row_b row_fragments] in Hfl.
      apply list_elem_of_singleton in Hfl. subst fl. vm_compute. reflexivity.
Defined.

(** X15: with a relation table in which no row lists an id, the export
    stops at the first match of the first document that has one, once the
    matching document is looked up: [excluded] raises [ValueError], only
    the header is written, and the class attribute is left as the empty
    index. *)
Theorem export_fragments_no_relations (API : SuperfastAPI)
    (exclusions : exclusions_attr)
    (self_documents : list BlakeDoc * option exn)
    (iterator : option (list BlakeDoc))
    (table : list (str * str))
    (pre : list BlakeDoc) (p : BlakeDoc) (rest : list BlakeDoc)
    (stop : option exn) (row : Row) (rows : list Row) (doc : BlakeDoc) :
  documents_of self_documents iterator = (pre ++ p :: rest, stop) →
  Forall (λ d, documents_rows d = []) pre →
  documents_rows p = row :: rows →
  BlakeDoc_init API (row_doctype row) (row_docid row) None = Return doc →
  Forall (λ r, r.2 = []) table →
  export_fragments API exclusions self_documents iterator (Some (Some table))
  = (Some (Some ∅),
     Wrote [header] (Some (ValueError "no matrix values are present"))).
Proof.
  intros Hdocs Hpre Hrows Hdoc Htable.
  change (Some (Some table)) with (Some <$> Some table).
  rewrite export_fragments_unfold, Hdocs. cbn [fst snd exclusions_after].
  rewrite (load_relations_no_ids _ Htable).
  rewrite bool_decide_eq_true_2 by by eexists.
  assert (Hw : write_docs API (Some (Some ∅)) true (pre ++ p :: rest) stop
               = ([], Some (ValueError "no matrix values are present"))).
  { clear Hdocs. induction Hpre as [|d pre Hd Hpre IH].
    - cbn [app write_docs]. rewrite Hrows. cbn [write_matches].
      rewrite (init_from_row _ _ _ _ Hdoc), skipped_no_relations. done.
    - cbn [app write_docs]. rewrite Hd. cbn [write_matches]. by rewrite IH. }
  by rewrite Hw.
Qed.

Lemma export_fragments_no_relations_witness :
  export_fragments api1 None ([], None) (Some [doc001; doc_h])
    (Some (Some [(py "vda.c.illbk.07", [])]))
  = (Some (Some ∅),
     Wrote [header] (Some (ValueError "no matrix values are present"))).
Proof.
  apply (export_fragments_no_relations api1 None ([], None)
           (Some [doc001; doc_h]) [(py "vda.c.illbk.07", [])]
           [doc001] doc_h [] None row_g [row_b] (BlakeDoc_of_json json_g)).
  - reflexivity.
  - repeat constructor.
  - reflexivity.
  - vm_compute. reflexivity.
  - repeat constructor.
Defined.

(** X16: the export writes nothing, not even the header, and leaves the
    class attribute alone when the file of the relation table does not
    exist. Otherwise, whether it ends normally or with an exception, the
    output starts with the header, and every other row written has three
    fields and comes from a fragment descriptor with integer offsets of a
    match of one of the documents, whose matching document was looked up
    and is not listed with the document in the relation table; the third
    field has no newline. An iterator without documents is replaced by the
    documents of the service. *)
Theorem export_fragments_sound (API : SuperfastAPI)
    (exclusions : exclusions_attr)
    (self_documents : list BlakeDoc * option exn)
    (iterator : option (list BlakeDoc)) :
  export_fragments API exclusions self_documents iterator (Some None)
  = (exclusions, NotOpened)
  ∧ (∀ matrix_csv,
       export_fragments API exclusions self_documents (Some []) matrix_csv
       = export_fragments API exclusions self_documents None matrix_csv)
  ∧ (∀ matrix_csv, ∃ body o,
       export_fragments API exclusions self_documents iterator
         (Some <$> matrix_csv)
       = (exclusions_after exclusions matrix_csv, Wrote (header :: body) o)
       ∧ ∀ r, r ∈ body →
           row_from API matrix_csv
             (documents_of self_documents iterator).1 r
           ∧ ∃ a b t, r = [a; b; t] ∧ NL ∉ t).
Proof.
  split; [done|]. split; [done|].
  intros matrix_csv. rewrite export_fragments_unfold. cbn zeta.
  destruct (write_docs _ _ _ _ _) as [w o] eqn:Ew.
  exists w, o. split; [done|]. intros r Hr.
  destruct (write_docs_from _ _ _ _ _ _ _ _ Ew Hr)
    as (p & row & m & fl & pos & Hp & Hrow & Hm & Hs & Hfl & Hoff & ->).
  apply init_from_row_inv in Hm as (Hdoc & Hpm & _).
  apply skipped_inv in Hs. rewrite Hpm in Hs.
  split.
  - by exists p, row, (matching_doc m), fl, pos.
  - eexists _, _, _. split; [reflexivity|].
    apply replace_char_free.
    intros H%list_elem_of_In. simpl in H. intuition discriminate.
Qed.

End FragmentExportSpec.

(** ** The tree after [text], and [text] again *)

Module BlakeXmlMoreSpec.
Import BlakeXml BlakeXmlMore PyFacts BlakeXmlFacts BlakeXmlSpec.

(** *** What a turn does to the tree *)

Lemma line_turn_removed st p e n :
  n ∈ removed (line_turn st (p, e)).1 ↔
  n ∈ removed st ∨ ∃ c, (n, c) ∈ findall_descendants st "note" p e.
Proof.
  unfold line_turn. cbn [fst snd].
  destruct (foldl_set_text_space
              (foldl remove st (findall_descendants st "note" p e))
              (findall_children
                 (foldl remove st (findall_descendants st "note" p e))
                 "space" p e)) as [-> _].
  apply foldl_remove.
Qed.

Lemma line_turn_space_text st p e x :
  x ∈ space_text (line_turn st (p, e)).1 ↔
  x ∈ space_text st
  ∨ ∃ c, (x, c) ∈ findall_children (line_turn st (p, e)).1 "space" p e.
Proof.
  unfold line_turn. cbn [fst snd].
  set (st1 := foldl remove st (findall_descendants st "note" p e)).
  destruct (foldl_set_text_space st1 (findall_children st1 "space" p e))
    as [R2 S2].
  destruct (foldl_remove st (findall_descendants st "note" p e)) as [_ S1].
  fold st1 in S1. rewrite S2, S1.
  assert (E : ∀ c, (x, c) ∈ findall_children
                     (foldl set_text_space st1
                        (findall_children st1 "space" p e)) "space" p e
                   ↔ (x, c) ∈ findall_children st1 "space" p e).
  { intros c. rewrite !elem_of_findall_children.
    split; intros (k & ? & ? & Hr & ?); exists k;
      (split; [done|]); (split; [done|]); (split; [|done]).
    - by rewrite <- R2.
    - by rewrite R2. }
  split; (intros [?|[c Hc]]; [by left|right; exists c; by apply E]).
Qed.

Lemma text_turn_state st acc line :
  (text_turn (st, acc) line).1 = (line_turn st line).1.
Proof.
  unfold text_turn. cbn [fst snd]. destruct (line_turn st line) as [st' t].
  by destruct (bool_decide (t = [])).
Qed.

Lemma line_turn_removed_mono st p e n :
  n ∈ removed st → n ∈ removed (line_turn st (p, e)).1.
Proof. intros H. apply line_turn_removed. by left. Qed.

(** What a turn unlinks is a note below the line. *)
Lemma line_turn_removed_new st p e n :
  n ∈ removed (line_turn st (p, e)).1 → n ∉ removed st →
  ∃ q c, q ≠ [] ∧ n = p ++ q ∧ subtree e q = Some c
         ∧ has_tag "note" c = true.
Proof.
  intros [H|[c H]]%line_turn_removed Hn; [done|].
  apply elem_of_findall_descendants in H as [Ht H]. simpl in Ht.
  apply elem_of_iterdescendants in H as (q & Hq & -> & Hs & _).
  by exists q, c.
Qed.

(** After the turn no note below the line is linked. *)
Lemma line_turn_no_note st p e x :
  x ∈ iterdescendants (line_turn st (p, e)).1 p e →
  has_tag "note" x.2 = false.
Proof.
  intros Hx. destruct (has_tag "note" x.2) eqn:Ht; [exfalso|done].
  pose proof Hx as Hx2. destruct x as [n c].
  apply elem_of_iterdescendants in Hx2 as (_ & _ & _ & _ & Hlive).
  apply Hlive, line_turn_removed. right. exists c.
  apply elem_of_findall_descendants. split; [done|].
  apply (iterdescendants_mono st (line_turn st (p, e)).1); [|done].
  intros m Hm. by apply line_turn_removed_mono.
Qed.

(** *** The tree after the loop *)

Lemma text_loop_state tree lines :
  ∀ st acc,
    Forall (λ l, subtree tree l.1 = Some l.2) lines →
    (∀ n, n ∈ removed st → n ∈ removed (foldl text_turn (st, acc) lines).1)
    ∧ (∀ x, x ∈ space_text st →
            x ∈ space_text (foldl text_turn (st, acc) lines).1)
    ∧ (∀ n, n ∈ removed (foldl text_turn (st, acc) lines).1 →
            n ∈ removed st
            ∨ ∃ l c, l ∈ lines ∧ below l.1 n ∧ subtree tree n = Some c
                     ∧ has_tag "note" c = true)
    ∧ (∀ x, x ∈ space_text (foldl text_turn (st, acc) lines).1 →
            x ∈ space_text st
            ∨ ∃ l k c, l ∈ lines ∧ x = l.1 ++ [k]
                       ∧ children l.2 !! k = Some c
                       ∧ has_tag "space" c = true)
    ∧ (∀ l x, l ∈ lines →
              x ∈ iterdescendants (foldl text_turn (st, acc) lines).1 l.1 l.2 →
              has_tag "note" x.2 = false)
    ∧ (∀ l k c, l ∈ lines → children l.2 !! k = Some c →
                has_tag "space" c = true →
                l.1 ++ [k] ∉ removed (foldl text_turn (st, acc) lines).1 →
                l.1 ++ [k] ∈ space_text (foldl text_turn (st, acc) lines).1).
Proof.
  induction lines as [|[p e] lines IH]; intros st acc Hl.
  { cbn [foldl fst]. repeat split; try done.
    - by left.
    - by left.
    - by intros l x ?%not_elem_of_nil.
    - by intros l k c ?%not_elem_of_nil. }
  apply Forall_cons in Hl as [HT Hl]. simpl in HT.
  cbn [foldl].
  destruct (text_turn (st, acc) (p, e)) as [st1 acc1] eqn:E1.
  assert (Est : st1 = (line_turn st (p, e)).1).
  { by rewrite <- text_turn_state with (acc := acc), E1. }
  destruct (IH st1 acc1 Hl) as (M1 & M2 & R & S & N & F).
  set (st' := (foldl text_turn (st1, acc1) lines).1) in *.
  split; [|split; [|split; [|split; [|split]]]].
  - intros n Hn. apply M1. rewrite Est. by apply line_turn_removed_mono.
  - intros x Hx. apply M2. rewrite Est. apply line_turn_space_text. by left.
  - intros n Hn. destruct (R n Hn) as [H1|(l & c & Hin & ?)].
    + destruct (decide (n ∈ removed st)) as [?|Hnew]; [by left|right].
      rewrite Est in H1.
      destruct (line_turn_removed_new _ _ _ _ H1 Hnew)
        as (q & c & Hq & -> & Hs & Ht).
      exists (p, e), c. split; [apply list_elem_of_here|].
      split; [by exists q|]. split; [|done].
      by rewrite subtree_app, HT.
    + right. exists l, c. split; [by apply list_elem_of_further|done].
  - intros x Hx. destruct (S x Hx) as [H1|(l & k & c & Hin & ?)].
    + rewrite Est in H1.
      apply line_turn_space_text in H1 as [?|[c H1]]; [by left|right].
      apply elem_of_findall_children in H1 as (k & Hk & Hc & _ & Ht).
      simpl in *. exists (p, e), k, c.
      split; [apply list_elem_of_here|done].
    + right. exists l, k, c. split; [by apply list_elem_of_further|done].
  - intros l x [->|Hin]%elem_of_cons Hx; [|by apply (N l)].
    simpl in Hx. apply (line_turn_no_note st p e).
    rewrite <- Est. by apply (iterdescendants_mono st1 st').
  - intros l k c [->|Hin]%elem_of_cons Hk Ht Hr; [|by apply (F l k c)].
    simpl in *. apply M2. rewrite Est. apply line_turn_space_text. right.
    exists c. apply elem_of_findall_children. exists k. simpl.
    split; [done|]. split; [done|]. split; [|done].
    rewrite <- Est. intros Hr'. by apply Hr, M1.
Qed.

Lemma text_leaves_tree_facts (xml : Element) :
  (∀ l x, l ∈ xpath_phystext_l parsed xml →
          x ∈ iterdescendants (text_from parsed xml).1 l.1 l.2 →
          has_tag "note" x.2 = false)
  ∧ (∀ l k c, l ∈ xpath_phystext_l parsed xml →
              children l.2 !! k = Some c → has_tag "space" c = true →
              l.1 ++ [k] ∉ removed (text_from parsed xml).1 →
              l.1 ++ [k] ∈ space_text (text_from parsed xml).1).
Proof.
  unfold text_from. cbn [fst].
  destruct (text_loop_state xml (xpath_phystext_l parsed xml) parsed [])
    as (_ & _ & _ & _ & N & F); [|done].
  eapply Forall_impl; [apply xpath_lines|]. by intros l [? _].
Qed.

(** X18: what [text] does to the tree of the object. It unlinks notes that
    lie below selected lines, and nothing else; it sets the text of [space]
    children of selected lines, and of nothing else. Afterwards no note is
    linked below any selected line, and every [space] child of a selected
    line that is still linked has its text set. *)
Theorem text_leaves_tree (xml : Element) :
  (text_from parsed xml).2 = XMLObject_text xml
  ∧ (∀ n, n ∈ removed (text_from parsed xml).1 →
          ∃ l c, l ∈ xpath_phystext_l parsed xml ∧ below l.1 n
                 ∧ subtree xml n = Some c ∧ has_tag "note" c = true)
  ∧ (∀ x, x ∈ space_text (text_from parsed xml).1 →
          ∃ l k c, l ∈ xpath_phystext_l parsed xml ∧ x = l.1 ++ [k]
                   ∧ children l.2 !! k = Some c
                   ∧ has_tag "space" c = true)
  ∧ (∀ l x, l ∈ xpath_phystext_l parsed xml →
            x ∈ iterdescendants (text_from parsed xml).1 l.1 l.2 →
            has_tag "note" x.2 = false)
  ∧ (∀ l k c, l ∈ xpath_phystext_l parsed xml →
              children l.2 !! k = Some c → has_tag "space" c = true →
              l.1 ++ [k] ∉ removed (text_from parsed xml).1 →
              l.1 ++ [k] ∈ space_text (text_from parsed xml).1).
Proof.
  split; [done|]. unfold text_from. cbn [fst].
  destruct (text_loop_state xml (xpath_phystext_l parsed xml) parsed [])
    as (_ & _ & R & S & N & F).
  { eapply Forall_impl; [apply xpath_lines|]. by intros l [? _]. }
  split; [|split; [|split]]; [| |done|done].
  - intros n Hn. destruct (R n Hn) as [H|H]; [|done].
    by apply not_elem_of_empty in H.
  - intros x Hx. destruct (S x Hx) as [H|H]; [|done].
    by apply not_elem_of_empty in H.
Qed.

(** *** A turn on a tree where texts of [space] elements are set already *)

Lemma line_turn_text tree st p e :
  removed_notes tree st →
  (∀ x, x ∈ space_text st → p `prefix_of` x →
        ∃ k c, x = p ++ [k] ∧ children e !! k = Some c
               ∧ has_tag "space" c = true) →
  subtree tree p = Some e →
  (line_turn st (p, e)).2 = line_text e
  ∧ removed_notes tree (line_turn st (p, e)).1.
Proof.
  intros Hrem Hsp HT.
  assert (Hsub : ∀ q, subtree tree (p ++ q) = subtree e q).
  { intros q. by rewrite subtree_app, HT. }
  assert (Hrem2 : removed_notes tree (line_turn st (p, e)).1).
  { intros n Hn. destruct (decide (n ∈ removed st)) as [?|Hnew];
      [by apply Hrem|].
    destruct (line_turn_removed_new _ _ _ _ Hn Hnew)
      as (q & c & _ & -> & Hs & Ht).
    exists c. by rewrite Hsub. }
  split; [|done].
  pose proof (line_turn_space_text st p e) as Hspaces.
  assert (Hun : notes_unlinked (line_turn st (p, e)).1 p e).
  { split.
    - intros q c Hq Hs Hin. destruct (Hrem2 _ Hin) as (c' & Hc' & Ht).
      rewrite Hsub, Hs in Hc'. by simplify_eq.
    - apply line_turn_no_note. }
  revert Hspaces Hun. unfold line_turn. cbn [fst snd].
  set (st2 := foldl set_text_space _ _). intros Hspaces Hun.
  unfold line_text. f_equal. apply itertext_line; [done| | |].
  - intros [Hin|[c Hin]]%Hspaces.
    + destruct (Hsp p Hin) as (k & _ & Hk & _); [done|].
      rewrite <- (app_nil_r p) in Hk at 1. by apply app_inv_head in Hk.
    + apply elem_of_findall_children in Hin as (k & Hk & _). simpl in Hk.
      rewrite <- (app_nil_r p) in Hk at 1. by apply app_inv_head in Hk.
  - intros k c Hk Hr. rewrite Hspaces. split.
    + intros [Hin|[c' Hin]].
      * destruct (Hsp _ Hin) as (k' & c' & Hk' & Hc' & Ht); [by exists [k]|].
        apply app_inv_head in Hk'. by simplify_eq.
      * apply elem_of_findall_children in Hin as (k' & Hk' & Hc' & _ & Ht).
        simpl in *. apply app_inv_head in Hk'. by simplify_eq.
    + intros Ht. right. exists c. apply elem_of_findall_children.
      by exists k.
  - intros k q Hq [Hin|[c Hin]]%Hspaces.
    + destruct (Hsp _ Hin) as (k' & _ & Hk' & _); [by exists (k :: q)|].
      apply app_inv_head in Hk'. by simplify_eq.
    + apply elem_of_findall_children in Hin as (k' & Hk' & _). simpl in Hk'.
      apply app_inv_head in Hk'. by simplify_eq.
Qed.

(** The loop over lines selected in [tree], from a state in which the
    [space] elements with a text are children of lines. *)
Lemma text_loop_again tree lines :
  ∀ st acc,
    removed_notes tree st →
    (∀ x, x ∈ space_text st →
       (∃ c, subtree tree x = Some c ∧ has_tag "space" c = true)
       ∧ ∀ l, l ∈ lines → l.1 `prefix_of` x → ∃ k, x = l.1 ++ [k]) →
    StronglySorted before lines →
    Forall (λ l, subtree tree l.1 = Some l.2 ∧ has_tag "l" l.2 = true) lines →
    (foldl text_turn (st, acc) lines).2 = foldl text_step acc lines.*2.
Proof.
  induction lines as [|[p e] lines IH]; intros st acc Hrem Hsp Hsort Hl;
    [done|].
  apply StronglySorted_cons in Hsort as [Hbefore Hsort].
  apply Forall_cons in Hl as [[HT Htag] Hl]. simpl in HT, Htag.
  destruct (line_turn_text tree st p e) as (Htext & Hrem'); [done| |done|].
  { intros x Hx Hpre. destruct (Hsp x Hx) as [(c & Hc & Ht) Hl'].
    destruct (Hl' (p, e)) as [k ->]; [apply list_elem_of_here|done|].
    exists k, c. split; [done|]. split; [|done].
    by rewrite <- (subtree_snoc _ _ _ _ HT). }
  pose proof (line_turn_space_text st p e) as Hsp'.
  cbn [foldl fmap list_fmap]. unfold text_turn at 2. cbn [fst snd].
  destruct (line_turn st (p, e)) as [st' text]. simpl in Htext, Hrem', Hsp'.
  subst text. unfold text_step at 2. cbv zeta.
  assert (Hinv : ∀ x, x ∈ space_text st' →
     (∃ c, subtree tree x = Some c ∧ has_tag "space" c = true)
     ∧ ∀ l, l ∈ lines → l.1 `prefix_of` x → ∃ k, x = l.1 ++ [k]).
  { intros x [Hx|(c & Hin)]%Hsp'.
    - destruct (Hsp x Hx) as [Hc Hno]. split; [done|].
      intros l Hin. by apply Hno, list_elem_of_further.
    - apply elem_of_findall_children in Hin as (k & Hx & Hk & _ & Ht).
      simpl in Hx, Hk, Ht. subst x.
      split; [exists c; by rewrite (subtree_snoc _ _ _ _ HT)|].
      intros l Hin [Heq|Hpre]%prefix_snoc_inv; exfalso.
      + rewrite Forall_forall in Hl. destruct (Hl l Hin) as [Hs Hlt].
        rewrite Heq, (subtree_snoc _ _ _ _ HT), Hk in Hs. simplify_eq.
        unfold has_tag in Ht, Hlt.
        apply bool_decide_eq_true in Ht, Hlt. by rewrite Ht in Hlt.
      + rewrite Forall_forall in Hbefore. by apply (Hbefore l Hin). }
  destruct (bool_decide (line_text e = [])); by apply IH.
Qed.

(** *** The lines selected in the tree after [text] *)

Lemma filter_none {A} (P : A → Prop) `{!∀ x, Decision (P x)} (l : list A) :
  (∀ x, x ∈ l → ¬ P x) → filter P l = [].
Proof.
  induction l as [|a l IH]; intros Hno; [done|].
  rewrite filter_cons, decide_False by apply Hno, list_elem_of_here.
  apply IH. intros x Hx. by apply Hno, list_elem_of_further.
Qed.

Lemma over_children_ext {A} st st' p (f f' : path → Element → list A) i cs :
  (∀ k c, cs !! k = Some c →
     (if decide (p ++ [i + k]%nat ∈ removed st) then []
      else f (p ++ [i + k]%nat) c)
     = (if decide (p ++ [i + k]%nat ∈ removed st') then []
        else f' (p ++ [i + k]%nat) c)) →
  over_children st p f i cs = over_children st' p f' i cs.
Proof.
  revert i. induction cs as [|c cs IH]; intros i H; [done|].
  cbn [over_children]. f_equal.
  - specialize (H 0%nat c eq_refl). by rewrite Nat.add_0_r in H.
  - apply IH. intros k c' Hk. specialize (H (S k) c' Hk).
    by rewrite Nat.add_succ_r in H.
Qed.

Lemma not_removed_parsed (n : path) : n ∉ removed parsed.
Proof. apply not_elem_of_empty. Qed.

(** A state of the tree in which no [l] element was unlinked, alone or
    with an element around it, selects the same [l] elements. *)
Lemma findall_l_unchanged st q e :
  (∀ x, x ∈ iterdescendants parsed q e → has_tag "l" x.2 = true →
        ∀ n, n ∈ removed st → ¬ n `prefix_of` x.1) →
  findall_descendants st "l" q e = findall_descendants parsed "l" q e.
Proof.
  revert q. induction e as [t y cs tl IH] using Element_ind'. intros q H.
  unfold findall_descendants in *. cbn [iterdescendants].
  assert (Hcs : ∀ k c x, cs !! k = Some c →
            x ∈ (q ++ [0 + k]%nat, c)
                :: iterdescendants parsed (q ++ [0 + k]%nat) c →
            has_tag "l" x.2 = true →
            ∀ n, n ∈ removed st → ¬ n `prefix_of` x.1).
  { intros k c x Hk Hx. apply H. cbn [iterdescendants].
    apply elem_of_over_children. exists k, c.
    split; [done|]. split; [apply not_removed_parsed|done]. }
  clear H. revert Hcs. generalize 0%nat as i.
  induction IH as [|c cs Hc _ IHcs]; intros i Hall; [done|].
  cbn [over_children]. rewrite !filter_app. f_equal.
  - rewrite (decide_False (P := q ++ [i] ∈ removed parsed))
      by apply not_removed_parsed.
    assert (H0 : ∀ x, x ∈ (q ++ [i], c) :: iterdescendants parsed (q ++ [i]) c →
              has_tag "l" x.2 = true →
              ∀ n, n ∈ removed st → ¬ n `prefix_of` x.1).
    { intros x Hx. specialize (Hall 0%nat c x eq_refl).
      rewrite Nat.add_0_r in Hall. by apply Hall. }
    destruct (decide (q ++ [i] ∈ removed st)) as [Hr|Hr].
    + symmetry. apply filter_none. intros x Hx Ht.
      apply (H0 x Hx (proj1 (Is_true_true _) Ht) (q ++ [i]) Hr).
      apply elem_of_cons in Hx as [->|Hx]; [done|].
      by apply iterdescendants_prefix in Hx as [? _].
    + rewrite !filter_cons.
      assert (E : filter (λ n, has_tag "l" n.2) (iterdescendants st (q ++ [i]) c)
                  = filter (λ n, has_tag "l" n.2)
                           (iterdescendants parsed (q ++ [i]) c)).
      { apply Hc. intros x Hx. by apply H0, list_elem_of_further. }
      rewrite E. done.
  - apply IHcs. intros k c' x Hk. specialize (Hall (S k) c' x Hk).
    by rewrite Nat.add_succ_r in Hall.
Qed.

Lemma elem_of_xpath st xml x :
  x ∈ xpath_phystext_l st xml ↔
  ∃ k c, children xml !! k = Some c ∧ ([k] ∉ removed st)
         ∧ has_tag "phystext" c = true
         ∧ x ∈ findall_descendants st "l" [k] c.
Proof.
  unfold xpath_phystext_l. rewrite elem_of_over_children. split.
  - intros (k & c & Hk & Hr & Hx). exists k, c. simpl in *.
    destruct (has_tag "phystext" c); [done|by apply not_elem_of_nil in Hx].
  - intros (k & c & Hk & Hr & Ht & Hx). exists k, c. simpl. by rewrite Ht.
Qed.

Lemma xpath_path st xml x :
  x ∈ xpath_phystext_l st xml → (2 ≤ length x.1)%nat.
Proof.
  intros (k & c & _ & _ & _ & Hx)%elem_of_xpath.
  apply elem_of_findall_descendants in Hx as [_ Hx]. destruct x as [n e].
  apply elem_of_iterdescendants in Hx as (q & Hq & -> & _). simpl.
  destruct q; [done|]. simpl. lia.
Qed.

Lemma xpath_mono st xml x :
  x ∈ xpath_phystext_l st xml → x ∈ xpath_phystext_l parsed xml.
Proof.
  rewrite !elem_of_xpath. intros (k & c & Hk & _ & Ht & Hx).
  exists k, c. split; [done|]. split; [apply not_removed_parsed|].
  split; [done|]. apply elem_of_findall_descendants in Hx as [Hl Hx].
  apply elem_of_findall_descendants. split; [done|].
  apply (iterdescendants_mono parsed st); [|done].
  by intros n ?%not_elem_of_empty.
Qed.

Lemma xpath_unchanged st xml :
  (∀ n, n ∈ removed st →
        ∃ l, l ∈ xpath_phystext_l parsed xml ∧ below l.1 n) →
  lines_apart xml →
  xpath_phystext_l st xml = xpath_phystext_l parsed xml.
Proof.
  intros Hrem Hapart. unfold xpath_phystext_l.
  apply over_children_ext. intros k c Hk. cbn [app Nat.add].
  rewrite (decide_False (P := [k] ∈ removed parsed))
    by apply not_removed_parsed.
  rewrite decide_False.
  - destruct (has_tag "phystext" c) eqn:Ht; [|done].
    apply findall_l_unchanged. intros x Hx Hl n Hn Hpre.
    assert (Hsel : x ∈ xpath_phystext_l parsed xml).
    { apply elem_of_xpath. exists k, c. split; [done|].
      split; [apply not_removed_parsed|]. split; [done|].
      by apply elem_of_findall_descendants. }
    destruct (Hrem n Hn) as (l & Hin & q & Hq & ->).
    assert (Heq : l.1 = x.1).
    { apply (Hapart l x Hin Hsel). etrans; [|exact Hpre]. by exists q. }
    destruct Hpre as [q' Hq']. rewrite Heq, <- app_assoc in Hq'.
    rewrite <- (app_nil_r x.1) in Hq' at 1. apply app_inv_head in Hq'.
    symmetry in Hq'. by apply app_eq_nil in Hq' as [-> _].
  - intros Hr. destruct (Hrem _ Hr) as (l & Hin & q & Hq & E).
    apply xpath_path in Hin. apply (f_equal length) in E.
    rewrite length_app in E. simpl in E. destruct q; [done|]. simpl in E. lia.
Qed.

(** X17: when no selected line lies below another one, a second call of
    [text] on the same object, whose tree the first call has changed,
    returns the same text as the first. *)
Theorem text_again (xml : Element) :
  lines_apart xml →
  (text_from (text_from parsed xml).1 xml).2 = XMLObject_text xml.
Proof.
  intros Hapart. unfold text_from. cbn [fst snd].
  destruct (text_loop_state xml (xpath_phystext_l parsed xml) parsed [])
    as (_ & _ & R & S & _ & _).
  { eapply Forall_impl; [apply xpath_lines|]. by intros l [? _]. }
  set (st1 := (foldl text_turn (parsed, []) (xpath_phystext_l parsed xml)).1)
    in *.
  assert (Hrem : ∀ n, n ∈ removed st1 →
            ∃ l c, l ∈ xpath_phystext_l parsed xml ∧ below l.1 n
                   ∧ subtree xml n = Some c ∧ has_tag "note" c = true).
  { intros n Hn. destruct (R n Hn) as [H|H]; [|done].
    by apply not_elem_of_empty in H. }
  pose proof (xpath_lines parsed xml) as Hlines.
  rewrite Forall_forall in Hlines.
  rewrite xpath_unchanged; [|intros n Hn|done]; cycle 1.
  { destruct (Hrem n Hn) as (l & c & ? & ? & _). by exists l. }
  rewrite XMLObject_text_lines. f_equal. unfold lines_of.
  apply (text_loop_again xml).
  - intros n Hn. destruct (Hrem n Hn) as (l & c & _ & _ & ? & ?).
    by exists c.
  - intros x Hx. destruct (S x Hx) as [H|(l & k & c & Hin & -> & Hk & Ht)];
      [by apply not_elem_of_empty in H|].
    destruct (Hlines l Hin) as [Hs Hl].
    split; [exists c; by rewrite (subtree_snoc _ _ _ _ Hs)|].
    intros l' Hin' [Heq|Hpre]%prefix_snoc_inv.
    + exfalso. destruct (Hlines l' Hin') as [Hs' Hl'].
      rewrite Heq, (subtree_snoc _ _ _ _ Hs), Hk in Hs'. simplify_eq.
      unfold has_tag in Ht, Hl'.
      apply bool_decide_eq_true in Ht, Hl'. by rewrite Ht in Hl'.
    + exists k. by rewrite (Hapart l' l Hin' Hin Hpre).
  - apply xpath_sorted.
  - apply xpath_lines.
Qed.

Lemma text_again_witness :
  (text_from (text_from parsed (desc_ [line_jehovah; line_note_inside])).1
     (desc_ [line_jehovah; line_note_inside])).2
  = py "Jehovah What" ++ [NL] ++ py "Jehovah".
Proof.
  rewrite text_again; [vm_compute; reflexivity|].
  assert (E : xpath_phystext_l parsed (desc_ [line_jehovah; line_note_inside])
              = [([0; 0]%nat, line_jehovah); ([0; 1]%nat, line_note_inside)]).
  { vm_compute. reflexivity. }
  intros l1 l2 H1 H2 Hpre. rewrite E in H1, H2.
  apply elem_of_cons in H1 as [H1|H1];
    [|apply list_elem_of_singleton in H1];
    (apply elem_of_cons in H2 as [H2|H2];
     [|apply list_elem_of_singleton in H2]);
    subst l1 l2; try reflexivity;
    destruct Hpre as [q Hq]; simpl in Hq; discriminate Hq.
Defined.

(** With a line in a line, the inner one with a [space], the second call
    differs: the text of the [space] is set only in the turn of the inner
    line, after the outer line was read. *)
Lemma text_again_nested :
  XMLObject_text (desc_ [line_nested]) = py "abc" ++ [NL] ++ py "b c"
  ∧ (text_from (text_from parsed (desc_ [line_nested])).1
       (desc_ [line_nested])).2
    = py "ab c" ++ [NL] ++ py "b c".
Proof. split; vm_compute; reflexivity. Qed.

(** *** The tree after a second call *)

Lemma tree_state_eq (st st' : tree_state) :
  removed st = removed st' → space_text st = space_text st' → st = st'.
Proof. destruct st, st'. simpl. by intros -> ->. Qed.

Lemma line_turn_fixed st p e :
  (∀ x, x ∈ iterdescendants st p e → has_tag "note" x.2 = false) →
  (∀ k c, children e !! k = Some c → has_tag "space" c = true →
          p ++ [k] ∉ removed st → p ++ [k] ∈ space_text st) →
  (line_turn st (p, e)).1 = st.
Proof.
  intros Hn Hs.
  assert (Hr : removed (line_turn st (p, e)).1 = removed st).
  { apply set_eq. intros n. rewrite line_turn_removed.
    split; [|by left]. intros [?|[c Hin]]; [done|exfalso].
    apply elem_of_findall_descendants in Hin as [Ht Hin].
    apply Hn in Hin. simpl in *. by rewrite Ht in Hin. }
  apply tree_state_eq; [done|].
  apply set_eq. intros x. rewrite line_turn_space_text.
  split; [|by left]. intros [?|[c Hin]]; [done|].
  apply elem_of_findall_children in Hin as (k & Hx & Hk & Hlive & Ht).
  simpl in *. subst x. rewrite Hr in Hlive. by apply (Hs k c).
Qed.

Lemma text_loop_fixed lines :
  ∀ st acc,
    (∀ l x, l ∈ lines → x ∈ iterdescendants st l.1 l.2 →
            has_tag "note" x.2 = false) →
    (∀ l k c, l ∈ lines → children l.2 !! k = Some c →
              has_tag "space" c = true →
              l.1 ++ [k] ∉ removed st → l.1 ++ [k] ∈ space_text st) →
    (foldl text_turn (st, acc) lines).1 = st.
Proof.
  induction lines as [|[p e] lines IH]; intros st acc Hn Hs; [done|].
  cbn [foldl].
  destruct (text_turn (st, acc) (p, e)) as [st1 acc1] eqn:E1.
  assert (Est : st1 = st).
  { rewrite <- (line_turn_fixed st p e).
    - by rewrite <- text_turn_state with (acc := acc), E1.
    - intros x Hx. by apply (Hn (p, e) x); [apply list_elem_of_here|].
    - intros k c Hk Ht Hr.
      by apply (Hs (p, e) k c); [apply list_elem_of_here|..]. }
  subst st1. apply IH.
  - intros l x Hin Hx. by apply (Hn l x); [apply list_elem_of_further|].
  - intros l k c Hin Hk Ht Hr.
    by apply (Hs l k c); [apply list_elem_of_further|..].
Qed.

(** X19: a second call of [text] changes nothing in the tree that the first
    call left: no element is unlinked and no text is set that was not
    before. This holds for any object, also with lines in lines. *)
Theorem text_again_tree (xml : Element) :
  (text_from (text_from parsed xml).1 xml).1 = (text_from parsed xml).1.
Proof.
  destruct (text_leaves_tree_facts xml) as (N & F).
  unfold text_from in *. cbn [fst] in *.
  apply text_loop_fixed.
  - intros l x Hin Hx. apply (N l x); [by apply xpath_mono in Hin|done].
  - intros l k c Hin Hk Ht Hr.
    apply (F l k c); [by apply xpath_mono in Hin|done..].
Qed.

(** *** Objects without lines; the file of an object *)

(** X20: the lines are looked for below the [phystext] children of the
    object only. An object none of whose children is a [phystext] has the
    empty text, whatever lines or [phystext] elements lie elsewhere in
    it. *)
Theorem text_without_phystext (xml : Element) :
  Forall (λ c, has_tag "phystext" c = false) (children xml) →
  XMLObject_text xml = [].
Proof.
  intros H. unfold XMLObject_text.
  assert (E : xpath_phystext_l parsed xml = []).
  { apply elem_of_nil_inv. intros x (k & c & Hk & _ & Ht & _)%elem_of_xpath.
    rewrite Forall_forall in H.
    rewrite (H c) in Ht by (by eapply list_elem_of_lookup_2). done. }
  by rewrite E.
Qed.

Lemma text_without_phystext_witness : XMLObject_text desc_elsewhere = [].
Proof.
  apply text_without_phystext. repeat constructor.
Defined.

Lemma split_on_app sep cur s t :
  split_on sep cur (s ++ sep :: t) = split_on sep cur s ++ split_on sep [] t.
Proof.
  revert cur. induction s as [|c s IH]; intros cur; simpl.
  - by rewrite N.eqb_refl.
  - destruct (N.eqb c sep); [|apply IH]. by rewrite IH.
Qed.

Lemma split_on_free sep cur t :
  sep ∉ t → split_on sep cur t = [rev cur ++ t].
Proof.
  revert cur. induction t as [|c t IH]; intros cur H; simpl.
  - by rewrite app_nil_r.
  - apply not_elem_of_cons in H as [Hc Ht].
    destruct (N.eqb_spec c sep) as [?|_]; [congruence|].
    rewrite IH by done. simpl. by rewrite <- app_assoc.
Qed.

Lemma last_split_on sep cur s t :
  sep ∉ t → last (split_on sep cur (s ++ sep :: t)) = Some t.
Proof.
  intros H. rewrite split_on_app, (split_on_free sep [] t) by done.
  apply last_snoc.
Qed.

Lemma txt_free (c : N) (d : str) :
  c ∉ py ".txt" → c ∉ d → c ∉ d ++ py ".txt".
Proof. intros H1 H2 [?|?]%elem_of_app; [by apply H2|by apply H1]. Qed.

Lemma slash_not_in_txt : SLASH ∉ py ".txt".
Proof. intros H%list_elem_of_In. simpl in H. intuition discriminate. Qed.

Lemma basename_join path d :
  SLASH ∉ d →
  basename (os_path_join path (d ++ py ".txt")) = d ++ py ".txt".
Proof.
  intros Hd. pose proof (txt_free _ _ slash_not_in_txt Hd) as Hf.
  assert (Hfree : basename (d ++ py ".txt") = d ++ py ".txt").
  { unfold basename, split. by rewrite split_on_free. }
  assert (Hsl : ∀ pre, basename (pre ++ [SLASH] ++ d ++ py ".txt")
                       = d ++ py ".txt").
  { intros pre. unfold basename, split. cbn [app].
    by rewrite last_split_on. }
  unfold os_path_join.
  rewrite bool_decide_eq_false_2; cycle 1.
  { intros Hh. apply Hf. destruct (d ++ py ".txt") as [|c s]; [done|].
    injection Hh as ->. apply list_elem_of_here. }
  destruct (decide (path = [])) as [->|Hne].
  { by rewrite bool_decide_eq_true_2. }
  rewrite (bool_decide_eq_false_2 (path = [])) by done. cbn [orb].
  destruct (decide (last path = Some SLASH)) as [Hl|Hl].
  - rewrite bool_decide_eq_true_2 by done.
    destruct path as [|c path _] using rev_ind; [done|].
    rewrite last_snoc in Hl. injection Hl as ->.
    rewrite <- app_assoc. apply Hsl.
  - rewrite bool_decide_eq_false_2 by done. apply Hsl.
Qed.

Lemma parse_title_txt d :
  (Superfast.parse_title (d ++ py ".txt")).1 = d
  ∧ (Superfast.parse_title (d ++ py ".txt")).2
    = match split DOT d with
      | [w; c; f; p] => (Some w, Some c, Some f, Some p)
      | _ => (None, None, None, None)
      end.
Proof.
  assert (E : split DOT (d ++ py ".txt") = split DOT d ++ [py "txt"]).
  { unfold split. change (py ".txt") with (DOT :: py "txt").
    rewrite split_on_app. reflexivity. }
  unfold Superfast.parse_title. rewrite E, all_but_last_snoc, join_split.
  destruct (split DOT d) as [|w [|c [|f [|p [|x l]]]]]; try done.
  by destruct l.
Qed.

(** X21: [write_text] names the file of an object [desc_id + '.txt'] in the
    directory given and writes the text of the object to it. When the id has
    no slash, the name of the file, taken as the title of a document, gives
    the id back as [desc_id] in [parse_title], and the four parts when the
    id has four segments. Without a directory ([path] is [None] by default)
    the call raises [TypeError]. *)
Theorem write_text_title (self : XMLObject) (path : str) :
  SLASH ∉ desc_id self →
  ∃ fullpath,
    write_text self (Some path)
    = Return (fullpath, XMLObject_text (xml self))
    ∧ basename fullpath = desc_id self ++ py ".txt"
    ∧ (Superfast.parse_title (basename fullpath)).1 = desc_id self
    ∧ (Superfast.parse_title (basename fullpath)).2
      = match split DOT (desc_id self) with
        | [w; c; f; p] => (Some w, Some c, Some f, Some p)
        | _ => (None, None, None, None)
        end
    ∧ write_text self None
      = Raise (TypeError
                 "expected str, bytes or os.PathLike object, not NoneType").
Proof.
  intros Hd. eexists. split; [reflexivity|].
  rewrite basename_join by done.
  destruct (parse_title_txt (desc_id self)) as [H1 H2]. done.
Qed.

Lemma write_text_title_witness :
  ∃ fullpath,
    write_text object_h (Some (py "works/text/"))
    = Return (fullpath, XMLObject_text (xml object_h))
    ∧ basename fullpath = py "vda.h.illbk.07.txt"
    ∧ (Superfast.parse_title (basename fullpath)).1 = py "vda.h.illbk.07"
    ∧ (Superfast.parse_title (basename fullpath)).2
      = (Some (py "vda"), Some (py "h"), Some (py "illbk"), Some (py "07"))
    ∧ write_text object_h None
      = Raise (TypeError
                 "expected str, bytes or os.PathLike object, not NoneType").
Proof.
  apply (write_text_title object_h (py "works/text/")).
  intros H%list_elem_of_In. vm_compute in H. intuition discriminate.
Defined.

End BlakeXmlMoreSpec.

(** ** Whitespace, from the markup to the export *)

Module PipelineSpec.
Import Superfast SuperfastMore Pipeline PyFacts BlakeXmlFacts BlakeXmlSpec.

Lemma elem_of_lstrip c s : c ∈ lstrip s → c ∈ s.
Proof.
  induction s as [|d s IH]; [done|]. simpl.
  destruct (isspace d); [|done]. intros H. by apply list_elem_of_further, IH.
Qed.

Lemma elem_of_rstrip c s : c ∈ rstrip s → c ∈ s.
Proof.
  unfold rstrip. rewrite elem_of_rev. intros H%elem_of_lstrip.
  by apply elem_of_rev.
Qed.

Lemma elem_of_join (c : N) sep l :
  c ∈ join sep l → c ∈ sep ∨ ∃ w, w ∈ l ∧ c ∈ w.
Proof.
  induction l as [|w l IH]; [by intros ?%not_elem_of_nil|].
  destruct l as [|w' l].
  - simpl. intros H. right. exists w. split; [apply list_elem_of_here|done].
  - rewrite join_cons by done. rewrite !elem_of_app.
    intros [H|[H|H]]; [|by left|].
    + right. exists w. split; [apply list_elem_of_here|done].
    + destruct (IH H) as [?|(w0 & Hin & Hc)]; [by left|right].
      exists w0. split; [by apply list_elem_of_further|done].
Qed.

Lemma elem_of_slice {A} (x : A) s lo hi : x ∈ slice s lo hi → x ∈ s.
Proof.
  unfold slice. intros H. eapply subseteq_drop, subseteq_take, H.
Qed.

Lemma elem_of_replace_char c old new s :
  c ∈ replace_char old new s → c ∈ new ∨ (c ∈ s ∧ c ≠ old).
Proof.
  induction s as [|d s IH]; [by intros ?%not_elem_of_nil|].
  cbn [replace_char flat_map]. rewrite elem_of_app. intros [H|H].
  - destruct (N.eqb_spec d old) as [->|Hne]; [by left|right].
    apply list_elem_of_singleton in H as ->.
    split; [apply list_elem_of_here|done].
  - destruct (IH H) as [?|[? ?]]; [by left|right].
    split; [by apply list_elem_of_further|done].
Qed.

Lemma text_whitespace_aux xml c :
  c ∈ BlakeXml.XMLObject_text xml → isspace c = true → c = SP ∨ c = NL.
Proof.
  rewrite XMLObject_text_lines, foldl_text_step. cbn [app].
  intros H%elem_of_rstrip Hc.
  apply SuperfastMoreSpec.elem_of_concat in H as (seg & Hseg & Hin).
  apply list_elem_of_fmap in Hseg as (t & -> & _).
  apply elem_of_app in Hin as [Hin|Hin];
    [|right; by apply list_elem_of_singleton in Hin].
  rewrite clean_words in Hin.
  apply elem_of_join in Hin as [Hin|(w & Hw & Hin)];
    [left; by apply list_elem_of_singleton in Hin|].
  destruct (words_from_spec [] t) as [Hwords _]; [constructor|].
  rewrite Forall_forall in Hwords. destruct (Hwords w Hw) as [_ Hnw].
  rewrite Forall_forall in Hnw. specialize (Hnw c Hin).
  unfold nonws in Hnw. congruence.
Qed.

(** X22: the only whitespace in the text of an object is the single space
    and the newline: tabs, carriage returns and the other characters that
    count as whitespace in the markup do not reach it. *)
Theorem text_whitespace (xml : BlakeXml.Element) :
  Forall (λ c, isspace c = true → c = SP ∨ c = NL)
         (BlakeXml.XMLObject_text xml).
Proof. apply Forall_forall. intros c. apply text_whitespace_aux. Qed.

(** X23: for a document whose text is the text of an object of the markup,
    the cleaned text of any fragment, which is what the export writes, has
    no whitespace but the single space: the newlines have become [<br>]. *)
Theorem fragment_whitespace (doc : BlakeDoc) (xml : BlakeXml.Element)
    (fl : fragment_list) (b l : Z) :
  Superfast.text doc = BlakeXml.XMLObject_text xml →
  Forall (λ c, isspace c = true → c = SP)
         (text_cleaned (fragment_of doc fl b l)).
Proof.
  intros Htext. apply Forall_forall. intros c Hc Hsp.
  unfold text_cleaned, fragment_of, fragment in Hc. cbn [frag_text] in Hc.
  apply elem_of_replace_char in Hc as [Hc|[Hc Hnl]].
  - exfalso. apply list_elem_of_In in Hc. simpl in Hc.
    destruct Hc as [<-|[<-|[<-|[<-|[]]]]]; vm_compute in Hsp; discriminate.
  - apply elem_of_slice in Hc. rewrite Htext in Hc.
    destruct (text_whitespace_aux xml c Hc Hsp) as [?|?]; [done|].
    by subst.
Qed.

Lemma fragment_whitespace_witness :
  text_cleaned (fragment_of (doc_of_object BlakeXmlMore.object_h) [] 8 10)
  = py "What<br>Jehov"
  ∧ Forall (λ c, isspace c = true → c = SP)
      (text_cleaned (fragment_of (doc_of_object BlakeXmlMore.object_h) [] 8 10)).
Proof.
  split; [vm_compute; reflexivity|].
  apply (fragment_whitespace _ (BlakeXmlMore.xml BlakeXmlMore.object_h)).
  reflexivity.
Defined.

End PipelineSpec.
